(** * Verification of puzzle.c: fitting the seven tetris pieces on a 4x7 board

    The development embeds [src/puzzle.c] -- the generator of piece
    orientations ([calc_pieces_available]), the backtracking search
    ([recurse], [found_solution], [print_solution], [main]) and the two
    display functions ([print_piece], [print_state]) -- and proves the
    properties stated for them.

    Machine integers are [Z] with the 32-bit wrap-around written out ([u32]);
    C arrays are lists read and written by index; the two arrays [main] owns
    and the two output streams form the [world] that the search threads. *)

From Stdlib Require Import ZArith Lia Bool String Ascii.

From stdpp Require Import base list list_numbers.

Local Open Scope Z_scope.

(** ** Machine arithmetic and arrays *)

Definition u32 (z : Z) : Z := z mod 2 ^ 32.

(** [~z] on a [uint32_t]. *)
Definition u32_not (z : Z) : Z := u32 (Z.lnot z).

(** [a[i]] and [a[i] = v] for an index held in a [uint32_t]. *)
Definition rd {A} `{Inhabited A} (a : list A) (i : Z) : A := a !!! Z.to_nat i.

Definition wr {A} (a : list A) (i : Z) (v : A) : list A := <[Z.to_nat i := v]> a.

(** A counted [for] loop whose body does not assign its counter:
    [for (i = lo; i < lo + n; ++i) s = body i s]. *)
Definition for_loop {S} (lo n : Z) (body : Z -> S -> S) (s : S) : S :=
  fold_left (fun s i => body i s) (seqZ lo n) s.

(** ** Constants and piece definitions *)

Definition NUM_PIECES : Z := 7.

Definition W : Z := 4.

Definition H : Z := 7.

(** [struct piece_def]; the fields [h] and [w] are prefixed because
    [struct piece_orientations] has fields of the same names. *)
Record piece_def := mk_piece_def { pd_def : string; pd_h : Z; pd_w : Z }.

Definition piece_definition : list piece_def :=
  [ mk_piece_def "####" 1 4;
    mk_piece_def ("##" ++ "##") 2 2;
    mk_piece_def ("## " ++ " ##") 2 3;
    mk_piece_def (" ##" ++ "## ") 2 3;
    mk_piece_def ("###" ++ "#  ") 2 3;
    mk_piece_def ("###" ++ "  #") 2 3;
    mk_piece_def (" # " ++ "###") 2 3 ].

#[global] Instance piece_def_inhabited : Inhabited piece_def :=
  populate (mk_piece_def "" 0 0).

(** [struct piece_orientations]: [n] and the arrays [masks[8]], [w[8]], [h[8]]. *)
Record piece_orientations := mk_po {
  po_n : Z;
  po_masks : list Z;
  po_w : list Z;
  po_h : list Z
}.

#[global] Instance piece_orientations_inhabited : Inhabited piece_orientations :=
  populate (mk_po 0 [] [] []).

(** [struct placement]. *)
Record placement := mk_placement { piece_mask : Z }.

#[global] Instance placement_inhabited : Inhabited placement :=
  populate (mk_placement 0).

(** ** The orientation generator, [calc_pieces_available] *)

(** [def[k] != ' ']; the byte after the last character of a C string literal
    is the terminating NUL, which is not a blank. *)
Definition def_filled (def : string) (k : Z) : bool :=
  match String.get (Z.to_nat k) def with
  | Some c => negb (Ascii.eqb c " "%char)
  | None => true
  end.

(** The piece mask computed from the definition string. *)
Definition def_mask (def : string) (piece_w piece_h : Z) : Z :=
  for_loop 0 piece_h (fun y mask =>
    for_loop 0 piece_w (fun x mask =>
      if def_filled def (u32 (x + u32 (piece_w * y)))
      then Z.lor mask (u32 (Z.shiftl 1 (u32 (x + u32 (W * y)))))
      else mask) mask) 0.

(** The check for a redundant orientation: the loop over [l < idx]. *)
Definition redundant (a : piece_orientations) (idx mask piece_w piece_h : Z) : bool :=
  existsb (fun l =>
    (rd (po_w a) l =? piece_w) && (rd (po_h a) l =? piece_h) &&
    (rd (po_masks a) l =? mask)) (seqZ 0 idx).

(** One iteration of the mirror loop: the rows [l] and [piece_h-1-l] trade
    their four bits. *)
Definition mirror_rows (piece_h l mask : Z) : Z :=
  let horiz_mask := Z.shiftl 1 W - 1 in
  let bot_shift := u32 (W * l) in
  let top_shift := u32 (W * u32 (u32 (piece_h - 1) - l)) in
  let bot_mask := u32 (Z.shiftl horiz_mask bot_shift) in
  let top_mask := u32 (Z.shiftl horiz_mask top_shift) in
  let bot := Z.shiftr (Z.land mask bot_mask) bot_shift in
  let top := Z.shiftr (Z.land mask top_mask) top_shift in
  Z.lor (Z.lor (Z.land mask (u32_not (Z.lor bot_mask top_mask)))
               (u32 (Z.shiftl top bot_shift)))
        (u32 (Z.shiftl bot top_shift)).

(** The mirror-image of an orientation: the loop over [l < piece_h/2]. *)
Definition mirror (piece_h mask : Z) : Z :=
  for_loop 0 (piece_h / 2) (mirror_rows piece_h) mask.

(** The 90-degrees rotation of the piece. *)
Definition rotate (mask piece_w piece_h : Z) : Z :=
  for_loop 0 piece_h (fun y rotated_mask =>
    for_loop 0 piece_w (fun x rotated_mask =>
      if negb (Z.land mask (u32 (Z.shiftl 1 (u32 (u32 (W * y) + x)))) =? 0)
      then
        let rotated_x := u32 (u32 (piece_h - 1) - y) in
        let rotated_y := x in
        Z.lor rotated_mask (u32 (Z.shiftl 1 (u32 (u32 (W * rotated_y) + rotated_x))))
      else rotated_mask) rotated_mask) 0.

(** The variables the generator's loops over [j] and [k] carry for one piece:
    [mask], [piece_w], [piece_h], [idx] and the entry [avail[i]]. *)
Record gen_state := mk_gen {
  g_mask : Z;
  g_w : Z;
  g_h : Z;
  g_idx : Z;
  g_avail : piece_orientations
}.

(** The first half of the body of the loop over [k]: add the orientation
    unless it is redundant. *)
Definition add_orientation (g : gen_state) : gen_state :=
  let a := g_avail g in
  if redundant a (g_idx g) (g_mask g) (g_w g) (g_h g) then g
  else
    mk_gen (g_mask g) (g_w g) (g_h g) (u32 (g_idx g + 1))
      (mk_po (po_n a)
             (wr (po_masks a) (g_idx g) (g_mask g))
             (wr (po_w a) (g_idx g) (g_w g))
             (wr (po_h a) (g_idx g) (g_h g))).

(** The whole body of the loop over [k]: record, then mirror. *)
Definition mirror_step (g : gen_state) : gen_state :=
  let g := add_orientation g in
  mk_gen (mirror (g_h g) (g_mask g)) (g_w g) (g_h g) (g_idx g) (g_avail g).

(** The loop over [k] in {not mirrored, mirrored}. *)
Definition mirror_loop (g : gen_state) : gen_state :=
  for_loop 0 2 (fun _ => mirror_step) g.

(** The body of the loop over the 4 rotations [j]. *)
Definition rotation_step (g : gen_state) : gen_state :=
  let g := mirror_loop g in
  let rotated_mask := rotate (g_mask g) (g_w g) (g_h g) in
  let rotated_width := g_h g in
  let rotated_height := g_w g in
  mk_gen rotated_mask rotated_width rotated_height (g_idx g) (g_avail g).

(** The body of the loop over the pieces [i], as a function of the
    definition and of the entry [avail[i]] it fills. *)
Definition calc_piece (d : piece_def) (a : piece_orientations) : piece_orientations :=
  let piece_w := pd_w d in
  let piece_h := pd_h d in
  let mask := def_mask (pd_def d) piece_w piece_h in
  let g := for_loop 0 4 (fun _ => rotation_step) (mk_gen mask piece_w piece_h 0 a) in
  let a := g_avail g in
  mk_po (g_idx g) (po_masks a) (po_w a) (po_h a).

Definition calc_pieces_available (avail : list piece_orientations)
  : list piece_orientations :=
  for_loop 0 NUM_PIECES (fun i avail =>
    wr avail i (calc_piece (rd piece_definition i) (rd avail i))) avail.

(** An array [avail[NUM_PIECES]] as [main] declares it: 7 entries, each with
    three arrays of 8 words, whatever their contents. *)
Definition po_shape (a : piece_orientations) : Prop :=
  length (po_masks a) = 8%nat /\ length (po_w a) = 8%nat /\ length (po_h a) = 8%nat.

Definition avail_shape (avail : list piece_orientations) : Prop :=
  length avail = 7%nat /\ Forall po_shape avail.

Definition zero_po : piece_orientations :=
  mk_po 0 (replicate 8 0) (replicate 8 0) (replicate 8 0).

Definition zero_avail : list piece_orientations := replicate 7 zero_po.

(** ** The world of the search and its effects *)

(** What the search can observe being done: every entry into [recurse], with
    its arguments and the two arrays they point to, and every call of
    [found_solution], with the array it is given. *)
Inductive event :=
| Recurse (iter state : Z) (pa : list piece_orientations) (sol : list placement)
| Found (sol : list placement).

(** The two arrays of [main] that [recurse] updates in place, the two output
    streams, and the history of calls. The history is not a variable of the
    program: [record] keeps it for the properties that speak of every call. *)
Record world := mk_world {
  pieces_available : list piece_orientations;
  solution : list placement;
  out : string;
  err : string;
  calls : list event
}.

Definition set_pieces_available (pa : list piece_orientations) (s : world) : world :=
  mk_world pa (solution s) (out s) (err s) (calls s).

Definition set_solution (sol : list placement) (s : world) : world :=
  mk_world (pieces_available s) sol (out s) (err s) (calls s).

Definition print (t : string) (s : world) : world :=
  mk_world (pieces_available s) (solution s) (out s ++ t) (err s) (calls s).

Definition eprint (t : string) (s : world) : world :=
  mk_world (pieces_available s) (solution s) (out s) (err s ++ t) (calls s).

Definition record (e : event) (s : world) : world :=
  mk_world (pieces_available s) (solution s) (out s) (err s) (calls s ++ [e]).

(** A computation returns, or the process exits ([exit(code)]) in some world,
    or the model runs out of recursion fuel. *)
Inductive outcome (A : Type) :=
| Ok (a : A)
| Exit (code : Z) (s : world)
| OutOfFuel.

Arguments Ok {A} a.

Arguments Exit {A} code s.

Arguments OutOfFuel {A}.

Definition bind {A B} (m : outcome A) (k : A -> outcome B) : outcome B :=
  match m with
  | Ok a => k a
  | Exit c s => Exit c s
  | OutOfFuel => OutOfFuel
  end.

Notation "'do' x <- m ; k" := (bind m (fun x => k))
  (at level 10, x name, m at level 100, k at level 200).

Notation "'do' ' p <- m ; k" := (bind m (fun x => let 'p := x in k))
  (at level 10, p pattern, m at level 100, k at level 200).

Fixpoint for_each {A} (l : list Z) (body : Z -> A -> outcome A) (a : A) : outcome A :=
  match l with
  | [] => Ok a
  | i :: l => do a <- body i a; for_each l body a
  end.

(** [for (i = lo; i < lo + n; ++i) body], where the body may exit. *)
Definition for_m {A} (lo n : Z) (body : Z -> A -> outcome A) (a : A) : outcome A :=
  for_each (seqZ lo n) body a.

(** ** Reporting: [print_solution] and [found_solution] *)

Definition nl : string := String (ascii_of_nat 10) EmptyString.

Definition patterns : string := ".%=#@$*".

Definition pattern_char (i : Z) : string :=
  match String.get (Z.to_nat i) patterns with
  | Some c => String c EmptyString
  | None => String zero EmptyString
  end.

(** The innermost loop of [print_solution] for the cell [(x, y)]; it carries
    the local [found]. *)
Definition print_cell (solution : list placement) (sofar x y : Z)
  : Z * world -> outcome (Z * world) :=
  for_m 0 sofar (fun i '(found, s) =>
    let mask := piece_mask (rd solution i) in
    if negb (Z.land mask (u32 (Z.shiftl 1 (u32 (x + u32 (W * y))))) =? 0) then
      if negb (found =? 0) then
        Exit 1 (eprint ("Internal error: overlapping pieces!" ++ nl) s)
      else Ok (1, print (pattern_char i) s)
    else Ok (found, s)).

Definition print_solution (solution : list placement) (sofar : Z) (s : world)
  : outcome world :=
  do s <- for_m 0 H (fun y s =>
            do s <- for_m 0 W (fun x s =>
                      do '(found, s) <- print_cell solution sofar x y (0, s);
                      if found =? 0 then Ok (print " " s) else Ok s) s;
            Ok (print nl s)) s;
  Ok (print ("--------" ++ nl) s).

Definition found_solution (s : world) : outcome world :=
  let s := record (Found (solution s)) s in
  let s := print ("Hey, found a solution!" ++ nl) s in
  print_solution (solution s) NUM_PIECES s.

(** ** Display of a mask: [print_piece] and [print_state] *)

(** [print_piece]: the [w] x [h] corner of [mask], a [#] for a set bit and a
    blank for a clear one, one row per line, then a line of dashes. It
    writes to [stdout] and does nothing else. *)
Definition print_piece (mask w h : Z) (s : world) : world :=
  let s := for_loop 0 h (fun y s =>
             let s := for_loop 0 w (fun x s =>
                        print (if negb (Z.land mask (u32 (Z.shiftl 1 (u32 (u32 (W * y) + x))))
                                        =? 0)
                               then "#" else " ") s) s in
             print nl s) s in
  print ("--------" ++ nl) s.

(** [print_state]: the whole board. *)
Definition print_state (state : Z) (s : world) : world := print_piece state W H s.

(** ** The search, [recurse] *)

(** The body of the two innermost loops: try the orientation [mask] at the
    anchor [(x, y)]; [rec] is the recursive call. *)
Definition try_place (rec : Z -> Z -> world -> outcome world)
    (iter state mask x y : Z) (s : world) : outcome world :=
  let piece_mask := u32 (Z.shiftl mask (u32 (x + u32 (W * y)))) in
  if negb (Z.land piece_mask state =? 0) then Ok s
  else
    let new_state := Z.lor state piece_mask in
    let s := set_solution (wr (solution s) iter (mk_placement piece_mask)) s in
    rec (u32 (iter + 1)) new_state s.

(** The body of the loop over the orientations [j] of the piece [p]. The
    loops [for (y = 0; y <= y_max; ++y)] and [for (x = 0; x <= x_max; ++x)]
    are counted loops of [y_max + 1] and [x_max + 1] iterations as long as
    the bounds are below 2^32 - 1, which they are for every orientation the
    generator produces (lemma [generated_orientations_fit]). *)
Definition try_orientation (rec : Z -> Z -> world -> outcome world)
    (iter state : Z) (p : piece_orientations) (j : Z) (s : world) : outcome world :=
  let mask := rd (po_masks p) j in
  let x_max := u32 (W - rd (po_w p) j) in
  let y_max := u32 (H - rd (po_h p) j) in
  for_m 0 (y_max + 1) (fun y s =>
    for_m 0 (x_max + 1) (fun x s => try_place rec iter state mask x y s) s) s.

(** The body of the loop over the slots [i]: take the slot's piece out, try
    all its orientations everywhere, put it back. *)
Definition try_slot (rec : Z -> Z -> world -> outcome world)
    (iter state i : Z) (s : world) : outcome world :=
  let p := rd (pieces_available s) i in
  let s := set_pieces_available
             (wr (pieces_available s) i (rd (pieces_available s) 0)) s in
  let num_orientations := po_n p in
  do s <- for_m 0 num_orientations (try_orientation rec iter state p) s;
  Ok (set_pieces_available (wr (pieces_available s) i p) s).

(** [recurse]; the fuel bounds the depth of the recursion and is consumed by
    the recursive call only. *)
Fixpoint recurse (fuel : nat) (iter state : Z) (s : world) : outcome world :=
  let s := record (Recurse iter state (pieces_available s) (solution s)) s in
  if iter =? NUM_PIECES then found_solution s
  else
    for_m iter (NUM_PIECES - iter)
      (try_slot (match fuel with
                 | O => fun _ _ _ => OutOfFuel
                 | S fuel => recurse fuel
                 end) iter state) s.

(** [main]: [avail0] and [solution0] are the contents of its two
    uninitialised local arrays; the result is the value it returns. *)
Definition main (avail0 : list piece_orientations) (solution0 : list placement)
  : outcome (Z * world) :=
  let s := mk_world avail0 solution0 "" "" [] in
  let s := set_pieces_available (calc_pieces_available (pieces_available s)) s in
  do s <- recurse (Z.to_nat NUM_PIECES) 0 0 s;
  Ok (0, s).

(** The exit status of the process. *)
Definition exit_status {A} (r : outcome (Z * A)) : option Z :=
  match r with
  | Ok (c, _) => Some c
  | Exit c _ => Some c
  | OutOfFuel => None
  end.

(** The solutions reported in a history. *)
Definition reports (l : list event) : list (list placement) :=
  omap (fun e => match e with Found sol => Some sol | _ => None end) l.

Definition zero_solution : list placement := replicate 7 (mk_placement 0).

(** ** Vocabulary of the properties *)

(** The entries of [avail[i]] that [n] makes live, as (mask, width, height). *)
Definition orientations (p : piece_orientations) : list (Z * Z * Z) :=
  (fun j => (rd (po_masks p) j, rd (po_w p) j, rd (po_h p) j)) <$> seqZ 0 (po_n p).

(** The masks [recurse] computes for one orientation, in the order of its
    loops over [y] and [x]. *)
Definition placements_of (o : Z * Z * Z) : list Z :=
  let '(mask, w, h) := o in
  y ← seqZ 0 (u32 (H - h) + 1);
  x ← seqZ 0 (u32 (W - w) + 1);
  [u32 (Z.shiftl mask (u32 (x + u32 (W * y))))].

Definition placements (p : piece_orientations) : list Z :=
  o ← orientations p; placements_of o.

(** The cells of the board, by their bits: the cell [(x, y)] is the bit
    [x + W * y]. *)
Definition cells : list Z := seqZ 0 (W * H).

Definition full_board : Z := 0x0FFFFFFF.

(** The number of cells of the board that [m] covers among those [sel] selects. *)
Definition weight (sel : Z -> bool) (m : Z) : Z :=
  foldr (fun k acc => Z.b2z (Z.testbit m k && sel k) + acc) 0 cells.

Definition popcount (m : Z) : Z := weight (fun _ => true) m.

(** The chessboard colouring of the board. *)
Definition black (k : Z) : bool := Z.odd (k mod W + k / W).

Definition blacks (m : Z) : Z := weight black m.

Definition on_board (m : Z) : Prop := 0 <= m < 2 ^ (W * H).

(** A mask of four cells of the board. *)
Definition tetromino (m : Z) : Prop := on_board m /\ popcount m = 4.

Definition tetrominob (m : Z) : bool :=
  (0 <=? m) && (m <? 2 ^ (W * H)) && (popcount m =? 4).

Definition piece_fits (p : piece_orientations) : Prop :=
  Forall tetromino (placements p).

(** Pieces all of whose placements cover an even, or an odd, number of
    black cells. *)
Definition even_piece (p : piece_orientations) : Prop :=
  Forall (fun m => Z.odd (blacks m) = false) (placements p).

Definition odd_piece (p : piece_orientations) : Prop :=
  Forall (fun m => Z.odd (blacks m) = true) (placements p).

Definition masks (sol : list placement) : list Z := piece_mask <$> sol.

Definition or_masks (l : list Z) : Z := foldr Z.lor 0 l.

Definition pairwise_disjoint (l : list Z) : Prop :=
  forall (i j : nat) mi mj,
    l !! i = Some mi -> l !! j = Some mj -> i <> j -> Z.land mi mj = 0.

(** The state of a branch of the search on entry to [recurse]: [pre] are the
    masks placed at the depths below [iter]. *)
Definition tiling_inv (iter state : Z) (pa : list piece_orientations) (pre : list Z)
  : Prop :=
  0 <= iter <= NUM_PIECES /\ length pa = 7%nat /\ Forall piece_fits pa /\
  Z.of_nat (length pre) = iter /\ state = or_masks pre /\
  pairwise_disjoint pre /\ Forall tetromino pre.

(** The same with the colouring argument: the slot 6 holds the only piece of
    odd colouring until it is taken. *)
Definition parity_inv (iter state : Z) (pa : list piece_orientations) (pre : list Z)
  : Prop :=
  tiling_inv iter state pa pre /\
  even_piece (rd pa 0) /\
  (forall k, iter <= k < 6 -> even_piece (rd pa k)) /\
  ((odd_piece (rd pa 6) /\ iter <= 6 /\ Z.odd (blacks state) = false) \/
   (even_piece (rd pa 6) /\ Z.odd (blacks state) = true)).

(** The invariant of a tiling as a test that evaluates. *)
Fixpoint disjointb (l : list Z) : bool :=
  match l with
  | [] => true
  | m :: l => forallb (fun a => Z.land a m =? 0) l && disjointb l
  end.

Definition tiling_invb (iter state : Z) (pa : list piece_orientations) (pre : list Z)
  : bool :=
  (0 <=? iter) && (iter <=? NUM_PIECES) && (Z.of_nat (length pa) =? 7) &&
  forallb (fun p => forallb tetrominob (placements p)) pa &&
  (Z.of_nat (length pre) =? iter) && (state =? or_masks pre) &&
  disjointb pre && forallb tetrominob pre.

(** Outcomes as pre- and postconditions: the result satisfies [Q] when the
    computation returns and [E] when the process exits; the fuel suffices. *)
Definition triple {A} (r : outcome A) (Q : A -> Prop) (E : Z -> world -> Prop) : Prop :=
  match r with
  | Ok a => Q a
  | Exit c s => E c s
  | OutOfFuel => False
  end.

(** The test of [print_solution]: the mask [m] covers the cell [(x, y)]. *)
Definition covers (m x y : Z) : bool :=
  negb (Z.land m (u32 (Z.shiftl 1 (u32 (x + u32 (W * y))))) =? 0).

(** The depths below [sofar] whose mask covers the cell [(x, y)]. *)
Definition coverers (sol : list placement) (sofar x y : Z) : list Z :=
  filter (fun i => covers (piece_mask (rd sol i)) x y = true) (seqZ 0 sofar).

(** Two masks of [sol] below [sofar] cover the same cell of the board. *)
Definition overlapping (sol : list placement) (sofar : Z) : Prop :=
  exists i j x y,
    0 <= i < j /\ j < sofar /\ 0 <= x < W /\ 0 <= y < H /\
    covers (piece_mask (rd sol i)) x y = true /\
    covers (piece_mask (rd sol j)) x y = true.

Definition diagnostic : string := "Internal error: overlapping pieces!" ++ nl.

(** ** Vocabulary of the effects *)

(** The worlds [s'] that differ from [s] in the text written to [stdout] only. *)
Definition printed (s s' : world) : Prop :=
  pieces_available s' = pieces_available s /\ solution s' = solution s /\
  err s' = err s /\ calls s' = calls s.

(** The worlds in which the process exits from [print_solution] begun in [s]. *)
Definition aborted (s : world) (c : Z) (s' : world) : Prop :=
  c = 1 /\ err s' = (err s ++ diagnostic)%string /\
  pieces_available s' = pieces_available s /\ solution s' = solution s /\
  calls s' = calls s.

(** The world in which the process exits from [found_solution] begun in [s]. *)
Definition abort_report (s : world) (c : Z) (s' : world) : Prop :=
  c = 1 /\ overlapping (solution s) NUM_PIECES /\
  err s' = (err s ++ diagnostic)%string /\
  pieces_available s' = pieces_available s /\ solution s' = solution s /\
  calls s' = calls s ++ [Found (solution s)].

(** What the invariant [Inv] says of an event of the history. *)
Definition event_ok (Inv : Z -> Z -> list piece_orientations -> list Z -> Prop)
    (e : event) : Prop :=
  match e with
  | Recurse iter state pa sol => Inv iter state pa (masks (take (Z.to_nat iter) sol))
  | Found sol => exists state pa, Inv NUM_PIECES state pa (masks sol)
  end.

(** What a completed part of the search at depth [iter] leaves behind. *)
Definition searched (Inv : Z -> Z -> list piece_orientations -> list Z -> Prop)
    (iter : Z) (s s' : world) : Prop :=
  pieces_available s' = pieces_available s /\
  take (Z.to_nat iter) (solution s') = take (Z.to_nat iter) (solution s) /\
  length (solution s') = length (solution s) /\
  err s' = err s /\
  exists evs, calls s' = calls s ++ evs /\ Forall (event_ok Inv) evs.

(** ** The table of orientations *)

(** The table generated from a zeroed array. *)
Definition table : list piece_orientations :=
  Eval vm_compute in calc_pieces_available zero_avail.

(** ** Invariants and exits the specification of [recurse] is used with *)

Definition never : Z -> world -> Prop := fun _ _ => False.

(** The process exits with the status 1, after [found_solution] was given
    overlapping masks and wrote the diagnostic. *)
Definition overlap_exit : Z -> world -> Prop := fun c s =>
  c = 1 /\ overlapping (solution s) NUM_PIECES /\
  (exists e, err s = (e ++ diagnostic)%string) /\
  exists l, calls s = l ++ [Found (solution s)].

(** Any call at a depth in [0, 7]. *)
Definition depth_inv (iter state : Z) (pa : list piece_orientations) (pre : list Z)
  : Prop := 0 <= iter <= NUM_PIECES.

(** A branch on which straight pieces fill the rows 0 to 5, with the straight
    piece in the slot 6: the state before the last row is filled. *)
Definition six_rows : list placement :=
  mk_placement <$> [15; 240; 3840; 61440; 983040; 15728640; 0].

Definition six_rows_world : world :=
  mk_world (wr table 6 (rd table 0)) six_rows "" "" [].

Definition seven_rows : list placement :=
  mk_placement <$> [15; 240; 3840; 61440; 983040; 15728640; 251658240].

(** A branch of the search on the generated table, five pieces deep: the
    pieces 0 to 4 are placed, each from its own slot, and the slots 5 and 6
    hold the pieces 5 and 6, neither of them the piece of the slot 0. The
    occupancy is 259470143 = 0x0F7733FF. *)
Definition five_placed : list placement :=
  mk_placement <$> [15; 816; 405504; 207618048; 51445760; 0; 0].

Definition five_placed_world : world := mk_world table five_placed "" "" [].

(** ** Vocabulary of the claims *)

(** No bit of [m] at a position 28 or above. *)
Definition bits_on_board (m : Z) : Prop :=
  0 <= m /\ forall k, Z.testbit m k = true -> 0 <= k < W * H.

(** Every cell of [m] decodes to coordinates on the board. *)
Definition cells_on_board (m : Z) : Prop :=
  forall k, Z.testbit m k = true -> 0 <= k mod W < W /\ 0 <= k / W < H.

Definition event_on_board (e : event) : Prop :=
  match e with
  | Recurse iter state pa sol =>
      bits_on_board state /\ cells_on_board state /\
      forall d, 0 <= d < iter ->
        bits_on_board (piece_mask (rd sol d)) /\
        cells_on_board (piece_mask (rd sol d))
  | Found sol =>
      forall d, 0 <= d < NUM_PIECES ->
        bits_on_board (piece_mask (rd sol d)) /\
        cells_on_board (piece_mask (rd sol d))
  end.

(** Initial contents of the arrays of [main] other than zeroes. *)
Definition ones_avail : list piece_orientations :=
  replicate 7 (mk_po 9 (replicate 8 1) (replicate 8 1) (replicate 8 1)).

Definition ones_solution : list placement := replicate 7 (mk_placement 1).






(** The bit content of the row [r] of a mask. *)
Definition row (r m : Z) : Z := Z.land (Z.shiftr m (W * r)) (Z.ones W).

(** Where the bit [k] of the mirror-image comes from, after the rows below
    [t] have been traded with their partners. *)
Definition mirror_index (h t k : Z) : Z :=
  if (k / W <? t) || ((h - 1 - t <? k / W) && (k / W <? h))
  then W * (h - 1 - k / W) + k mod W
  else k.

(** The states of the generator at the start of the iterations of the loop
    over the rotations, for a piece definition [d]. *)
Definition rotation_states (d : piece_def) (a : piece_orientations) : list gen_state :=
  let g0 := mk_gen (def_mask (pd_def d) (pd_w d) (pd_h d)) (pd_w d) (pd_h d) 0 a in
  let g1 := rotation_step g0 in
  let g2 := rotation_step g1 in
  let g3 := rotation_step g2 in
  [g0; g1; g2; g3].

(** The orientation sets offered for placement at the depth [iter]: the
    slots the loop of [recurse] reads. *)
Definition offered (iter : Z) (pa : list piece_orientations) : list piece_orientations :=
  drop (Z.to_nat iter) pa.

(** ** Vocabulary of the further properties: pools *)

(** An entry of the pool on which the loops of [recurse] are counted loops
    and every shift is below 32: the arrays have 8 words, at most 8 entries
    are live, and every live bounding box is on the board. *)
Definition well_formed (p : piece_orientations) : Prop :=
  po_shape p /\ 0 <= po_n p <= 8 /\
  forall j, 0 <= j < po_n p ->
    1 <= rd (po_w p) j <= W /\ 1 <= rd (po_h p) j <= H /\
    0 <= rd (po_masks p) j < 2 ^ 32.

(** A pool [pieces_available[NUM_PIECES]] of such entries. *)
Definition pool_ok (pa : list piece_orientations) : Prop :=
  length pa = 7%nat /\ Forall well_formed pa.

(** The same as tests that evaluate. *)
Definition well_formedb (p : piece_orientations) : bool :=
  (Z.of_nat (length (po_masks p)) =? 8) && (Z.of_nat (length (po_w p)) =? 8) &&
  (Z.of_nat (length (po_h p)) =? 8) && (0 <=? po_n p) && (po_n p <=? 8) &&
  forallb (fun j => (1 <=? rd (po_w p) j) && (rd (po_w p) j <=? W) &&
                    (1 <=? rd (po_h p) j) && (rd (po_h p) j <=? H) &&
                    (0 <=? rd (po_masks p) j) && (rd (po_masks p) j <? 2 ^ 32))
          (seqZ 0 (po_n p)).

Definition pool_okb (pa : list piece_orientations) : bool :=
  (Z.of_nat (length pa) =? 7) && forallb well_formedb pa.

(** The masks recorded at the depths from [b] up to, and not including,
    [iter]. *)
Definition placed_since (b iter : Z) (sol : list placement) : list Z :=
  drop (Z.to_nat b) (masks (take (Z.to_nat iter) sol)).

(** The pool [pa] of a call nested in a call at the depth [b] whose pool was
    [pa0]: the slots below [b] are untouched, and every slot holds what it
    held in [pa0] or what the slot 0 held. *)
Definition pool_inv (b : Z) (pa0 : list piece_orientations)
    (iter state : Z) (pa : list piece_orientations) (pre : list Z) : Prop :=
  0 <= b <= iter /\ iter <= NUM_PIECES /\ length pa = 7%nat /\
  (forall k, 0 <= k < b -> rd pa k = rd pa0 k) /\
  (forall k, 0 <= k < NUM_PIECES -> rd pa k = rd pa0 k \/ rd pa k = rd pa0 0).

(** The occupancy of a call nested in a call at the depth [b] entered with
    the occupancy [st0]: [st0] and the masks placed since, which are
    disjoint from [st0] and from one another. *)
Definition occupancy_inv (b st0 : Z)
    (iter state : Z) (pa : list piece_orientations) (pre : list Z) : Prop :=
  0 <= b <= iter /\ iter <= NUM_PIECES /\ Z.of_nat (length pre) = iter /\
  state = Z.lor st0 (or_masks (drop (Z.to_nat b) pre)) /\
  Z.land st0 (or_masks (drop (Z.to_nat b) pre)) = 0 /\
  pairwise_disjoint (drop (Z.to_nat b) pre).

(** Every entry of the pool comes from [pa0], and every mask placed since
    the depth [b] is a placement of an entry of [pa0]. *)
Definition source_inv (b : Z) (pa0 : list piece_orientations)
    (iter state : Z) (pa : list piece_orientations) (pre : list Z) : Prop :=
  0 <= b <= iter /\ iter <= NUM_PIECES /\ length pa = 7%nat /\
  Z.of_nat (length pre) = iter /\
  (forall p, p ∈ pa -> p ∈ pa0) /\
  Forall (fun m => exists p, p ∈ pa0 /\ m ∈ placements p) (drop (Z.to_nat b) pre).

(** ** Vocabulary of the further properties: the text on [stdout] *)

(** The texts [f i] for the [i] of [l], one after the other. *)
Definition text {A} (f : A -> string) (l : list A) : string :=
  foldr (fun i t => (f i ++ t)%string) ""%string l.

Definition newline : ascii := ascii_of_nat 10.

(** What [print_solution] writes for the cell [(x, y)] when at most one
    mask covers it: the pattern of the depth that covers it, or a blank. *)
Definition cell_text (sol : list placement) (sofar x y : Z) : string :=
  match coverers sol sofar x y with
  | [] => " "%string
  | i :: _ => pattern_char i
  end.

(** The 7 rows of 4 such characters, each row ended by a newline. *)
Definition grid_text (sol : list placement) (sofar : Z) : string :=
  text (fun y => text (fun x => cell_text sol sofar x y) (seqZ 0 W) ++ nl)%string (seqZ 0 H).

(** The grid and the line of dashes under it. *)
Definition picture (sol : list placement) (sofar : Z) : string :=
  (grid_text sol sofar ++ "--------" ++ nl)%string.

Definition announcement : string := ("Hey, found a solution!" ++ nl)%string.

(** What [found_solution] writes for each of the solutions [sols]. *)
Definition report_text (sols : list (list placement)) : string :=
  text (fun sol => (announcement ++ picture sol NUM_PIECES)%string) sols.

(** From [s] to [s'] the history has grown, and [stdout] has grown by the
    text of the reports added to the history. *)
Definition reported (s s' : world) : Prop :=
  exists evs, calls s' = calls s ++ evs /\
              out s' = (out s ++ report_text (reports evs))%string.

(** What [print_piece] writes for the cell [(x, y)]. *)
Definition piece_cell (mask x y : Z) : string :=
  if negb (Z.land mask (u32 (Z.shiftl 1 (u32 (u32 (W * y) + x)))) =? 0) then "#" else " ".

(** The [h] rows of [w] such characters, each row ended by a newline. *)
Definition piece_grid (mask w h : Z) : string :=
  text (fun y => text (fun x => piece_cell mask x y) (seqZ 0 w) ++ nl)%string (seqZ 0 h).

(** ** Vocabulary of the further properties: the generator *)

(** A 32-bit mask all of whose cells are in the [w] x [h] corner of the
    board. *)
Definition in_box (m w h : Z) : Prop :=
  0 <= m < 2 ^ 32 /\
  forall x y, 0 <= x < W -> 0 <= y -> Z.testbit m (x + W * y) = true -> x < w /\ y < h.

Definition in_boxb (m w h : Z) : bool :=
  (0 <=? m) && (m <? 2 ^ 32) &&
  forallb (fun k => negb (Z.testbit m k) || ((k mod W <? w) && (k / W <? h))) (seqZ 0 32).

(** Every column and every row of the [w] x [h] box holds a cell of [m]. *)
Definition tight (m w h : Z) : Prop :=
  (forall x, 0 <= x < w -> exists y, 0 <= y < h /\ Z.testbit m (x + W * y) = true) /\
  (forall y, 0 <= y < h -> exists x, 0 <= x < w /\ Z.testbit m (x + W * y) = true).

Definition tightb (m w h : Z) : bool :=
  forallb (fun x => existsb (fun y => Z.testbit m (x + W * y)) (seqZ 0 h)) (seqZ 0 w) &&
  forallb (fun y => existsb (fun x => Z.testbit m (x + W * y)) (seqZ 0 w)) (seqZ 0 h).

(** A shape of four cells whose width and height are those of its bounding
    box, as a test that evaluates. *)
Definition shapeb (o : Z * Z * Z) : bool :=
  let '(m, w, h) := o in
  (1 <=? w) && (w <=? W) && (1 <=? h) && (h <=? W) && (popcount m =? 4) &&
  in_boxb m w h && tightb m w h.

(** The sum of [f k] for the [k] of [l]. *)
Definition sumZ (f : Z -> Z) (l : list Z) : Z := foldr (fun k acc => f k + acc) 0 l.

(** The bit [k] of [m], as a number. *)
Definition bit (m k : Z) : Z := Z.b2z (Z.testbit m k).

(** The cells of the [w] x [h] corner of the board. *)
Definition box_cells (w h : Z) : list Z :=
  filter (fun k => k mod W < w /\ k / W < h) cells.

(** The cells of the [w] x [h] box whose corner is at the anchor [(x, y)]. *)
Definition placed_cells (w h x y : Z) : list Z :=
  filter (fun k => (x <= k mod W < x + w) /\ (y <= k / W < y + h)) cells.

(** The orientations recorded so far in the state [g] of the generator: the
    entries below [idx]. *)
Definition recorded (g : gen_state) : list (Z * Z * Z) :=
  orientations (mk_po (g_idx g) (po_masks (g_avail g)) (po_w (g_avail g))
                      (po_h (g_avail g))).

(** Recording an orientation unless it is recorded already, as the loop
    over [l < idx] and the assignments after it do. *)
Definition note (acc : list (Z * Z * Z)) (o : Z * Z * Z) : list (Z * Z * Z) :=
  if decide (o ∈ acc) then acc else acc ++ [o].

(** The orientations the loops over [j] and [k] visit for a definition, in
    the order of the visits: each of the four rotations, as it is and
    mirrored. *)
Definition candidates (d : piece_def) : list (Z * Z * Z) :=
  let w := pd_w d in
  let h := pd_h d in
  let m0 := def_mask (pd_def d) w h in
  let m1 := rotate m0 w h in
  let m2 := rotate m1 h w in
  let m3 := rotate m2 w h in
  [ (m0, w, h); (mirror h m0, w, h);
    (m1, h, w); (mirror w m1, h, w);
    (m2, w, h); (mirror h m2, w, h);
    (m3, h, w); (mirror w m3, h, w) ].

(** The entries of [a] at the indices from [j0] on are those of [a0]. *)
Definition same_from (j0 : Z) (a0 a : piece_orientations) : Prop :=
  forall j, j0 <= j ->
    rd (po_masks a) j = rd (po_masks a0) j /\
    rd (po_w a) j = rd (po_w a0) j /\ rd (po_h a) j = rd (po_h a0) j.

(** The state [g] of the generator, begun on the entry [a0], after the
    orientations [acc] were recorded. *)
Definition gen_ok (a0 : piece_orientations) (acc : list (Z * Z * Z)) (g : gen_state)
  : Prop :=
  po_shape (g_avail g) /\ g_idx g = Z.of_nat (length acc) /\ recorded g = acc /\
  po_n (g_avail g) = po_n a0 /\ same_from (g_idx g) a0 (g_avail g).

(** Closed arithmetic facts, by evaluation. *)
Ltac by_eval := vm_compute; repeat split; first [reflexivity | discriminate].

(** * Proofs *)

(** ** Bits and counting *)

Lemma u32_small z : 0 <= z < 2 ^ 32 -> u32 z = z.
Proof. apply Z.mod_small. Qed.

Lemma u32_range z : 0 <= u32 z < 2 ^ 32.
Proof. apply Z.mod_pos_bound. lia. Qed.

Lemma testbit_u32 z k : Z.testbit (u32 z) k = (k <? 32) && Z.testbit z k.
Proof. unfold u32. apply Z.testbit_mod_pow2. lia. Qed.

Lemma testbit_small z k : 0 <= z < 2 ^ 32 -> 32 <= k -> Z.testbit z k = false.
Proof.
  intros Hz Hk. rewrite <- (u32_small z Hz), testbit_u32.
  destruct (Z.ltb_spec k 32); [lia | reflexivity].
Qed.

Lemma range_intro z :
  0 <= z -> (forall k, 32 <= k -> Z.testbit z k = false) -> 0 <= z < 2 ^ 32.
Proof.
  intros H0 Hb. split; [assumption|].
  destruct (Z.eq_dec z 0) as [->|Hne]; [reflexivity|].
  apply Z.log2_lt_pow2; [lia|].
  destruct (Z.ltb_spec (Z.log2 z) 32) as [|Hge]; [assumption|].
  specialize (Hb _ Hge). rewrite Z.bit_log2 in Hb by lia. discriminate.
Qed.

Lemma on_board_testbit m k : on_board m -> Z.testbit m k = true -> 0 <= k < W * H.
Proof.
  intros [H0 H1] Hk.
  destruct (Z.ltb_spec k 0) as [Hneg|Hpos].
  { rewrite Z.testbit_neg_r in Hk by lia. discriminate. }
  split; [lia|].
  destruct (Z.ltb_spec k (W * H)) as [|Hge]; [lia|].
  rewrite <- (Z.mod_small m (2 ^ (W * H))) in Hk by lia.
  rewrite Z.mod_pow2_bits_high in Hk; [discriminate | unfold W, H in *; lia].
Qed.

Lemma on_board_intro m :
  0 <= m -> (forall k, W * H <= k -> Z.testbit m k = false) -> on_board m.
Proof.
  intros H0 Hb. split; [lia|].
  destruct (Z.eq_dec m 0) as [->|Hne]; [reflexivity|].
  apply Z.log2_lt_pow2; [lia|].
  destruct (Z.ltb_spec (Z.log2 m) (W * H)) as [|Hge]; [lia|].
  specialize (Hb _ Hge). rewrite Z.bit_log2 in Hb by lia. discriminate.
Qed.

Lemma land_zero_bits a b k : Z.land a b = 0 -> Z.testbit a k && Z.testbit b k = false.
Proof. intros Hab. rewrite <- Z.land_spec, Hab. apply Z.bits_0. Qed.

Lemma weight_lor_disjoint sel a b :
  Z.land a b = 0 -> weight sel (Z.lor a b) = weight sel a + weight sel b.
Proof.
  intros Hab. unfold weight. induction cells as [|k l IH]; [reflexivity|].
  simpl. rewrite IH, Z.lor_spec.
  pose proof (land_zero_bits a b k Hab).
  destruct (Z.testbit a k), (Z.testbit b k), (sel k); simpl in *; try discriminate; lia.
Qed.

Lemma count_all_true (g : Z -> bool) (l : list Z) :
  foldr (fun k acc => Z.b2z (g k) + acc) 0 l = Z.of_nat (length l) ->
  forall k, k ∈ l -> g k = true.
Proof.
  assert (Hle : forall l, foldr (fun k acc => Z.b2z (g k) + acc) 0 l <= Z.of_nat (length l)).
  { clear l. induction l as [|k l IH]; simpl; [lia|]. destruct (g k); simpl; lia. }
  induction l as [|k l IH]; intros Hsum k' Hk'; [by apply elem_of_nil in Hk'|].
  simpl in Hsum. pose proof (Hle l).
  apply elem_of_cons in Hk' as [->|Hk'].
  - destruct (g k); [reflexivity | simpl in Hsum; lia].
  - apply IH; [|assumption]. destruct (g k); simpl in Hsum; lia.
Qed.

Lemma popcount_full m : on_board m -> popcount m = W * H -> m = full_board.
Proof.
  intros Hm Hc. apply Z.bits_inj'. intros k Hk.
  change full_board with (Z.ones (W * H)).
  destruct (Z.ltb_spec k (W * H)) as [Hlt|Hge].
  - rewrite Z.ones_spec_low by lia.
    unfold popcount, weight in Hc.
    assert (Hc' : foldr (fun k acc => Z.b2z (Z.testbit m k) + acc) 0 cells
                  = Z.of_nat (length cells)).
    { assert (Hlen : Z.of_nat (length cells) = W * H) by reflexivity.
      rewrite Hlen, <- Hc. clear. induction cells as [|c l IH]; simpl; [reflexivity|].
      by rewrite IH, andb_true_r. }
    apply (count_all_true _ _ Hc'). apply elem_of_seqZ. lia.
  - rewrite Z.ones_spec_high by (unfold W, H in *; lia).
    destruct (Z.testbit m k) eqn:Hb; [|reflexivity].
    apply (on_board_testbit _ _ Hm) in Hb. lia.
Qed.

Lemma on_board_lor a b : on_board a -> on_board b -> on_board (Z.lor a b).
Proof.
  intros Ha Hb. apply on_board_intro.
  - apply Z.lor_nonneg. unfold on_board in *. lia.
  - intros k Hk. rewrite Z.lor_spec.
    destruct (Z.testbit a k) eqn:Ea; [apply (on_board_testbit _ _ Ha) in Ea; lia|].
    destruct (Z.testbit b k) eqn:Eb; [apply (on_board_testbit _ _ Hb) in Eb; lia|].
    reflexivity.
Qed.

Lemma on_board_0 : on_board 0.
Proof. unfold on_board, W, H. lia. Qed.

(** ** Lists of disjoint masks *)

Lemma or_masks_snoc l m : or_masks (l ++ [m]) = Z.lor (or_masks l) m.
Proof.
  unfold or_masks. induction l as [|a l IH]; simpl.
  - by rewrite Z.lor_0_r, Z.lor_0_l.
  - by rewrite IH, Z.lor_assoc.
Qed.

Lemma land_or_masks_elem m l a :
  Z.land m (or_masks l) = 0 -> a ∈ l -> Z.land a m = 0.
Proof.
  intros Hz Ha. apply Z.bits_inj'. intros k _. rewrite Z.bits_0, Z.land_spec.
  destruct (Z.testbit a k) eqn:Ea; [|reflexivity].
  destruct (Z.testbit m k) eqn:Em; [|reflexivity]. exfalso.
  assert (Ho : Z.testbit (or_masks l) k = true).
  { clear Hz. induction Ha as [a l|a b l _ IH]; simpl; rewrite Z.lor_spec.
    - by rewrite Ea.
    - by rewrite IH, orb_true_r. }
  pose proof (land_zero_bits _ _ k Hz) as Hk. rewrite Em, Ho in Hk. discriminate.
Qed.

Lemma land_or_masks_all m l :
  (forall a, a ∈ l -> Z.land a m = 0) -> Z.land (or_masks l) m = 0.
Proof.
  intros Hall. induction l as [|a l IH]; simpl; [apply Z.land_0_l|].
  rewrite Z.land_lor_distr_l, Hall by constructor.
  rewrite IH; [reflexivity|]. intros b Hb. apply Hall. by constructor.
Qed.

Lemma pairwise_disjoint_snoc l m :
  pairwise_disjoint l -> Z.land m (or_masks l) = 0 -> pairwise_disjoint (l ++ [m]).
Proof.
  intros Hl Hm i j mi mj Hi Hj Hij.
  assert (Hel : forall a, a ∈ l -> Z.land a m = 0)
    by (intros a; apply land_or_masks_elem; assumption).
  apply lookup_snoc_Some in Hi as [[Hil Hi]|[Hil <-]];
    apply lookup_snoc_Some in Hj as [[Hjl Hj]|[Hjl <-]].
  - by apply (Hl i j).
  - apply Hel. by apply list_elem_of_lookup_2 in Hi.
  - rewrite Z.land_comm. apply Hel. by apply list_elem_of_lookup_2 in Hj.
  - lia.
Qed.

Lemma pairwise_disjoint_cons m l :
  pairwise_disjoint (m :: l) ->
  pairwise_disjoint l /\ forall a, a ∈ l -> Z.land a m = 0.
Proof.
  intros Hml. split.
  - intros i j mi mj Hi Hj Hij. apply (Hml (S i) (S j)); simpl; auto.
  - intros a Ha. apply list_elem_of_lookup_1 in Ha as [i Hi].
    apply (Hml (S i) 0%nat); simpl; auto.
Qed.

Lemma disjoint_tetrominoes l :
  pairwise_disjoint l -> Forall tetromino l ->
  on_board (or_masks l) /\ popcount (or_masks l) = 4 * Z.of_nat (length l).
Proof.
  induction l as [|m l IH]; intros Hd Ht.
  - split; [apply on_board_0 | reflexivity].
  - apply pairwise_disjoint_cons in Hd as [Hd Hm].
    apply Forall_cons in Ht as [[Hb Hc] Ht].
    destruct (IH Hd Ht) as [IHb IHc]. simpl. split.
    + by apply on_board_lor.
    + unfold popcount in *. rewrite weight_lor_disjoint, Hc, IHc; [lia|].
      rewrite Z.land_comm. by apply land_or_masks_all.
Qed.

Lemma blacks_lor_disjoint a b :
  Z.land a b = 0 ->
  Z.odd (blacks (Z.lor a b)) = xorb (Z.odd (blacks a)) (Z.odd (blacks b)).
Proof.
  intros Hab. unfold blacks. rewrite weight_lor_disjoint by assumption.
  apply Z.odd_add.
Qed.

(** ** Rules for outcomes and loops *)

Lemma triple_mono {A} (r : outcome A) (Q Q' : A -> Prop) (E E' : Z -> world -> Prop) :
  triple r Q E -> (forall a, Q a -> Q' a) -> (forall c s, E c s -> E' c s) ->
  triple r Q' E'.
Proof. destruct r; simpl; auto. Qed.

Lemma triple_post {A} (r : outcome A) (Q Q' : A -> Prop) (E : Z -> world -> Prop) :
  triple r Q E -> (forall a, Q a -> Q' a) -> triple r Q' E.
Proof. destruct r; simpl; auto. Qed.

Lemma triple_bind {A B} (m : outcome A) (k : A -> outcome B) Q R E :
  triple m Q E -> (forall a, Q a -> triple (k a) R E) -> triple (bind m k) R E.
Proof. destruct m; simpl; auto. Qed.

Lemma triple_for_each {A} (I : A -> Prop) E l (body : Z -> A -> outcome A) a :
  I a -> (forall i a, i ∈ l -> I a -> triple (body i a) I E) ->
  triple (for_each l body a) I E.
Proof.
  revert a. induction l as [|i l IH]; intros a Ha Hbody; simpl; [assumption|].
  apply triple_bind with (Q := I).
  - apply Hbody; [constructor | assumption].
  - intros a' Ha'. apply IH; [assumption|].
    intros j b Hj. apply Hbody. by constructor.
Qed.

Lemma triple_for_m {A} (I : A -> Prop) E lo n (body : Z -> A -> outcome A) a :
  I a -> (forall i a, lo <= i < lo + n -> I a -> triple (body i a) I E) ->
  triple (for_m lo n body a) I E.
Proof.
  intros Ha Hbody. apply triple_for_each; [assumption|].
  intros i b Hi. apply Hbody. by apply elem_of_seqZ.
Qed.

(** A loop one of whose iterations always exits does not return. *)
Lemma triple_for_each_exit {A} (I : A -> Prop) E l (body : Z -> A -> outcome A) a i0 :
  I a -> (forall i a, i ∈ l -> I a -> triple (body i a) I E) ->
  i0 ∈ l -> (forall a, I a -> triple (body i0 a) (fun _ => False) E) ->
  triple (for_each l body a) (fun _ => False) E.
Proof.
  intros Ha Hbody Hi0 Hexit. revert a Ha.
  induction l as [|i l IH]; intros a Ha; [by apply elem_of_nil in Hi0|].
  simpl. apply elem_of_cons in Hi0 as [<-|Hi0].
  - apply triple_bind with (Q := fun _ => False); [by apply Hexit | tauto].
  - apply triple_bind with (Q := I).
    + apply Hbody; [constructor | assumption].
    + intros a' Ha'. apply IH; [|assumption|assumption].
      intros j b Hj. apply Hbody. by constructor.
Qed.

(** ** [print_solution] and [found_solution] *)

Lemma printed_refl s : printed s s.
Proof. by repeat split. Qed.

Lemma printed_print t s s' : printed s s' -> printed s (print t s').
Proof. intros (?&?&?&?). by repeat split. Qed.

Lemma aborted_eprint s s' : printed s s' -> aborted s 1 (eprint diagnostic s').
Proof. intros (?&?&He&?). repeat split; simpl; try assumption. by rewrite He. Qed.

Lemma print_cell_for_each sol x y l found s :
  for_each l (fun i '(found, s) =>
    let mask := piece_mask (rd sol i) in
    if negb (Z.land mask (u32 (Z.shiftl 1 (u32 (x + u32 (W * y))))) =? 0) then
      if negb (found =? 0) then
        Exit 1 (eprint ("Internal error: overlapping pieces!" ++ nl) s)
      else Ok (1, print (pattern_char i) s)
    else Ok (found, s)) (found, s)
  = match filter (fun i => covers (piece_mask (rd sol i)) x y = true) l with
    | [] => Ok (found, s)
    | i :: rest =>
        if negb (found =? 0) then Exit 1 (eprint diagnostic s)
        else match rest with
             | [] => Ok (1, print (pattern_char i) s)
             | _ :: _ => Exit 1 (eprint diagnostic (print (pattern_char i) s))
             end
    end.
Proof.
  revert found s. induction l as [|i l IH]; intros found s; [reflexivity|].
  simpl. fold (covers (piece_mask (rd sol i)) x y).
  rewrite filter_cons. destruct (decide _) as [Hc|Hc].
  - rewrite Hc. destruct (negb (found =? 0)) eqn:Hf; [reflexivity|].
    simpl. rewrite IH.
    destruct (filter _ l); reflexivity.
  - apply not_true_is_false in Hc. rewrite Hc. simpl. apply IH.
Qed.

Lemma print_cell_spec sol sofar x y s :
  print_cell sol sofar x y (0, s)
  = match coverers sol sofar x y with
    | [] => Ok (0, s)
    | [i] => Ok (1, print (pattern_char i) s)
    | i :: _ :: _ => Exit 1 (eprint diagnostic (print (pattern_char i) s))
    end.
Proof.
  unfold print_cell, for_m, coverers. rewrite print_cell_for_each.
  destruct (filter _ _) as [|i [|j rest]]; reflexivity.
Qed.

Lemma coverers_overlapping sol sofar x y i j rest :
  0 <= x < W -> 0 <= y < H ->
  coverers sol sofar x y = i :: j :: rest -> overlapping sol sofar.
Proof.
  intros Hx Hy Hc.
  assert (Hi : i ∈ coverers sol sofar x y) by (rewrite Hc; constructor).
  assert (Hj : j ∈ coverers sol sofar x y) by (rewrite Hc; do 2 constructor).
  assert (Hnd : NoDup (coverers sol sofar x y)).
  { apply NoDup_filter, NoDup_seqZ. }
  rewrite Hc in Hnd. apply NoDup_cons in Hnd as [Hij _].
  assert (i <> j) by (intros ->; apply Hij; constructor).
  unfold coverers in Hi, Hj.
  apply list_elem_of_filter in Hi as [Hci Hi], Hj as [Hcj Hj].
  apply elem_of_seqZ in Hi, Hj.
  destruct (Z.lt_ge_cases i j).
  - exists i, j, x, y. repeat split; try assumption; lia.
  - exists j, i, x, y. repeat split; try assumption; lia.
Qed.

Lemma overlapping_coverers sol sofar i j x y :
  0 <= i < j -> j < sofar ->
  covers (piece_mask (rd sol i)) x y = true ->
  covers (piece_mask (rd sol j)) x y = true ->
  exists a b rest, coverers sol sofar x y = a :: b :: rest.
Proof.
  intros Hij Hj Hci Hcj.
  assert (Hi' : i ∈ coverers sol sofar x y).
  { apply list_elem_of_filter. split; [assumption|]. apply elem_of_seqZ. lia. }
  assert (Hj' : j ∈ coverers sol sofar x y).
  { apply list_elem_of_filter. split; [assumption|]. apply elem_of_seqZ. lia. }
  destruct (coverers sol sofar x y) as [|a [|b rest]].
  - by apply elem_of_nil in Hi'.
  - apply list_elem_of_singleton in Hi', Hj'. lia.
  - eauto.
Qed.

(** The body of the loop over [x] in [print_solution]. *)
Lemma print_cell_body sol sofar x y s0 s :
  0 <= x < W -> 0 <= y < H -> printed s0 s ->
  triple (do '(found, s) <- print_cell sol sofar x y (0, s);
          if found =? 0 then Ok (print " " s) else Ok s)
         (fun s' => printed s0 s' /\ ~ (exists a b rest, coverers sol sofar x y = a :: b :: rest))
         (fun c s' => aborted s0 c s' /\ overlapping sol sofar).
Proof.
  intros Hx Hy Hs. rewrite print_cell_spec.
  destruct (coverers sol sofar x y) as [|i [|j rest]] eqn:Hc; simpl.
  - split; [by apply printed_print|]. intros (?&?&?&?). discriminate.
  - split; [by apply printed_print|]. intros (?&?&?&?). discriminate.
  - split; [by apply aborted_eprint, printed_print|].
    by eapply coverers_overlapping.
Qed.

Lemma print_solution_frame sol sofar s :
  triple (print_solution sol sofar s) (printed s)
         (fun c s' => aborted s c s' /\ overlapping sol sofar).
Proof.
  unfold print_solution.
  eapply triple_bind with (Q := printed s); [|intros s1 Hs1; by apply printed_print].
  apply triple_for_m; [apply printed_refl|]. intros y s1 Hy Hs1.
  eapply triple_bind with (Q := printed s); [|intros s2 Hs2; by apply printed_print].
  apply triple_for_m; [assumption|]. intros x s2 Hx Hs2.
  eapply triple_mono; [apply (print_cell_body sol sofar x y s s2); unfold W, H in *; lia || assumption| |];
    simpl; tauto.
Qed.

Lemma print_solution_overlapping sol sofar s :
  overlapping sol sofar ->
  triple (print_solution sol sofar s) (fun _ => False)
         (fun c s' => aborted s c s' /\ overlapping sol sofar).
Proof.
  intros Hov. pose proof Hov as (i & j & x0 & y0 & Hij & Hj & Hx0 & Hy0 & Hci & Hcj).
  destruct (overlapping_coverers sol sofar i j x0 y0 Hij Hj Hci Hcj) as (a & b & rest & Hc).
  unfold print_solution.
  eapply triple_bind with (Q := fun _ => False); [|tauto].
  unfold for_m. eapply triple_for_each_exit with (I := printed s) (i0 := y0).
  - apply printed_refl.
  - intros y s1 Hy Hs1. apply elem_of_seqZ in Hy.
    eapply triple_bind with (Q := printed s); [|intros s2 Hs2; by apply printed_print].
    apply triple_for_m; [assumption|]. intros x s2 Hx Hs2.
    eapply triple_mono;
      [apply (print_cell_body sol sofar x y s s2); unfold W, H in *; lia || assumption| |];
      simpl; tauto.
  - apply elem_of_seqZ. unfold H in *. lia.
  - intros s1 Hs1. eapply triple_bind with (Q := fun _ => False); [|tauto].
    eapply triple_for_each_exit with (I := printed s) (i0 := x0).
    + assumption.
    + intros x s2 Hx Hs2. apply elem_of_seqZ in Hx.
      eapply triple_mono;
        [apply (print_cell_body sol sofar x y0 s s2); unfold W, H in *; lia || assumption| |];
        simpl; tauto.
    + apply elem_of_seqZ. unfold W in *. lia.
    + intros s2 Hs2. rewrite print_cell_spec, Hc. simpl.
      split; [by apply aborted_eprint, printed_print | assumption].
Qed.

(** [print_solution] exits exactly when two masks cover one cell. *)
Lemma print_solution_spec sol sofar s :
  triple (print_solution sol sofar s)
         (fun s' => printed s s' /\ ~ overlapping sol sofar)
         (fun c s' => aborted s c s' /\ overlapping sol sofar).
Proof.
  pose proof (print_solution_frame sol sofar s) as Hf.
  destruct (print_solution sol sofar s) as [s'| |] eqn:Hr; simpl in *; try assumption.
  split; [assumption|]. intros Hov.
  pose proof (print_solution_overlapping sol sofar s Hov) as Ho.
  rewrite Hr in Ho. exact Ho.
Qed.

(** Disjoint masks do not overlap on any cell. *)
Lemma pairwise_disjoint_not_overlapping sol sofar :
  sofar <= Z.of_nat (length sol) ->
  pairwise_disjoint (masks sol) -> ~ overlapping sol sofar.
Proof.
  intros Hlen Hd (i & j & x & y & Hij & Hj & _ & _ & Hci & Hcj).
  assert (Hi' : masks sol !! Z.to_nat i = Some (piece_mask (rd sol i))).
  { unfold masks, rd. rewrite list_lookup_fmap, list_lookup_lookup_total_lt; [reflexivity|lia]. }
  assert (Hj' : masks sol !! Z.to_nat j = Some (piece_mask (rd sol j))).
  { unfold masks, rd. rewrite list_lookup_fmap, list_lookup_lookup_total_lt; [reflexivity|lia]. }
  assert (Hz : Z.land (piece_mask (rd sol i)) (piece_mask (rd sol j)) = 0).
  { apply (Hd _ _ _ _ Hi' Hj'). lia. }
  unfold covers in Hci, Hcj.
  set (b := u32 (Z.shiftl 1 (u32 (x + u32 (W * y))))) in *.
  apply negb_true_iff, Z.eqb_neq in Hci, Hcj.
  apply Hci. apply Z.bits_inj'. intros k _. rewrite Z.bits_0, Z.land_spec.
  destruct (Z.testbit (piece_mask (rd sol i)) k) eqn:Ei; [|reflexivity].
  destruct (Z.testbit b k) eqn:Eb; [|reflexivity]. exfalso.
  (* [b] has at most one bit, so [sol[j]] has the bit [k] too *)
  assert (Hone : forall k', Z.testbit b k' = true -> k' = k).
  { intros k' Hk'. unfold b, u32 in Hk', Eb.
    rewrite Z.testbit_mod_pow2, andb_true_iff in Hk', Eb by lia.
    destruct Hk' as [_ Hk'], Eb as [_ Eb].
    assert (Hs : 0 <= (x + (W * y) mod 2 ^ 32) mod 2 ^ 32)
      by (apply Z.mod_pos_bound; lia).
    rewrite Z.shiftl_1_l, Z.pow2_bits_eqb in Hk', Eb by lia.
    apply Z.eqb_eq in Hk', Eb. lia. }
  apply Hcj. apply Z.bits_inj'. intros k' _. rewrite Z.bits_0, Z.land_spec.
  destruct (Z.testbit b k') eqn:Eb'; [|apply andb_false_r].
  apply Hone in Eb' as ->.
  pose proof (land_zero_bits _ _ k Hz) as Hk. rewrite Ei in Hk. simpl in Hk.
  by rewrite Hk.
Qed.

Lemma found_solution_frame s :
  triple (found_solution s)
         (fun s' => pieces_available s' = pieces_available s /\
                    solution s' = solution s /\ err s' = err s /\
                    calls s' = calls s ++ [Found (solution s)])
         (abort_report s).
Proof.
  unfold found_solution. set (s0 := print _ (record _ s)).
  pose proof (print_solution_spec (solution s0) NUM_PIECES s0) as Hf.
  destruct (print_solution (solution s0) NUM_PIECES s0) as [s'|c s'|];
    simpl in *; [| |assumption].
  - by destruct Hf as [(Hp & Hs & He & Hc) _].
  - by destruct Hf as [(-> & He & Hp & Hs & Hc) Hov].
Qed.

(** ** Arrays *)

Lemma Forall_elem {A} (P : A -> Prop) (l : list A) (x : A) :
  Forall P l -> x ∈ l -> P x.
Proof. intros Hl. by apply Forall_forall. Qed.

Lemma wr_restore {A} `{Inhabited A} (l : list A) (i : Z) (v : A) :
  wr (wr l i v) i (rd l i) = l.
Proof.
  unfold wr, rd. rewrite list_insert_insert_eq.
  apply list_insert_id'. intros Hi. by apply list_lookup_lookup_total_lt.
Qed.

Lemma rd_wr_eq {A} `{Inhabited A} (l : list A) (i : Z) (v : A) :
  (Z.to_nat i < length l)%nat -> rd (wr l i v) i = v.
Proof. intros Hi. unfold rd, wr. by rewrite list_lookup_total_insert_eq. Qed.

Lemma rd_wr_ne {A} `{Inhabited A} (l : list A) (i j : Z) (v : A) :
  0 <= i -> 0 <= j -> i <> j -> rd (wr l i v) j = rd l j.
Proof.
  intros Hi Hj Hij. unfold rd, wr. rewrite list_lookup_total_insert_ne; [reflexivity|lia].
Qed.

Lemma rd_elem {A} `{Inhabited A} (l : list A) (i : Z) :
  (Z.to_nat i < length l)%nat -> rd l i ∈ l.
Proof. apply list_elem_of_lookup_total_2. Qed.

Lemma rd_zip_with {A B C} `{Inhabited A, Inhabited B, Inhabited C}
    (f : A -> B -> C) (l : list A) (k : list B) (i : Z) :
  (Z.to_nat i < length l)%nat -> (Z.to_nat i < length k)%nat ->
  rd (zip_with f l k) i = f (rd l i) (rd k i).
Proof.
  intros Hl Hk. unfold rd. apply list_lookup_total_correct.
  rewrite lookup_zip_with.
  rewrite (list_lookup_lookup_total_lt l), (list_lookup_lookup_total_lt k) by assumption.
  reflexivity.
Qed.

Lemma masks_take_wr (sol : list placement) (iter m : Z) :
  0 <= iter -> (Z.to_nat iter < length sol)%nat ->
  masks (take (Z.to_nat (iter + 1)) (wr sol iter (mk_placement m)))
  = masks (take (Z.to_nat iter) sol) ++ [m].
Proof.
  intros Hi Hlen. unfold masks, wr.
  replace (Z.to_nat (iter + 1)) with (S (Z.to_nat iter)) by lia.
  rewrite (take_S_r _ _ (mk_placement m)) by (by apply list_lookup_insert_eq).
  by rewrite take_insert_ge, fmap_app by lia.
Qed.

(** The mask the loops of [try_orientation] compute at [(j, y, x)] is one of
    the placements of the piece. *)
Lemma placement_elem p j y x :
  0 <= j < po_n p ->
  0 <= y < u32 (H - rd (po_h p) j) + 1 ->
  0 <= x < u32 (W - rd (po_w p) j) + 1 ->
  u32 (Z.shiftl (rd (po_masks p) j) (u32 (x + u32 (W * y)))) ∈ placements p.
Proof.
  intros Hj Hy Hx. unfold placements. apply list_elem_of_bind.
  exists (rd (po_masks p) j, rd (po_w p) j, rd (po_h p) j). split.
  - unfold placements_of. apply list_elem_of_bind. exists y. split.
    + apply list_elem_of_bind. exists x. split; [constructor|].
      apply elem_of_seqZ. lia.
    + apply elem_of_seqZ. lia.
  - unfold orientations. apply list_elem_of_fmap. exists j. split; [reflexivity|].
    apply elem_of_seqZ. lia.
Qed.

(** ** Splitting a loop at one iteration *)

Lemma bind_ok {A B} (m : outcome A) (k : A -> outcome B) b :
  bind m k = Ok b -> exists a, m = Ok a /\ k a = Ok b.
Proof. destruct m; simpl; try discriminate. eauto. Qed.

(** A loop that returns has run the iteration [a], from a state [s1] the
    earlier iterations left to a state [s2] the later ones started from. *)
Lemma for_each_split {A} (R : A -> A -> Prop) E l (body : Z -> A -> outcome A) a s s' :
  (forall x, R x x) -> (forall x y z, R x y -> R y z -> R x z) ->
  (forall i b, i ∈ l -> R s b -> triple (body i b) (R b) E) ->
  a ∈ l -> for_each l body s = Ok s' ->
  exists s1 s2, R s s1 /\ body a s1 = Ok s2 /\ R s2 s'.
Proof.
  intros Hrefl Htrans. revert s.
  induction l as [|i l IH]; intros s Hbody Ha Hr; [by apply elem_of_nil in Ha|].
  simpl in Hr. apply bind_ok in Hr as (t & Hi & Hrest).
  assert (Hst : R s t).
  { pose proof (Hbody i s ltac:(constructor) (Hrefl s)) as Ht. by rewrite Hi in Ht. }
  assert (Hbody' : forall j b, j ∈ l -> R t b -> triple (body j b) (R b) E).
  { intros j b Hj Hb. apply Hbody; [by constructor | by eapply Htrans]. }
  apply elem_of_cons in Ha as [->|Ha].
  - exists s, t. repeat split; [apply Hrefl | assumption |].
    assert (Hl : triple (for_each l body t) (R t) E).
    { apply triple_for_each; [apply Hrefl|]. intros j b Hj Hb.
      eapply triple_post; [by apply Hbody'|]. intros c Hc. by eapply Htrans. }
    by rewrite Hrest in Hl.
  - destruct (IH t Hbody' Ha Hrest) as (s1 & s2 & H1 & H2 & H3).
    exists s1, s2. repeat split; try assumption. by eapply Htrans.
Qed.

(** ** The search preserves the invariants of its branches *)

Section search.

(** [Inv iter state pa pre]: what holds on entry to [recurse (iter, state)]
    when the pool is [pa] and the masks placed so far are [pre]. *)
Variable Inv : Z -> Z -> list piece_orientations -> list Z -> Prop.

(** What holds when the process exits. *)
Variable E : Z -> world -> Prop.

Hypothesis Inv_range :
  forall iter state pa pre, Inv iter state pa pre -> 0 <= iter <= NUM_PIECES.

Hypothesis Inv_place :
  forall iter state pa pre i pm,
    Inv iter state pa pre -> iter <= i < NUM_PIECES ->
    pm ∈ placements (rd pa i) -> Z.land pm state = 0 ->
    Inv (iter + 1) (Z.lor state pm) (wr pa i (rd pa 0)) (pre ++ [pm]).

Hypothesis Inv_report :
  forall state s c s',
    Inv NUM_PIECES state (pieces_available s) (masks (solution s)) ->
    found_solution s = Exit c s' -> E c s'.

Lemma searched_refl iter s : searched Inv iter s s.
Proof.
  repeat split. exists []. split; [by rewrite app_nil_r | constructor].
Qed.

Lemma searched_trans iter s1 s2 s3 :
  searched Inv iter s1 s2 -> searched Inv iter s2 s3 -> searched Inv iter s1 s3.
Proof.
  intros (Hp1 & Ht1 & Hl1 & He1 & evs1 & Hc1 & Hf1)
         (Hp2 & Ht2 & Hl2 & He2 & evs2 & Hc2 & Hf2).
  repeat split; try congruence.
  exists (evs1 ++ evs2). split; [by rewrite Hc2, Hc1, app_assoc|].
  by apply Forall_app.
Qed.

Lemma searched_deeper iter s s' :
  0 <= iter -> searched Inv (iter + 1) s s' ->
  take (Z.to_nat iter) (solution s') = take (Z.to_nat iter) (solution s).
Proof.
  intros Hi (_ & Ht & _).
  assert (Hmin : (Z.to_nat iter `min` Z.to_nat (iter + 1))%nat = Z.to_nat iter) by lia.
  rewrite <- Hmin, <- !take_take. by rewrite Ht.
Qed.

Section depth.

(** The specification the recursive call is assumed to meet one level
    down. *)
Variable rec : Z -> Z -> world -> outcome world.

Variable iter : Z.

Hypothesis rec_spec :
  forall state s,
    Inv (iter + 1) state (pieces_available s)
        (masks (take (Z.to_nat (iter + 1)) (solution s))) ->
    Z.of_nat (length (solution s)) = NUM_PIECES ->
    triple (rec (iter + 1) state s) (searched Inv (iter + 1) s) E.

Lemma try_place_spec state pa i p j x y s :
  Inv iter state pa (masks (take (Z.to_nat iter) (solution s))) ->
  iter < NUM_PIECES -> iter <= i < NUM_PIECES ->
  p = rd pa i -> pieces_available s = wr pa i (rd pa 0) ->
  Z.of_nat (length (solution s)) = NUM_PIECES ->
  0 <= j < po_n p ->
  0 <= y < u32 (H - rd (po_h p) j) + 1 ->
  0 <= x < u32 (W - rd (po_w p) j) + 1 ->
  triple (try_place rec iter state (rd (po_masks p) j) x y s) (searched Inv iter s) E.
Proof.
  intros HI Hlt Hi -> Hpa Hlen Hj Hy Hx. unfold try_place.
  pose proof (Inv_range _ _ _ _ HI) as Hr.
  set (pm := u32 (Z.shiftl _ _)).
  destruct (Z.eqb_spec (Z.land pm state) 0) as [Hz|Hnz]; simpl;
    [|apply searched_refl].
  assert (Hu : u32 (iter + 1) = iter + 1).
  { unfold u32. apply Z.mod_small. unfold NUM_PIECES in *. lia. }
  rewrite Hu.
  set (s1 := set_solution _ s).
  eapply triple_post; [apply rec_spec | ].
  - simpl. rewrite masks_take_wr by (unfold NUM_PIECES in *; lia).
    rewrite Hpa. apply Inv_place; try assumption.
    by apply placement_elem.
  - simpl. unfold wr. by rewrite length_insert.
  - intros s' Hs'. pose proof (searched_deeper _ _ _ (proj1 Hr) Hs') as Ht.
    destruct Hs' as (Hp & _ & Hl & He & Hev).
    repeat split; try assumption.
    + rewrite Ht. simpl. unfold wr. apply take_insert_ge. lia.
    + rewrite Hl. simpl. unfold wr. apply length_insert.
Qed.

Lemma try_orientation_spec state pa i p j s :
  Inv iter state pa (masks (take (Z.to_nat iter) (solution s))) ->
  iter < NUM_PIECES -> iter <= i < NUM_PIECES ->
  p = rd pa i -> pieces_available s = wr pa i (rd pa 0) ->
  Z.of_nat (length (solution s)) = NUM_PIECES ->
  0 <= j < po_n p ->
  triple (try_orientation rec iter state p j s) (searched Inv iter s) E.
Proof.
  intros HI Hlt Hi Hp Hpa Hlen Hj. unfold try_orientation.
  apply triple_for_m; [apply searched_refl|]. intros y s1 Hy Hs1.
  apply triple_post with (Q := searched Inv iter s1); [|intros s2; by apply searched_trans].
  apply triple_for_m; [apply searched_refl|]. intros x s2 Hx Hs2.
  apply triple_post with (Q := searched Inv iter s2); [|intros s3; by apply searched_trans].
  pose proof (searched_trans _ _ _ _ Hs1 Hs2) as (Hp2 & Ht2 & Hl2 & _).
  apply try_place_spec with (pa := pa) (i := i); try assumption; try lia.
  - by rewrite Ht2.
  - by rewrite Hp2.
Qed.

Lemma try_slot_spec state i s :
  Inv iter state (pieces_available s) (masks (take (Z.to_nat iter) (solution s))) ->
  iter < NUM_PIECES -> iter <= i < NUM_PIECES ->
  Z.of_nat (length (solution s)) = NUM_PIECES ->
  triple (try_slot rec iter state i s) (searched Inv iter s) E.
Proof.
  intros HI Hlt Hi Hlen. unfold try_slot.
  set (pa := pieces_available s). set (p := rd pa i).
  set (s0 := set_pieces_available _ s).
  eapply triple_bind with (Q := searched Inv iter s0).
  - apply triple_for_m; [apply searched_refl|]. intros j s1 Hj Hs1.
    apply triple_post with (Q := searched Inv iter s1); [|intros s2; by apply searched_trans].
    destruct Hs1 as (Hp1 & Ht1 & Hl1 & _).
    eapply try_orientation_spec with (pa := pa) (i := i); try eassumption; try lia.
    + by rewrite Ht1.
    + reflexivity.
    + by rewrite Hl1.
  - intros s1 (Hp1 & Ht1 & Hl1 & He1 & Hev1). simpl.
    repeat split; try assumption.
    rewrite Hp1. simpl. apply wr_restore.
Qed.

End depth.

Lemma found_solution_spec state s :
  Inv NUM_PIECES state (pieces_available s) (masks (solution s)) ->
  triple (found_solution s) (searched Inv NUM_PIECES s) E.
Proof.
  intros HI. pose proof (found_solution_frame s) as Hf.
  destruct (found_solution s) as [s'|c s'|] eqn:Hr; simpl in *; [| |assumption].
  - destruct Hf as (Hp & Hs & He & Hc). repeat split; try assumption.
    + by rewrite Hs.
    + by rewrite Hs.
    + exists [Found (solution s)]. split; [assumption|].
      repeat constructor. by exists state, (pieces_available s).
  - eapply Inv_report; [exact HI | exact Hr].
Qed.

(** The specification of [recurse]: with fuel for the remaining depth it
    returns unless [print_solution] exits, it leaves the pool, the masks
    below [iter] and the error stream as they were, and every call it
    makes satisfies the invariant. *)
Theorem recurse_spec fuel : forall iter state s,
  Inv iter state (pieces_available s) (masks (take (Z.to_nat iter) (solution s))) ->
  Z.of_nat (length (solution s)) = NUM_PIECES ->
  NUM_PIECES - iter <= Z.of_nat fuel ->
  triple (recurse fuel iter state s) (searched Inv iter s) E.
Proof.
  induction fuel as [|fuel IH]; intros iter state s HI Hlen Hfuel;
    pose proof (Inv_range _ _ _ _ HI) as Hr; simpl;
    set (s0 := record _ s);
    assert (Hs0 : searched Inv iter s s0)
      by (repeat split; exists [Recurse iter state (pieces_available s) (solution s)];
          split; [reflexivity | by repeat constructor]);
    (destruct (Z.eqb_spec iter NUM_PIECES) as [->|Hne];
     [ apply triple_post with (Q := searched Inv NUM_PIECES s0);
         [apply found_solution_spec with (state := state)
         |intros s'; by apply searched_trans];
       simpl; rewrite take_ge in HI by (unfold NUM_PIECES in *; lia); exact HI
     |]).
  - lia.
  - apply triple_post with (Q := searched Inv iter s0); [|intros s'; by apply searched_trans].
    apply triple_for_m; [apply searched_refl|]. intros i s1 Hi Hs1.
    apply triple_post with (Q := searched Inv iter s1); [|intros s2; by apply searched_trans].
    destruct Hs1 as (Hp1 & Ht1 & Hl1 & _).
    apply try_slot_spec; try lia.
    + intros state' s' HI' Hlen'. apply IH; [assumption|assumption|lia].
    + rewrite Hp1, Ht1. exact HI.
    + rewrite Hl1. exact Hlen.
Qed.

Corollary try_slot_recurse_spec fuel iter state i s :
  Inv iter state (pieces_available s) (masks (take (Z.to_nat iter) (solution s))) ->
  iter <= i < NUM_PIECES ->
  Z.of_nat (length (solution s)) = NUM_PIECES ->
  NUM_PIECES - iter <= Z.of_nat (S fuel) ->
  triple (try_slot (recurse fuel) iter state i s) (searched Inv iter s) E.
Proof.
  intros HI Hi Hlen Hfuel. apply try_slot_spec; try assumption; try lia.
  intros state' s' HI' Hlen'. apply recurse_spec; [assumption|assumption|lia].
Qed.

(** [recurse] begins by recording its call. *)
Lemma recurse_records fuel iter state s s' :
  Inv iter state (pieces_available s) (masks (take (Z.to_nat iter) (solution s))) ->
  Z.of_nat (length (solution s)) = NUM_PIECES ->
  NUM_PIECES - iter <= Z.of_nat fuel ->
  recurse fuel iter state s = Ok s' ->
  exists evs,
    calls s' = calls s ++ Recurse iter state (pieces_available s) (solution s) :: evs.
Proof.
  intros HI Hlen Hfuel Hr. pose proof (Inv_range _ _ _ _ HI) as Hrange.
  assert (Hu : recurse fuel iter state s =
               let s0 := record (Recurse iter state (pieces_available s) (solution s)) s in
               if iter =? NUM_PIECES then found_solution s0
               else for_m iter (NUM_PIECES - iter)
                      (try_slot (match fuel with
                                 | O => fun _ _ _ => OutOfFuel
                                 | S fuel => recurse fuel
                                 end) iter state) s0)
    by (destruct fuel; reflexivity).
  rewrite Hu in Hr. clear Hu. cbv zeta in Hr.
  set (s0 := record _ s) in Hr.
  assert (Hs0 : triple (Ok s') (searched Inv iter s0) E).
  { rewrite <- Hr. destruct (Z.eqb_spec iter NUM_PIECES) as [->|Hne].
    - apply (found_solution_spec state).
      simpl. rewrite take_ge in HI by (unfold NUM_PIECES in *; lia). exact HI.
    - destruct fuel as [|fuel]; [lia|].
      apply triple_for_m; [apply searched_refl|]. intros i s1 Hi Hs1.
      apply triple_post with (Q := searched Inv iter s1);
        [|intros s2; by apply searched_trans].
      destruct Hs1 as (Hp1 & Ht1 & Hl1 & _).
      apply try_slot_recurse_spec; try lia.
      + rewrite Hp1, Ht1. exact HI.
      + rewrite Hl1. exact Hlen. }
  destruct Hs0 as (_ & _ & _ & _ & evs & Hc & _). exists evs.
  rewrite Hc. simpl. by rewrite <- app_assoc.
Qed.

(** A call that returns has made the recursive call for every placement
    that fits, in a world [s1] with the slot taken and the masks below
    [iter] as they were; what it recorded stays in the history. *)
Lemma recurse_path fuel iter state pa i j y x s s' :
  pieces_available s = pa ->
  Inv iter state pa (masks (take (Z.to_nat iter) (solution s))) ->
  Z.of_nat (length (solution s)) = NUM_PIECES ->
  NUM_PIECES - iter <= Z.of_nat (S fuel) ->
  iter <= i < NUM_PIECES ->
  0 <= j < po_n (rd pa i) ->
  0 <= y < u32 (H - rd (po_h (rd pa i)) j) + 1 ->
  0 <= x < u32 (W - rd (po_w (rd pa i)) j) + 1 ->
  Z.land (u32 (Z.shiftl (rd (po_masks (rd pa i)) j) (u32 (x + u32 (W * y))))) state = 0 ->
  recurse (S fuel) iter state s = Ok s' ->
  exists s1 s2,
    pieces_available s1 = wr pa i (rd pa 0) /\
    take (Z.to_nat iter) (solution s1) = take (Z.to_nat iter) (solution s) /\
    length (solution s1) = length (solution s) /\
    recurse fuel (iter + 1)
      (Z.lor state (u32 (Z.shiftl (rd (po_masks (rd pa i)) j) (u32 (x + u32 (W * y))))))
      (set_solution
         (wr (solution s1) iter
             (mk_placement (u32 (Z.shiftl (rd (po_masks (rd pa i)) j)
                                          (u32 (x + u32 (W * y)))))))
         s1) = Ok s2 /\
    exists evs, calls s' = calls s2 ++ evs.
Proof.
  intros <- HI Hlen Hfuel Hi Hj Hy Hx Hfit Hr.
  pose proof (Inv_range _ _ _ _ HI) as Hrange.
  set (p := rd (pieces_available s) i) in *.
  set (pm := u32 (Z.shiftl _ _)) in *.
  assert (Hlt : iter < NUM_PIECES) by lia.
  assert (Hrec : forall state' s0,
            Inv (iter + 1) state' (pieces_available s0)
                (masks (take (Z.to_nat (iter + 1)) (solution s0))) ->
            Z.of_nat (length (solution s0)) = NUM_PIECES ->
            triple (recurse fuel (iter + 1) state' s0) (searched Inv (iter + 1) s0) E).
  { intros state' s0 HI' Hlen'.
    apply recurse_spec; [assumption|assumption|lia]. }
  simpl in Hr. set (s0 := record _ s) in Hr.
  destruct (Z.eqb_spec iter NUM_PIECES) as [->|_]; [lia|].
  (* the iteration for the slot [i] *)
  apply (for_each_split (searched Inv iter) E) with (a := i) in Hr
    as (sa & sb & Hsa & Hslot & Hsb);
    [|apply searched_refl|apply searched_trans| |apply elem_of_seqZ; lia].
  2:{ intros i' b Hi' (Hp1 & Ht1 & Hl1 & _). apply elem_of_seqZ in Hi'.
      apply try_slot_recurse_spec; try lia.
      - rewrite Hp1, Ht1. exact HI.
      - rewrite Hl1. exact Hlen. }
  destruct Hsa as (Hpa & Hta & Hla & _). simpl in Hpa, Hta, Hla.
  unfold try_slot in Hslot. rewrite Hpa in Hslot. fold p in Hslot.
  set (sa0 := set_pieces_available _ sa) in Hslot.
  apply bind_ok in Hslot as (t & Hloop & Hrestore).
  assert (Hsbt : calls sb = calls t) by (by injection Hrestore as <-).
  (* the iteration for the orientation [j] *)
  apply (for_each_split (searched Inv iter) E) with (a := j) in Hloop
    as (s1 & s2 & Hs1 & Hor & Hs2);
    [|apply searched_refl|apply searched_trans| |apply elem_of_seqZ; lia].
  2:{ intros j' b Hj' (Hp1 & Ht1 & Hl1 & _). apply elem_of_seqZ in Hj'.
      apply (try_orientation_spec (recurse fuel) iter Hrec
               state (pieces_available s) i p); try assumption; try reflexivity; try lia.
      - rewrite Ht1. simpl. rewrite Hta. exact HI.
      - rewrite Hl1. simpl. lia. }
  unfold try_orientation in Hor.
  (* the iteration for the row [y] *)
  apply (for_each_split (searched Inv iter) E) with (a := y) in Hor
    as (s3 & s4 & Hs3 & Hrow & Hs4);
    [|apply searched_refl|apply searched_trans| |apply elem_of_seqZ; lia].
  2:{ intros y' b Hy' Hb. apply elem_of_seqZ in Hy'.
      pose proof (searched_trans _ _ _ _ Hs1 Hb) as (Hp1 & Ht1 & Hl1 & _).
      apply triple_for_m; [apply searched_refl|]. intros x' c Hx' Hc.
      apply triple_post with (Q := searched Inv iter c);
        [|intros c'; by apply searched_trans].
      destruct Hc as (Hp2 & Ht2 & Hl2 & _).
      apply (try_place_spec (recurse fuel) iter Hrec
               state (pieces_available s) i p); try assumption; try reflexivity; try lia.
      - rewrite Ht2, Ht1. simpl. rewrite Hta. exact HI.
      - by rewrite Hp2, Hp1.
      - rewrite Hl2, Hl1. simpl. lia. }
  (* the iteration for the column [x] *)
  apply (for_each_split (searched Inv iter) E) with (a := x) in Hrow
    as (s5 & s6 & Hs5 & Hplace & Hs6);
    [|apply searched_refl|apply searched_trans| |apply elem_of_seqZ; lia].
  2:{ intros x' c Hx' Hc. apply elem_of_seqZ in Hx'.
      pose proof (searched_trans _ _ _ _ Hs1 (searched_trans _ _ _ _ Hs3 Hc))
        as (Hp2 & Ht2 & Hl2 & _).
      apply (try_place_spec (recurse fuel) iter Hrec
               state (pieces_available s) i p); try assumption; try reflexivity; try lia.
      - rewrite Ht2. simpl. rewrite Hta. exact HI.
      - rewrite Hl2. simpl. lia. }
  unfold try_place in Hplace. fold pm in Hplace. rewrite Hfit in Hplace. simpl in Hplace.
  assert (Hu : u32 (iter + 1) = iter + 1)
    by (apply u32_small; unfold NUM_PIECES in *; lia).
  rewrite Hu in Hplace.
  pose proof (searched_trans _ _ _ _ Hs1 (searched_trans _ _ _ _ Hs3 Hs5))
    as (Hp5 & Ht5 & Hl5 & _). simpl in Hp5, Ht5, Hl5.
  exists s5, s6. repeat split.
  - exact Hp5.
  - by rewrite Ht5, Hta.
  - by rewrite Hl5, Hla.
  - exact Hplace.
  - pose proof (searched_trans _ _ _ _ Hs6 (searched_trans _ _ _ _ Hs4 Hs2))
      as (_ & _ & _ & _ & evs & Hc & _).
    destruct Hsb as (_ & _ & _ & _ & evs' & Hc' & _).
    exists (evs ++ evs'). by rewrite Hc', Hsbt, Hc, app_assoc.
Qed.

End search.

(** ** The invariant of a tiling *)

Lemma tiling_inv_range iter state pa pre :
  tiling_inv iter state pa pre -> 0 <= iter <= NUM_PIECES.
Proof. by intros [? _]. Qed.

Lemma tiling_inv_state iter state pa pre :
  tiling_inv iter state pa pre -> on_board state /\ popcount state = 4 * iter.
Proof.
  intros (_ & _ & _ & Hlen & -> & Hd & Ht). rewrite <- Hlen.
  by apply disjoint_tetrominoes.
Qed.

Lemma tiling_inv_place iter state pa pre i pm :
  tiling_inv iter state pa pre -> iter <= i < NUM_PIECES ->
  pm ∈ placements (rd pa i) -> Z.land pm state = 0 ->
  tiling_inv (iter + 1) (Z.lor state pm) (wr pa i (rd pa 0)) (pre ++ [pm]).
Proof.
  intros (Hr & Hpa & Hfit & Hlen & Hst & Hd & Ht) Hi Hpm Hz.
  assert (Hin : forall k, 0 <= k < NUM_PIECES -> piece_fits (rd pa k)).
  { intros k Hk. apply (Forall_elem _ _ _ Hfit).
    apply rd_elem. unfold NUM_PIECES in *. lia. }
  assert (Htet : tetromino pm).
  { apply (Forall_elem _ (placements (rd pa i))); [apply Hin; lia | exact Hpm]. }
  unfold tiling_inv, NUM_PIECES. repeat split; try (unfold NUM_PIECES in *; lia).
  - unfold wr. by rewrite length_insert.
  - apply Forall_insert; [assumption | apply Hin; lia].
  - rewrite length_app. simpl. lia.
  - by rewrite or_masks_snoc, Hst.
  - apply pairwise_disjoint_snoc; [assumption | by rewrite <- Hst].
  - apply Forall_app. split; [assumption | constructor; [assumption | constructor]].
Qed.

Lemma tiling_inv_full state pa pre :
  tiling_inv NUM_PIECES state pa pre -> state = full_board.
Proof.
  intros HI. apply tiling_inv_state in HI as [Hb Hc]. by apply popcount_full.
Qed.

(** ** The colouring argument *)

Lemma parity_inv_place iter state pa pre i pm :
  parity_inv iter state pa pre -> iter <= i < NUM_PIECES ->
  pm ∈ placements (rd pa i) -> Z.land pm state = 0 ->
  parity_inv (iter + 1) (Z.lor state pm) (wr pa i (rd pa 0)) (pre ++ [pm]).
Proof.
  intros (HT & H0 & Hmid & H6) Hi Hpm Hz.
  pose proof HT as (Hr & Hpa & _).
  split; [by apply tiling_inv_place|].
  assert (Hlen : forall k, 0 <= k < NUM_PIECES -> (Z.to_nat k < length pa)%nat)
    by (unfold NUM_PIECES; lia).
  assert (Hrd : forall k, 0 <= k < NUM_PIECES ->
            rd (wr pa i (rd pa 0)) k = if decide (k = i) then rd pa 0 else rd pa k).
  { intros k Hk. destruct (decide (k = i)) as [->|Hne].
    - apply rd_wr_eq, Hlen. lia.
    - apply rd_wr_ne; lia. }
  assert (Hxor : Z.odd (blacks (Z.lor state pm))
                 = xorb (Z.odd (blacks state)) (Z.odd (blacks pm))).
  { apply blacks_lor_disjoint. by rewrite Z.land_comm. }
  unfold NUM_PIECES in *. repeat split.
  - rewrite Hrd by lia. by destruct (decide _).
  - intros k Hk. rewrite Hrd by lia. destruct (decide _); [assumption | apply Hmid; lia].
  - rewrite Hrd by lia. rewrite Hxor. destruct (decide (6 = i)) as [<-|Hne].
    + right. split; [assumption|].
      destruct H6 as [(Hodd & _ & Hst)|(Hev & Hst)]; rewrite Hst.
      * by rewrite (Forall_elem _ _ _ Hodd Hpm).
      * by rewrite (Forall_elem _ _ _ Hev Hpm).
    + assert (Hpe : Z.odd (blacks pm) = false).
      { apply (Forall_elem _ _ _ (Hmid i ltac:(lia)) Hpm). }
      rewrite Hpe, xorb_false_r.
      destruct H6 as [(Hodd & _ & Hst)|(Hev & Hst)]; [left|right]; repeat split;
        try assumption; lia.
Qed.

(** No branch with a piece of odd colouring in it reaches the depth 7: the
    seven masks would fill the board, which has 14 black cells. *)
Lemma parity_inv_leaf state pa pre : parity_inv NUM_PIECES state pa pre -> False.
Proof.
  intros (HT & _ & _ & [(_ & Hi & _)|(_ & Hodd)]); [unfold NUM_PIECES in Hi; lia|].
  apply tiling_inv_full in HT as ->. vm_compute in Hodd. discriminate.
Qed.

(** ** The table of orientations *)

Lemma table_eq : table = calc_pieces_available zero_avail.
Proof. vm_compute. reflexivity. Qed.

Lemma list_of_length_8 {A} `{Inhabited A} (l : list A) :
  length l = 8%nat ->
  l = [l !!! 0%nat; l !!! 1%nat; l !!! 2%nat; l !!! 3%nat;
       l !!! 4%nat; l !!! 5%nat; l !!! 6%nat; l !!! 7%nat].
Proof.
  intros Hl. do 8 (destruct l as [|? l]; [discriminate Hl|]).
  destruct l; [reflexivity | discriminate Hl].
Qed.

(** What the generator leaves in the live entries does not depend on what
    the array held before. *)
Lemma calc_piece_live d a :
  d ∈ piece_definition -> po_shape a ->
  po_n (calc_piece d a) = po_n (calc_piece d zero_po) /\
  orientations (calc_piece d a) = orientations (calc_piece d zero_po).
Proof.
  intros Hd (Hm & Hw & Hh). destruct a as [n ms ws hs]. simpl in Hm, Hw, Hh.
  rewrite (list_of_length_8 ms Hm), (list_of_length_8 ws Hw), (list_of_length_8 hs Hh).
  generalize (ms !!! 0%nat) (ms !!! 1%nat) (ms !!! 2%nat) (ms !!! 3%nat)
             (ms !!! 4%nat) (ms !!! 5%nat) (ms !!! 6%nat) (ms !!! 7%nat)
             (ws !!! 0%nat) (ws !!! 1%nat) (ws !!! 2%nat) (ws !!! 3%nat)
             (ws !!! 4%nat) (ws !!! 5%nat) (ws !!! 6%nat) (ws !!! 7%nat)
             (hs !!! 0%nat) (hs !!! 1%nat) (hs !!! 2%nat) (hs !!! 3%nat)
             (hs !!! 4%nat) (hs !!! 5%nat) (hs !!! 6%nat) (hs !!! 7%nat).
  clear Hm Hw Hh. intros.
  unfold piece_definition in Hd.
  repeat (apply elem_of_cons in Hd; destruct Hd as [-> | Hd]);
    [split; vm_compute; reflexivity .. | by apply elem_of_nil in Hd].
Qed.

Lemma calc_pieces_available_unfold avail :
  length avail = 7%nat ->
  calc_pieces_available avail = zip_with calc_piece piece_definition avail.
Proof.
  intros Hl. do 7 (destruct avail as [|? avail]; [discriminate Hl|]).
  destruct avail; [reflexivity | discriminate Hl].
Qed.

Lemma calc_pieces_available_live avail i :
  avail_shape avail -> 0 <= i < NUM_PIECES ->
  po_n (rd (calc_pieces_available avail) i) = po_n (rd table i) /\
  orientations (rd (calc_pieces_available avail) i) = orientations (rd table i).
Proof.
  intros [Hl Hs] Hi. rewrite table_eq.
  assert (Hn : (Z.to_nat i < 7)%nat) by (unfold NUM_PIECES in Hi; lia).
  rewrite !calc_pieces_available_unfold by (assumption || reflexivity).
  rewrite !rd_zip_with by (rewrite ?Hl; exact Hn).
  replace (rd zero_avail i) with zero_po.
  - apply calc_piece_live.
    + apply rd_elem. exact Hn.
    + apply (Forall_elem _ _ _ Hs). apply rd_elem. by rewrite Hl.
  - unfold rd, zero_avail. by rewrite lookup_total_replicate_2.
Qed.

Lemma calc_pieces_available_length avail :
  length avail = 7%nat -> length (calc_pieces_available avail) = 7%nat.
Proof.
  intros Hl. rewrite calc_pieces_available_unfold by assumption.
  rewrite length_zip_with, Hl. reflexivity.
Qed.

Lemma calc_pieces_available_placements avail i :
  avail_shape avail -> 0 <= i < NUM_PIECES ->
  placements (rd (calc_pieces_available avail) i) = placements (rd table i).
Proof.
  intros Ha Hi. unfold placements.
  by rewrite (proj2 (calc_pieces_available_live avail i Ha Hi)).
Qed.

Lemma Forall_forallb {A} (P : A -> Prop) (f : A -> bool) (l : list A) :
  (forall x, f x = true -> P x) -> forallb f l = true -> Forall P l.
Proof.
  intros Hf Hl. apply Forall_forall. intros x Hx.
  apply Hf. rewrite forallb_forall in Hl. apply Hl. by apply list_elem_of_In.
Qed.

Lemma tetrominob_spec m : tetrominob m = true -> tetromino m.
Proof.
  unfold tetrominob, tetromino, on_board. rewrite !andb_true_iff.
  intros [[H0 H1] Hc]. apply Z.leb_le in H0. apply Z.ltb_lt in H1.
  apply Z.eqb_eq in Hc. auto.
Qed.

Lemma small_index i n : 0 <= i < Z.of_nat n -> exists k, (k < n)%nat /\ i = Z.of_nat k.
Proof. intros Hi. exists (Z.to_nat i). lia. Qed.

Lemma table_fits i : 0 <= i < NUM_PIECES -> piece_fits (rd table i).
Proof.
  intros Hi. apply (small_index i 7) in Hi as (k & Hk & ->).
  apply Forall_forallb with (f := tetrominob); [apply tetrominob_spec|].
  do 7 (destruct k as [|k]; [vm_compute; reflexivity|]). lia.
Qed.

Lemma table_even i : 0 <= i < 6 -> even_piece (rd table i).
Proof.
  intros Hi. apply (small_index i 6) in Hi as (k & Hk & ->).
  apply Forall_forallb with (f := fun m => negb (Z.odd (blacks m)));
    [intros m; apply negb_true_iff|].
  do 6 (destruct k as [|k]; [vm_compute; reflexivity|]). lia.
Qed.

Lemma table_odd : odd_piece (rd table 6).
Proof.
  apply Forall_forallb with (f := fun m => Z.odd (blacks m)); [auto|].
  vm_compute. reflexivity.
Qed.

(** The generated orientations have their bounding box on the board: the
    bounds [W - w] and [H - h] of the loops of [recurse] do not wrap around,
    and the shifts stay below 32. *)
Lemma generated_orientations_fit avail i mask w h :
  avail_shape avail -> 0 <= i < NUM_PIECES ->
  (mask, w, h) ∈ orientations (rd (calc_pieces_available avail) i) ->
  1 <= w <= W /\ 1 <= h <= H /\ 0 <= mask < 2 ^ (W * H).
Proof.
  intros Ha Hi. rewrite (proj2 (calc_pieces_available_live avail i Ha Hi)).
  apply (small_index i 7) in Hi as (k & Hk & ->). intros Ho.
  assert (Hb : forallb (fun '(mask, w, h) =>
                 (1 <=? w) && (w <=? W) && (1 <=? h) && (h <=? H) &&
                 (0 <=? mask) && (mask <? 2 ^ (W * H)))
                 (orientations (rd table (Z.of_nat k))) = true).
  { do 7 (destruct k as [|k]; [vm_compute; reflexivity|]). lia. }
  rewrite forallb_forall in Hb. apply list_elem_of_In, Hb in Ho.
  rewrite !andb_true_iff in Ho. destruct Ho as [[[[[H1 H2] H3] H4] H5] H6].
  apply Z.leb_le in H1, H2, H3, H4, H5. apply Z.ltb_lt in H6. auto.
Qed.

(** The state in which [main] calls [recurse]. *)
Lemma main_parity_inv avail :
  avail_shape avail -> parity_inv 0 0 (calc_pieces_available avail) [].
Proof.
  intros Ha. pose proof Ha as [Hl _].
  assert (Hfit : forall i, 0 <= i < NUM_PIECES ->
            piece_fits (rd (calc_pieces_available avail) i)).
  { intros i Hi. unfold piece_fits.
    rewrite calc_pieces_available_placements by assumption. by apply table_fits. }
  assert (Hev : forall i, 0 <= i < 6 -> even_piece (rd (calc_pieces_available avail) i)).
  { intros i Hi. unfold even_piece.
    rewrite calc_pieces_available_placements by (unfold NUM_PIECES; lia || assumption).
    by apply table_even. }
  repeat split; try (unfold NUM_PIECES; lia).
  - by apply calc_pieces_available_length.
  - apply Forall_forall. intros p Hp.
    apply list_elem_of_lookup_1 in Hp as [k Hk].
    pose proof (lookup_lt_Some _ _ _ Hk) as Hlt.
    rewrite calc_pieces_available_length in Hlt by assumption.
    specialize (Hfit (Z.of_nat k) ltac:(unfold NUM_PIECES; lia)).
    unfold rd in Hfit. rewrite Nat2Z.id in Hfit.
    by rewrite (list_lookup_total_correct _ _ _ Hk) in Hfit.
  - intros i j mi mj Hi. by rewrite lookup_nil in Hi.
  - constructor.
  - apply Hev. lia.
  - intros k Hk. apply Hev. lia.
  - left. repeat split; [|lia].
    unfold odd_piece.
    rewrite calc_pieces_available_placements by (unfold NUM_PIECES; lia || assumption).
    apply table_odd.
Qed.

(** ** The specification of [recurse] at three invariants *)

Lemma abort_report_overlap_exit s c s' : abort_report s c s' -> overlap_exit c s'.
Proof.
  intros (-> & Hov & He & _ & Hs & Hc). unfold overlap_exit. rewrite Hs.
  repeat split; eauto.
Qed.

Lemma found_solution_exit s c s' : found_solution s = Exit c s' -> overlap_exit c s'.
Proof.
  intros Hr. pose proof (found_solution_frame s) as Hf. rewrite Hr in Hf.
  by apply abort_report_overlap_exit in Hf.
Qed.

Lemma recurse_any fuel iter state s :
  0 <= iter <= NUM_PIECES ->
  Z.of_nat (length (solution s)) = NUM_PIECES ->
  NUM_PIECES - iter <= Z.of_nat fuel ->
  triple (recurse fuel iter state s) (searched depth_inv iter s) overlap_exit.
Proof.
  intros Hi. apply recurse_spec; try assumption.
  - by unfold depth_inv.
  - unfold depth_inv. intros. lia.
  - intros state' s1 c s' _. apply found_solution_exit.
Qed.

Lemma try_slot_any fuel iter state i s :
  0 <= iter -> iter <= i < NUM_PIECES ->
  Z.of_nat (length (solution s)) = NUM_PIECES ->
  NUM_PIECES - iter <= Z.of_nat (S fuel) ->
  triple (try_slot (recurse fuel) iter state i s) (searched depth_inv iter s) overlap_exit.
Proof.
  intros Hi0 Hi. apply try_slot_recurse_spec; try assumption.
  - by unfold depth_inv.
  - unfold depth_inv. intros. lia.
  - intros state' s1 c s' _. apply found_solution_exit.
  - unfold depth_inv. lia.
Qed.

(** The part of the body of the loop over the slots between the two
    assignments to [pieces_available[i]]: the search with the slot taken. *)
Lemma slot_search_any fuel iter state i s :
  0 <= iter -> iter <= i < NUM_PIECES ->
  Z.of_nat (length (solution s)) = NUM_PIECES ->
  NUM_PIECES - iter <= Z.of_nat (S fuel) ->
  triple (for_m 0 (po_n (rd (pieces_available s) i))
            (try_orientation (recurse fuel) iter state (rd (pieces_available s) i))
            (set_pieces_available
               (wr (pieces_available s) i (rd (pieces_available s) 0)) s))
         (searched depth_inv iter
            (set_pieces_available
               (wr (pieces_available s) i (rd (pieces_available s) 0)) s))
         overlap_exit.
Proof.
  intros Hi0 Hi Hlen Hfuel.
  set (pa := pieces_available s). set (s0 := set_pieces_available _ s).
  apply triple_for_m; [apply searched_refl|]. intros j s1 Hj Hs1.
  apply triple_post with (Q := searched depth_inv iter s1);
    [|intros s2; by apply searched_trans].
  destruct Hs1 as (Hp1 & Ht1 & Hl1 & _).
  apply try_orientation_spec with (pa := pa) (i := i); try lia.
  - by unfold depth_inv.
  - unfold depth_inv. intros. lia.
  - intros state' s' HI' Hlen'. apply recurse_any; [exact HI' | exact Hlen' | lia].
  - unfold depth_inv. lia.
  - reflexivity.
  - by rewrite Hp1.
  - by rewrite Hl1.
Qed.

Lemma tiling_inv_no_exit state s c s' :
  tiling_inv NUM_PIECES state (pieces_available s) (masks (solution s)) ->
  found_solution s = Exit c s' -> never c s'.
Proof.
  intros (_ & _ & _ & Hlen & _ & Hd & _) Hr.
  pose proof (found_solution_frame s) as Hf. rewrite Hr in Hf.
  destruct Hf as (_ & Hov & _). revert Hov.
  apply pairwise_disjoint_not_overlapping; [|assumption].
  unfold masks in Hlen. rewrite length_fmap in Hlen. lia.
Qed.

(** A call on a branch of the search. *)
Lemma recurse_tiling fuel iter state s :
  tiling_inv iter state (pieces_available s)
             (masks (take (Z.to_nat iter) (solution s))) ->
  Z.of_nat (length (solution s)) = NUM_PIECES ->
  NUM_PIECES - iter <= Z.of_nat fuel ->
  triple (recurse fuel iter state s) (searched tiling_inv iter s) never.
Proof.
  apply recurse_spec.
  - apply tiling_inv_range.
  - apply tiling_inv_place.
  - apply tiling_inv_no_exit.
Qed.

(** A call on a branch of the search that [main] starts. *)
Lemma recurse_parity fuel iter state s :
  parity_inv iter state (pieces_available s)
             (masks (take (Z.to_nat iter) (solution s))) ->
  Z.of_nat (length (solution s)) = NUM_PIECES ->
  NUM_PIECES - iter <= Z.of_nat fuel ->
  triple (recurse fuel iter state s) (searched parity_inv iter s) never.
Proof.
  apply recurse_spec.
  - intros ? ? ? ? [HT _]. by eapply tiling_inv_range.
  - apply parity_inv_place.
  - intros state' s1 c s' HI Hr. by eapply parity_inv_leaf.
Qed.

Lemma triple_never_ok {A} (r : outcome A) (Q : A -> Prop) :
  triple r Q never -> exists a, r = Ok a /\ Q a.
Proof. destruct r; simpl; try contradiction. eauto. Qed.

(** The reports added to a history are those of the added events. *)
Lemma reports_app l evs : reports (l ++ evs) = reports l ++ reports evs.
Proof. apply omap_app. Qed.

Lemma reports_elem sol evs : sol ∈ reports evs <-> Found sol ∈ evs.
Proof.
  unfold reports. rewrite list_elem_of_omap. split.
  - intros ([| sol'] & He & Hs); [discriminate|]. by injection Hs as ->.
  - intros He. by exists (Found sol).
Qed.

(** What the invariant of a tiling says of a reported solution. *)
Lemma tiling_report sol :
  event_ok tiling_inv (Found sol) ->
  length sol = 7%nat /\ or_masks (masks sol) = full_board /\
  pairwise_disjoint (masks sol) /\ Forall tetromino (masks sol).
Proof.
  intros (state & pa & HI). pose proof (tiling_inv_full _ _ _ HI) as Hfull.
  destruct HI as (_ & _ & _ & Hlen & Hst & Hd & Ht).
  unfold masks in Hlen. rewrite length_fmap in Hlen. unfold NUM_PIECES in Hlen.
  repeat split; try assumption; [lia | congruence].
Qed.

(** A call on a branch returns, and all it did satisfies the invariant. *)
Lemma recurse_tiling_events fuel iter state s :
  tiling_inv iter state (pieces_available s)
             (masks (take (Z.to_nat iter) (solution s))) ->
  Z.of_nat (length (solution s)) = NUM_PIECES ->
  NUM_PIECES - iter <= Z.of_nat fuel ->
  exists s' evs,
    recurse fuel iter state s = Ok s' /\ calls s' = calls s ++ evs /\
    Forall (event_ok tiling_inv) evs.
Proof.
  intros HI Hlen Hfuel.
  destruct (triple_never_ok _ _ (recurse_tiling fuel iter state s HI Hlen Hfuel))
    as (s' & Hr & _ & _ & _ & _ & evs & Hc & Hev).
  by exists s', evs.
Qed.

(** ** The run of [main] *)

(** The run of [main]: [recurse] returns, and no solution is reported. *)
Lemma main_run avail solution0 :
  avail_shape avail -> length solution0 = 7%nat ->
  exists s, main avail solution0 = Ok (0, s) /\
            searched parity_inv 0
              (mk_world (calc_pieces_available avail) solution0 "" "" []) s.
Proof.
  intros Ha Hs. unfold main.
  set (s0 := set_pieces_available _ _).
  destruct (triple_never_ok _ _ (recurse_parity (Z.to_nat NUM_PIECES) 0 0 s0
              (main_parity_inv avail Ha) ltac:(simpl; unfold NUM_PIECES; lia)
              ltac:(unfold NUM_PIECES; lia))) as (s & Hr & Hsr).
  exists s. rewrite Hr. split; [reflexivity | exact Hsr].
Qed.

Lemma main_reports_nothing avail solution0 :
  avail_shape avail -> length solution0 = 7%nat ->
  exists s, main avail solution0 = Ok (0, s) /\ reports (calls s) = [].
Proof.
  intros Ha Hs. destruct (main_run avail solution0 Ha Hs) as (s & Hr & Hsr).
  exists s. split; [assumption|].
  destruct Hsr as (_ & _ & _ & _ & evs & Hc & Hev). simpl in Hc. rewrite Hc.
  destruct (reports evs) as [|sol l] eqn:Hrep; [reflexivity|]. exfalso.
  assert (Hin : sol ∈ reports evs) by (rewrite Hrep; constructor).
  apply reports_elem in Hin. apply (Forall_elem _ _ _ Hev) in Hin.
  destruct Hin as (state & pa & HI). by eapply parity_inv_leaf.
Qed.

(** Every call of [recurse] in the run of [main] is on a branch of the
    search: the calls of the run are among those the properties of the
    reported solutions are proved for. *)
Lemma main_calls_on_branches avail solution0 :
  avail_shape avail -> length solution0 = 7%nat ->
  exists s, main avail solution0 = Ok (0, s) /\
            Forall (event_ok tiling_inv) (calls s).
Proof.
  intros Ha Hs. destruct (main_run avail solution0 Ha Hs) as (s & Hr & Hsr).
  exists s. split; [assumption|].
  destruct Hsr as (_ & _ & _ & _ & evs & Hc & Hev). simpl in Hc. rewrite Hc.
  eapply Forall_impl; [exact Hev|].
  intros [iter state pa sol|sol]; simpl.
  - by intros [HT _].
  - intros (state & pa & [HT _]). eauto.
Qed.

Lemma zero_avail_shape : avail_shape zero_avail.
Proof. split; [reflexivity|]. repeat constructor. Qed.

(** ** Checking the invariant of a tiling by evaluation *)

Lemma disjointb_spec l : disjointb l = true -> pairwise_disjoint l.
Proof.
  induction l as [|m l IH]; simpl.
  - intros _ i j mi mj Hi. by rewrite lookup_nil in Hi.
  - rewrite andb_true_iff, forallb_forall. intros [Hm Hl].
    specialize (IH Hl).
    assert (Hm' : forall a, a ∈ l -> Z.land a m = 0).
    { intros a Ha. apply Z.eqb_eq, Hm. by apply list_elem_of_In. }
    intros [|i] [|j] mi mj Hi Hj Hij; simpl in Hi, Hj.
    + lia.
    + injection Hi as <-. rewrite Z.land_comm. apply Hm'.
      by apply list_elem_of_lookup_2 in Hj.
    + injection Hj as <-. apply Hm'. by apply list_elem_of_lookup_2 in Hi.
    + apply (IH i j); auto.
Qed.

Lemma tiling_invb_spec iter state pa pre :
  tiling_invb iter state pa pre = true -> tiling_inv iter state pa pre.
Proof.
  unfold tiling_invb. rewrite !andb_true_iff.
  intros (((((((H0 & H1) & Hpa) & Hfit) & Hlen) & Hst) & Hd) & Ht).
  apply Z.leb_le in H0, H1. apply Z.eqb_eq in Hpa, Hlen, Hst.
  repeat split; try assumption; try lia.
  - apply Forall_forallb with (f := fun p => forallb tetrominob (placements p));
      [|assumption].
    intros p Hp. by apply Forall_forallb with (f := tetrominob); [apply tetrominob_spec|].
  - by apply disjointb_spec.
  - by apply Forall_forallb with (f := tetrominob); [apply tetrominob_spec|].
Qed.

(** A call that does report: from the branch with six rows filled, the
    search fills the seventh. *)
Example six_rows_solved :
  exists s, recurse 1 6 16777215 six_rows_world = Ok s /\
            reports (calls s) = [seven_rows].
Proof. eexists. split; vm_compute; reflexivity. Qed.

(** ** The reported solutions *)

(** C1. Every solution reported by a call of [recurse] that is on a branch
    of the search -- the pool holds pieces of four cells that fit the board,
    and [state] is the union of the disjoint masks placed at the depths
    below [iter] -- has seven masks whose bitwise OR is 0x0FFFFFFF; the call
    returns. *)
Theorem reported_masks_cover_board fuel iter state s :
  tiling_inv iter state (pieces_available s)
             (masks (take (Z.to_nat iter) (solution s))) ->
  Z.of_nat (length (solution s)) = NUM_PIECES ->
  NUM_PIECES - iter <= Z.of_nat fuel ->
  exists s' new,
    recurse fuel iter state s = Ok s' /\
    reports (calls s') = reports (calls s) ++ new /\
    forall sol, sol ∈ new ->
      length sol = 7%nat /\ or_masks (masks sol) = 0x0FFFFFFF.
Proof.
  intros HI Hlen Hfuel.
  destruct (recurse_tiling_events fuel iter state s HI Hlen Hfuel)
    as (s' & evs & Hr & Hc & Hev).
  exists s', (reports evs). split; [assumption|]. split; [by rewrite Hc, reports_app|].
  intros sol Hsol. apply reports_elem in Hsol. apply (Forall_elem _ _ _ Hev) in Hsol.
  apply tiling_report in Hsol as (Hl & Hor & _). by split.
Qed.

Lemma reported_masks_cover_board_witness :
  exists s' new,
    recurse 1 6 16777215 six_rows_world = Ok s' /\
    reports (calls s') = reports (calls six_rows_world) ++ new /\
    forall sol, sol ∈ new ->
      length sol = 7%nat /\ or_masks (masks sol) = 0x0FFFFFFF.
Proof.
  apply reported_masks_cover_board.
  - apply tiling_invb_spec. vm_compute. reflexivity.
  - reflexivity.
  - unfold NUM_PIECES. lia.
Defined.

(** C2. In every solution reported by a call of [recurse] on a branch of the
    search, the masks recorded at two distinct depths are disjoint. *)
Theorem reported_masks_disjoint fuel iter state s :
  tiling_inv iter state (pieces_available s)
             (masks (take (Z.to_nat iter) (solution s))) ->
  Z.of_nat (length (solution s)) = NUM_PIECES ->
  NUM_PIECES - iter <= Z.of_nat fuel ->
  exists s' new,
    recurse fuel iter state s = Ok s' /\
    reports (calls s') = reports (calls s) ++ new /\
    forall sol i j, sol ∈ new ->
      0 <= i < NUM_PIECES -> 0 <= j < NUM_PIECES -> i <> j ->
      Z.land (piece_mask (rd sol i)) (piece_mask (rd sol j)) = 0.
Proof.
  intros HI Hlen Hfuel.
  destruct (recurse_tiling_events fuel iter state s HI Hlen Hfuel)
    as (s' & evs & Hr & Hc & Hev).
  exists s', (reports evs). split; [assumption|]. split; [by rewrite Hc, reports_app|].
  intros sol i j Hsol Hi Hj Hij.
  apply reports_elem in Hsol. apply (Forall_elem _ _ _ Hev) in Hsol.
  apply tiling_report in Hsol as (Hl & _ & Hd & _).
  unfold NUM_PIECES in *.
  apply (Hd (Z.to_nat i) (Z.to_nat j)); [| |lia];
    unfold masks, rd; rewrite list_lookup_fmap, list_lookup_lookup_total_lt;
    reflexivity || lia.
Qed.

Lemma reported_masks_disjoint_witness :
  exists s' new,
    recurse 1 6 16777215 six_rows_world = Ok s' /\
    reports (calls s') = reports (calls six_rows_world) ++ new /\
    forall sol i j, sol ∈ new ->
      0 <= i < NUM_PIECES -> 0 <= j < NUM_PIECES -> i <> j ->
      Z.land (piece_mask (rd sol i)) (piece_mask (rd sol j)) = 0.
Proof.
  apply reported_masks_disjoint.
  - apply tiling_invb_spec. vm_compute. reflexivity.
  - reflexivity.
  - unfold NUM_PIECES. lia.
Defined.

(** ** Placements stay on the board *)

Lemma on_board_bits m : on_board m -> bits_on_board m /\ cells_on_board m.
Proof.
  intros Hm. split; [split|].
  - by destruct Hm.
  - intros k. by apply on_board_testbit.
  - intros k Hk. apply (on_board_testbit _ _ Hm) in Hk.
    unfold W, H in *. split.
    + apply Z.mod_pos_bound. lia.
    + split; [apply Z.div_pos; lia | apply Z.div_lt_upper_bound; lia].
Qed.

Lemma bits_on_board_equiv m : 0 <= m -> (bits_on_board m <-> cells_on_board m).
Proof.
  intros H0. split.
  - intros [_ Hb] k Hk. apply Hb in Hk. unfold W, H in *. split.
    + apply Z.mod_pos_bound. lia.
    + split; [apply Z.div_pos; lia | apply Z.div_lt_upper_bound; lia].
  - intros Hc. split; [assumption|]. intros k Hk.
    assert (0 <= k).
    { destruct (Z.ltb_spec k 0); [|assumption].
      rewrite Z.testbit_neg_r in Hk by assumption. discriminate. }
    apply Hc in Hk as [_ [_ Hk]]. unfold W, H in *.
    split; [assumption|].
    pose proof (Z.div_mod k 4 ltac:(lia)). pose proof (Z.mod_pos_bound k 4 ltac:(lia)).
    lia.
Qed.

Lemma tiling_event_on_board e : event_ok tiling_inv e -> event_on_board e.
Proof.
  assert (Hmasks : forall (sol : list placement) n d,
            Forall tetromino (masks (take n sol)) -> (Z.to_nat d < n)%nat ->
            (n <= length sol)%nat ->
            bits_on_board (piece_mask (rd sol d)) /\
            cells_on_board (piece_mask (rd sol d))).
  { intros sol n d Ht Hd Hn. apply on_board_bits.
    assert (He : piece_mask (rd sol d) ∈ masks (take n sol)).
    { unfold masks, rd. apply list_elem_of_fmap. exists (sol !!! Z.to_nat d).
      split; [reflexivity|]. apply list_elem_of_lookup_2 with (i := Z.to_nat d).
      rewrite lookup_take_lt by assumption.
      apply list_lookup_lookup_total_lt. lia. }
    by destruct (Forall_elem _ _ _ Ht He). }
  destruct e as [iter state pa sol|sol]; simpl.
  - intros HI. pose proof (tiling_inv_state _ _ _ _ HI) as [Hb _].
    destruct HI as (Hr & _ & _ & Hlen & _ & _ & Ht).
    destruct (on_board_bits _ Hb) as [? ?].
    split; [assumption|]. split; [assumption|]. intros d Hd.
    apply (Hmasks sol (Z.to_nat iter) d Ht); try lia.
    unfold masks in Hlen. rewrite length_fmap, length_take in Hlen. lia.
  - intros (state & pa & HI). destruct HI as (Hr & _ & _ & Hlen & _ & _ & Ht).
    unfold masks in Hlen. rewrite length_fmap in Hlen. unfold NUM_PIECES in *.
    intros d Hd. apply (Hmasks sol 7%nat d); try lia.
    by rewrite take_ge by lia.
Qed.

(** C6. In a call of [recurse] on a branch of the search, and in all the
    calls below it, the occupancy [state] has no bit at a position 28 or
    above, and neither has any mask placed on the branch or reported in a
    solution; equivalently, their cells decode to x in [0,4) and y in
    [0,7). The call returns. *)
Theorem placements_on_board fuel iter state s :
  tiling_inv iter state (pieces_available s)
             (masks (take (Z.to_nat iter) (solution s))) ->
  Z.of_nat (length (solution s)) = NUM_PIECES ->
  NUM_PIECES - iter <= Z.of_nat fuel ->
  exists s' evs,
    recurse fuel iter state s = Ok s' /\
    calls s' = calls s ++ evs /\
    Forall event_on_board evs /\
    forall m, 0 <= m -> (bits_on_board m <-> cells_on_board m).
Proof.
  intros HI Hlen Hfuel.
  destruct (recurse_tiling_events fuel iter state s HI Hlen Hfuel)
    as (s' & evs & Hr & Hc & Hev).
  exists s', evs. split; [assumption|]. split; [assumption|]. split.
  - eapply Forall_impl; [exact Hev | apply tiling_event_on_board].
  - apply bits_on_board_equiv.
Qed.

Lemma placements_on_board_witness :
  exists s' evs,
    recurse 7 0 0 (mk_world table zero_solution "" "" []) = Ok s' /\
    calls s' = [] ++ evs /\
    Forall event_on_board evs /\
    forall m, 0 <= m -> (bits_on_board m <-> cells_on_board m).
Proof.
  apply (placements_on_board 7 0 0 (mk_world table zero_solution "" "" [])).
  - apply tiling_invb_spec. vm_compute. reflexivity.
  - reflexivity.
  - unfold NUM_PIECES. lia.
Defined.

(** ** Backtracking restores the pool *)

Lemma well_formedb_spec p : well_formedb p = true -> well_formed p.
Proof.
  unfold well_formedb, well_formed, po_shape. rewrite !andb_true_iff, forallb_forall.
  intros [[[[[Hm Hw] Hh] H0] H8] Hall].
  apply Z.eqb_eq in Hm, Hw, Hh. apply Z.leb_le in H0, H8.
  repeat split; try lia.
  all: specialize (Hall j); rewrite !andb_true_iff in Hall;
    destruct Hall as [[[[[A B] C] D] E] F];
      [apply list_elem_of_In, elem_of_seqZ; lia|];
    apply Z.leb_le in A, B, C, D, E; apply Z.ltb_lt in F; lia.
Qed.

Lemma pool_okb_spec pa : pool_okb pa = true -> pool_ok pa.
Proof.
  unfold pool_okb, pool_ok. rewrite andb_true_iff. intros [Hl Hall].
  apply Z.eqb_eq in Hl. split; [lia|].
  by apply Forall_forallb with (f := well_formedb); [apply well_formedb_spec|].
Qed.

(** C5. For a call [recurse (iter, state, ...)] with [iter < 7] on a pool of
    well-formed entries, and for every slot [i] in [iter, 7): the search
    made between the two assignments to [pieces_available[i]] runs on the
    pool with the slot taken and returns with that pool; the body of the
    loop, which ends with the assignment that restores the slot, returns
    with [pieces_available] equal to what it was when the slot was chosen;
    and so does the whole call, with the array of its entry. The only other
    outcome is the exit of the process from [print_solution]. *)
Theorem pool_restored fuel iter state s :
  0 <= iter < NUM_PIECES ->
  pool_ok (pieces_available s) ->
  Z.of_nat (length (solution s)) = NUM_PIECES ->
  NUM_PIECES - iter <= Z.of_nat (S fuel) ->
  (forall i, iter <= i < NUM_PIECES ->
     triple (for_m 0 (po_n (rd (pieces_available s) i))
               (try_orientation (recurse fuel) iter state (rd (pieces_available s) i))
               (set_pieces_available
                  (wr (pieces_available s) i (rd (pieces_available s) 0)) s))
            (fun s' => pieces_available s'
                       = wr (pieces_available s) i (rd (pieces_available s) 0))
            overlap_exit /\
     triple (try_slot (recurse fuel) iter state i s)
            (fun s' => pieces_available s' = pieces_available s) overlap_exit) /\
  triple (recurse (S fuel) iter state s)
         (fun s' => pieces_available s' = pieces_available s) overlap_exit.
Proof.
  intros Hi _ Hlen Hfuel. split.
  - intros i Hi'. split.
    + eapply triple_post; [apply slot_search_any; try assumption; lia|].
      by intros s' [Hp _].
    + eapply triple_post; [apply try_slot_any; try assumption; lia|].
      by intros s' [Hp _].
  - eapply triple_post; [apply recurse_any; try assumption; lia|].
    by intros s' [Hp _].
Qed.

Lemma pool_restored_witness :
  (forall i, 5 <= i < NUM_PIECES ->
     triple (for_m 0 (po_n (rd table i))
               (try_orientation (recurse 1) 5 259470143 (rd table i))
               (set_pieces_available (wr table i (rd table 0)) five_placed_world))
            (fun s' => pieces_available s' = wr table i (rd table 0))
            overlap_exit /\
     triple (try_slot (recurse 1) 5 259470143 i five_placed_world)
            (fun s' => pieces_available s' = table) overlap_exit) /\
  triple (recurse 2 5 259470143 five_placed_world)
         (fun s' => pieces_available s' = table) overlap_exit.
Proof.
  apply (pool_restored 1 5 259470143 five_placed_world).
  - unfold NUM_PIECES. lia.
  - apply pool_okb_spec. vm_compute. reflexivity.
  - reflexivity.
  - unfold NUM_PIECES. lia.
Defined.

(** ** Orientation counts *)

(** C7. Whatever the array held before, [calc_pieces_available] leaves in
    each of the 7 entries a count [n] between 1 and 8; the entry of the 2x2
    square (index 1) has 1 orientation and the entry of the 1x4 straight
    piece (index 0) has 2. *)
Theorem orientation_counts avail :
  avail_shape avail ->
  (forall i, 0 <= i < NUM_PIECES ->
     1 <= po_n (rd (calc_pieces_available avail) i) <= 8) /\
  rd piece_definition 1 = mk_piece_def "####" 2 2 /\
  po_n (rd (calc_pieces_available avail) 1) = 1 /\
  rd piece_definition 0 = mk_piece_def "####" 1 4 /\
  po_n (rd (calc_pieces_available avail) 0) = 2.
Proof.
  intros Ha. split; [|repeat split; try reflexivity].
  - intros i Hi. rewrite (proj1 (calc_pieces_available_live avail i Ha Hi)).
    apply (small_index i 7) in Hi as (k & Hk & ->).
    do 7 (destruct k as [|k]; [vm_compute; split; discriminate|]). lia.
  - by rewrite (proj1 (calc_pieces_available_live avail 1 Ha ltac:(unfold NUM_PIECES; lia))).
  - by rewrite (proj1 (calc_pieces_available_live avail 0 Ha ltac:(unfold NUM_PIECES; lia))).
Qed.

Lemma orientation_counts_witness :
  (forall i, 0 <= i < NUM_PIECES ->
     1 <= po_n (rd (calc_pieces_available zero_avail) i) <= 8) /\
  rd piece_definition 1 = mk_piece_def "####" 2 2 /\
  po_n (rd (calc_pieces_available zero_avail) 1) = 1 /\
  rd piece_definition 0 = mk_piece_def "####" 1 4 /\
  po_n (rd (calc_pieces_available zero_avail) 0) = 2.
Proof.
  apply orientation_counts. split; [reflexivity | repeat constructor].
Defined.

(** ** What the run reports *)

(** The claim that the run reports at least one solution fails: started on
    zeroed arrays, [main] returns without any call of [found_solution]. *)
Lemma zeroed_run_reports_nothing :
  exists s, main zero_avail zero_solution = Ok (0, s) /\ reports (calls s) = [].
Proof.
  apply main_reports_nothing; [apply zero_avail_shape | reflexivity].
Qed.

(** C9, as the program behaves. Whatever its arrays held before, [main]
    returns 0 and [found_solution] is never called: the run reports no
    solution. *)
Theorem run_reports_nothing avail solution0 :
  avail_shape avail -> length solution0 = 7%nat ->
  exists s, main avail solution0 = Ok (0, s) /\
            reports (calls s) = [] /\
            forall sol, Found sol ∉ calls s.
Proof.
  intros Ha Hs. destruct (main_reports_nothing avail solution0 Ha Hs) as (s & Hr & Hn).
  exists s. repeat split; try assumption.
  intros sol Hin. apply reports_elem in Hin. rewrite Hn in Hin.
  by apply elem_of_nil in Hin.
Qed.

Lemma run_reports_nothing_witness :
  exists s, main ones_avail ones_solution = Ok (0, s) /\
            reports (calls s) = [] /\
            forall sol, Found sol ∉ calls s.
Proof.
  apply run_reports_nothing.
  - split; [reflexivity | repeat constructor].
  - reflexivity.
Defined.

(** ** The exit status *)

(** C10. The process exits with the status 0 when [main] returns, and the
    run of [main] does return. The only other exit is that of
    [print_solution], with the status 1 and the diagnostic on [stderr],
    taken exactly when two of the masks it is given cover one cell; a call
    of [recurse] on a branch of the search never reaches it. *)
Theorem exit_status_of_the_process :
  (forall avail solution0,
     avail_shape avail -> length solution0 = 7%nat ->
     exit_status (main avail solution0) = Some 0) /\
  (forall avail solution0 c s, main avail solution0 = Ok (c, s) -> c = 0) /\
  (forall avail solution0 c s,
     length solution0 = 7%nat ->
     main avail solution0 <> OutOfFuel /\
     (main avail solution0 = Exit c s -> overlap_exit c s)) /\
  (forall sol sofar s,
     triple (print_solution sol sofar s)
            (fun s' => ~ overlapping sol sofar /\ err s' = err s)
            (fun c s' => overlapping sol sofar /\ c = 1 /\
                         err s' = (err s ++ diagnostic)%string)) /\
  (forall fuel iter state s,
     tiling_inv iter state (pieces_available s)
                (masks (take (Z.to_nat iter) (solution s))) ->
     Z.of_nat (length (solution s)) = NUM_PIECES ->
     NUM_PIECES - iter <= Z.of_nat fuel ->
     exists s', recurse fuel iter state s = Ok s').
Proof.
  split; [|split; [|split; [|split]]].
  - intros avail solution0 Ha Hs.
    destruct (main_run avail solution0 Ha Hs) as (s & -> & _). reflexivity.
  - intros avail solution0 c s. unfold main.
    destruct (recurse _ _ _ _); simpl; [|discriminate..].
    by intros [= <- _].
  - intros avail solution0 c s Hs. unfold main.
    set (s0 := set_pieces_available _ _).
    pose proof (recurse_any (Z.to_nat NUM_PIECES) 0 0 s0
                  ltac:(unfold NUM_PIECES; lia)
                  ltac:(simpl; unfold NUM_PIECES; lia)
                  ltac:(unfold NUM_PIECES; lia)) as Hr.
    destruct (recurse _ _ _ _) as [s'|c' s'|]; simpl in *; [| |contradiction].
    + split; discriminate.
    + split; [discriminate|]. by intros [= <- <-].
  - intros sol sofar s. eapply triple_mono; [apply print_solution_spec| |]; simpl.
    + by intros s' [(_ & _ & He & _) Hov].
    + by intros c s' [(-> & He & _) Hov].
  - intros fuel iter state s HI Hlen Hfuel.
    destruct (recurse_tiling_events fuel iter state s HI Hlen Hfuel)
      as (s' & evs & Hr & _). eauto.
Qed.

Lemma exit_status_of_the_process_witness :
  exit_status (main zero_avail zero_solution) = Some 0 /\
  exists s', recurse 1 6 16777215 six_rows_world = Ok s'.
Proof.
  split.
  - apply (proj1 exit_status_of_the_process).
    + split; [reflexivity | repeat constructor].
    + reflexivity.
  - apply (proj2 (proj2 (proj2 (proj2 exit_status_of_the_process)))).
    + apply tiling_invb_spec. vm_compute. reflexivity.
    + reflexivity.
    + unfold NUM_PIECES. lia.
Defined.

(** ** The mirror step of the generator *)

Lemma testbit_row_mask a k :
  0 <= a -> a + 4 <= 32 -> 0 <= k ->
  Z.testbit (u32 (Z.shiftl (Z.shiftl 1 W - 1) a)) k = (a <=? k) && (k <? a + 4).
Proof.
  intros Ha Ha' Hk. rewrite testbit_u32, Z.shiftl_spec by assumption.
  change (Z.shiftl 1 W - 1) with (Z.ones 4). rewrite Z.testbit_ones by lia.
  destruct (Z.ltb_spec k 32), (Z.leb_spec 0 (k - a)), (Z.ltb_spec (k - a) 4),
    (Z.leb_spec a k), (Z.ltb_spec k (a + 4)); simpl; reflexivity || lia.
Qed.

Lemma mirror_rows_testbit h l m k :
  0 <= l -> 2 * l + 1 < h -> h <= 8 -> 0 <= m < 2 ^ 32 -> 0 <= k ->
  Z.testbit (mirror_rows h l m) k
  = Z.testbit m (if (W * l <=? k) && (k <? W * l + 4) then k + W * (h - 1 - 2 * l)
                 else if (W * (h - 1 - l) <=? k) && (k <? W * (h - 1 - l) + 4)
                      then k - W * (h - 1 - 2 * l)
                      else k).
Proof.
  intros Hl Hlh Hh Hm Hk. unfold mirror_rows, u32_not, W in *.
  rewrite (u32_small (h - 1)) by lia.
  rewrite (u32_small (h - 1 - l)) by lia.
  rewrite (u32_small (4 * l)) by lia.
  rewrite (u32_small (4 * (h - 1 - l))) by lia.
  set (a := 4 * l) in *. set (b := 4 * (h - 1 - l)) in *.
  assert (Hab : a + 4 <= b /\ b + 4 <= 32 /\ 0 <= a) by (unfold a, b; lia).
  replace (4 * (h - 1 - 2 * l)) with (b - a) by (unfold a, b; lia).
  rewrite !Z.lor_spec, !Z.land_spec, !testbit_u32, Z.lnot_spec, Z.lor_spec by lia.
  rewrite !Z.shiftl_spec by lia.
  rewrite !testbit_row_mask by lia.
  destruct (Z.ltb_spec k 32) as [H32|H32]; simpl.
  2:{ rewrite (testbit_small m k) by lia. simpl.
      repeat match goal with
             | |- context [(?x <=? ?y)] => destruct (Z.leb_spec x y); try lia
             | |- context [(?x <? ?y)] => destruct (Z.ltb_spec x y); try lia
             end; simpl; symmetry; apply testbit_small; (assumption || lia). }
  repeat first
    [ match goal with
      | |- context [Z.testbit (Z.shiftr ?x ?s) ?i] =>
          first [ rewrite (Z.testbit_neg_r (Z.shiftr x s) i) by lia
                | rewrite (Z.shiftr_spec x s i) by lia;
                  rewrite Z.land_spec, testbit_row_mask by lia ]
      end
    | match goal with
      | |- context [(?x <=? ?y)] => destruct (Z.leb_spec x y); try lia
      | |- context [(?x <? ?y)] => destruct (Z.ltb_spec x y); try lia
      end ];
    simpl; rewrite ?andb_false_r, ?andb_true_r, ?orb_false_r; simpl;
    rewrite ?andb_false_r, ?andb_true_r, ?orb_false_r; f_equal; lia.
Qed.

Lemma mirror_rows_range h l m :
  0 <= l -> 2 * l + 1 < h -> h <= 8 -> 0 <= m < 2 ^ 32 ->
  0 <= mirror_rows h l m < 2 ^ 32.
Proof.
  intros Hl Hlh Hh Hm. apply range_intro.
  - unfold mirror_rows. pose proof u32_range as Hu.
    rewrite !Z.lor_nonneg, Z.land_nonneg.
    repeat split; try apply Hu. left. lia.
  - intros k Hk. rewrite mirror_rows_testbit by lia. unfold W.
    destruct (Z.leb_spec (4 * l) k), (Z.ltb_spec k (4 * l + 4)); simpl; try lia;
      destruct (Z.leb_spec (4 * (h - 1 - l)) k), (Z.ltb_spec k (4 * (h - 1 - l) + 4));
      simpl; try lia; by apply testbit_small.
Qed.

Lemma for_loop_S {S} (body : Z -> S -> S) (t : nat) (s : S) :
  for_loop 0 (Z.of_nat (Datatypes.S t)) body s
  = body (Z.of_nat t) (for_loop 0 (Z.of_nat t) body s).
Proof. unfold for_loop. rewrite seqZ_S, fold_left_app. reflexivity. Qed.

Lemma mirror_index_shift h t k c :
  mirror_index h t (k + c * 4)
  = if (k / 4 + c <? t) || ((h - 1 - t <? k / 4 + c) && (k / 4 + c <? h))
    then 4 * (h - 1 - (k / 4 + c)) + k mod 4
    else k + c * 4.
Proof.
  unfold mirror_index, W. by rewrite Z.div_add, Z_mod_plus_full by lia.
Qed.

Lemma mirror_index_0 h t k :
  mirror_index h t k
  = if (k / 4 <? t) || ((h - 1 - t <? k / 4) && (k / 4 <? h))
    then 4 * (h - 1 - k / 4) + k mod 4
    else k.
Proof. reflexivity. Qed.

Lemma mirror_prefix h m (t : nat) :
  0 <= m < 2 ^ 32 -> h <= 8 -> 2 * Z.of_nat t <= h ->
  0 <= for_loop 0 (Z.of_nat t) (mirror_rows h) m < 2 ^ 32 /\
  forall k, 0 <= k ->
    Z.testbit (for_loop 0 (Z.of_nat t) (mirror_rows h) m) k
    = Z.testbit m (mirror_index h (Z.of_nat t) k).
Proof.
  intros Hm Hh. induction t as [|t IH]; intros Ht.
  - split; [exact Hm|]. intros k Hk. rewrite mirror_index_0.
    pose proof (Z.div_pos k 4 Hk ltac:(lia)).
    destruct (Z.ltb_spec (k / 4) (Z.of_nat 0)), (Z.ltb_spec (h - 1 - Z.of_nat 0) (k / 4)),
      (Z.ltb_spec (k / 4) h); simpl; try reflexivity; lia.
  - destruct IH as [Hr Hb]; [lia|]. rewrite for_loop_S.
    set (r := for_loop 0 (Z.of_nat t) (mirror_rows h) m) in *.
    split; [apply mirror_rows_range; lia|].
    intros k Hk. rewrite mirror_rows_testbit by lia.
    assert (Hidx : forall c, 0 <= k + c * 4 ->
              mirror_index h (Z.of_nat t) (k + c * 4) = mirror_index h (Z.of_nat (S t)) k ->
              Z.testbit r (k + c * 4) = Z.testbit m (mirror_index h (Z.of_nat (S t)) k)).
    { intros c Hc <-. by apply Hb. }
    pose proof (Z.div_mod k 4 ltac:(lia)) as Hdm.
    pose proof (Z.mod_pos_bound k 4 ltac:(lia)) as Hmod.
    unfold W.
    replace (k + 4 * (h - 1 - 2 * Z.of_nat t)) with (k + (h - 1 - 2 * Z.of_nat t) * 4) by lia.
    replace (k - 4 * (h - 1 - 2 * Z.of_nat t)) with (k + (- (h - 1 - 2 * Z.of_nat t)) * 4) by lia.
    replace k with (k + 0 * 4) at 7 by lia.
    repeat match goal with
           | |- context [(?x <=? ?y)] => destruct (Z.leb_spec x y)
           | |- context [(?x <? ?y)] => destruct (Z.ltb_spec x y)
           end; cbn [andb]; try lia;
      (apply Hidx; [lia|]); rewrite mirror_index_shift, mirror_index_0;
      generalize dependent (k / 4); generalize dependent (k mod 4); intros rr Hmod q Hdm;
      repeat match goal with
             | |- context [(?x <? ?y)] => destruct (Z.ltb_spec x y)
             end; cbn [andb orb]; lia.
Qed.

Lemma mirror_testbit h m k :
  0 <= h <= 8 -> 0 <= m < 2 ^ 32 -> 0 <= k ->
  0 <= mirror h m < 2 ^ 32 /\
  Z.testbit (mirror h m) k
  = Z.testbit m (if k / 4 <? h then 4 * (h - 1 - k / 4) + k mod 4 else k).
Proof.
  intros Hh Hm Hk. unfold mirror.
  assert (Ht : h / 2 = Z.of_nat (Z.to_nat (h / 2))).
  { rewrite Z2Nat.id; [reflexivity | apply Z.div_pos; lia]. }
  assert (H2 : 2 * (h / 2) <= h /\ h <= 2 * (h / 2) + 1).
  { pose proof (Z.div_mod h 2 ltac:(lia)). pose proof (Z.mod_pos_bound h 2 ltac:(lia)).
    lia. }
  rewrite Ht.
  destruct (mirror_prefix h m (Z.to_nat (h / 2)) Hm ltac:(lia) ltac:(lia)) as [Hr Hb].
  split; [exact Hr|]. rewrite Hb, <- Ht, mirror_index_0 by assumption.
  pose proof (Z.div_mod k 4 ltac:(lia)) as Hdm.
  pose proof (Z.mod_pos_bound k 4 ltac:(lia)) as Hmod.
  pose proof (Z.div_pos k 4 Hk ltac:(lia)) as Hq.
  clear Ht Hr Hb.
  remember (k / 4) as q eqn:Eq. remember (k mod 4) as rr eqn:Er.
  remember (h / 2) as t eqn:Et. clear Eq Er Et.
  repeat match goal with
         | |- context [(?x <? ?y)] => destruct (Z.ltb_spec x y)
         end; cbn [andb orb]; f_equal; lia.
Qed.

Lemma row_testbit r m i :
  0 <= r -> 0 <= i ->
  Z.testbit (row r m) i = Z.testbit m (i + 4 * r) && (i <? 4).
Proof.
  intros Hr Hi. unfold row, W.
  by rewrite Z.land_spec, Z.shiftr_spec, Z.testbit_ones_nonneg by lia.
Qed.

Lemma row_eq r r' m m' :
  0 <= r -> 0 <= r' ->
  (forall i, 0 <= i < 4 -> Z.testbit m (i + 4 * r) = Z.testbit m' (i + 4 * r')) ->
  row r m = row r' m'.
Proof.
  intros Hr Hr' Hb. apply Z.bits_inj'. intros i Hi.
  rewrite !row_testbit by assumption.
  destruct (Z.ltb_spec i 4); [|by rewrite !andb_false_r].
  by rewrite Hb by lia.
Qed.

Lemma mirror_row h m r :
  0 <= h <= 8 -> 0 <= m < 2 ^ 32 -> 0 <= r ->
  row r (mirror h m) = row (if r <? h then h - 1 - r else r) m.
Proof.
  intros Hh Hm Hr.
  apply row_eq; [assumption | destruct (Z.ltb_spec r h); lia |].
  intros i Hi. rewrite (proj2 (mirror_testbit h m (i + 4 * r) Hh Hm ltac:(lia))).
  replace (i + 4 * r) with (i + r * 4) by lia.
  rewrite Z.div_add, Z_mod_plus_full, (Z.div_small i 4), (Z.mod_small i 4) by lia.
  rewrite Z.add_0_l. destruct (Z.ltb_spec r h); f_equal; lia.
Qed.

Lemma mirror_involutive h m :
  0 <= h <= 8 -> 0 <= m < 2 ^ 32 -> mirror h (mirror h m) = m.
Proof.
  intros Hh Hm. apply Z.bits_inj'. intros k Hk.
  pose proof (mirror_testbit h m k Hh Hm Hk) as [Hr _].
  rewrite (proj2 (mirror_testbit h (mirror h m) k Hh Hr Hk)).
  pose proof (Z.div_mod k 4 ltac:(lia)) as Hdm.
  pose proof (Z.mod_pos_bound k 4 ltac:(lia)) as Hmod.
  pose proof (Z.div_pos k 4 Hk ltac:(lia)) as Hq.
  destruct (Z.ltb_spec (k / 4) h) as [Hlt|Hge].
  - rewrite (proj2 (mirror_testbit h m (4 * (h - 1 - k / 4) + k mod 4) Hh Hm ltac:(lia))).
    replace (4 * (h - 1 - k / 4) + k mod 4) with (k mod 4 + (h - 1 - k / 4) * 4) by lia.
    rewrite Z.div_add, Z_mod_plus_full, (Z.div_small (k mod 4) 4),
      (Z.mod_small (k mod 4) 4) by lia.
    rewrite Z.add_0_l. destruct (Z.ltb_spec (h - 1 - k / 4) h); [|lia]. f_equal. lia.
  - rewrite (proj2 (mirror_testbit h m k Hh Hm Hk)).
    destruct (Z.ltb_spec (k / 4) h); [lia | reflexivity].
Qed.

Lemma add_orientation_mask g :
  g_mask (add_orientation g) = g_mask g /\
  g_w (add_orientation g) = g_w g /\ g_h (add_orientation g) = g_h g.
Proof. unfold add_orientation. by destruct (redundant _ _ _ _ _). Qed.

Lemma mirror_loop_unfold g : mirror_loop g = mirror_step (mirror_step g).
Proof. reflexivity. Qed.

Lemma mirror_loop_mask g :
  0 <= g_h g <= 8 -> 0 <= g_mask g < 2 ^ 32 ->
  g_mask (mirror_loop g) = g_mask g /\
  g_w (mirror_loop g) = g_w g /\ g_h (mirror_loop g) = g_h g.
Proof.
  intros Hh Hm. rewrite mirror_loop_unfold. unfold mirror_step. simpl.
  destruct (add_orientation_mask g) as (Em & Ew & Eh).
  set (g1 := mk_gen (mirror (g_h (add_orientation g)) (g_mask (add_orientation g)))
                    (g_w (add_orientation g)) (g_h (add_orientation g))
                    (g_idx (add_orientation g)) (g_avail (add_orientation g))).
  destruct (add_orientation_mask g1) as (Em1 & Ew1 & Eh1).
  rewrite Em1, Ew1, Eh1. unfold g1. simpl. rewrite Em, Ew, Eh.
  by rewrite mirror_involutive.
Qed.

(** They are the states [calc_piece] goes through. *)
Lemma calc_piece_rotation_states d a :
  exists g0 g1 g2 g3,
    rotation_states d a = [g0; g1; g2; g3] /\
    g0 = mk_gen (def_mask (pd_def d) (pd_w d) (pd_h d)) (pd_w d) (pd_h d) 0 a /\
    g1 = rotation_step g0 /\ g2 = rotation_step g1 /\ g3 = rotation_step g2 /\
    calc_piece d a =
    mk_po (g_idx (rotation_step g3)) (po_masks (g_avail (rotation_step g3)))
          (po_w (g_avail (rotation_step g3))) (po_h (g_avail (rotation_step g3))).
Proof. do 4 eexists. repeat split; reflexivity. Qed.

Lemma rotation_states_bounded d a g :
  d ∈ piece_definition -> po_shape a -> g ∈ rotation_states d a ->
  0 <= g_h g <= 8 /\ 0 <= g_mask g < 2 ^ 32.
Proof.
  intros Hd (Hm & Hw & Hh) Hg. destruct a as [n ms ws hs]. simpl in Hm, Hw, Hh.
  revert Hg.
  rewrite (list_of_length_8 ms Hm), (list_of_length_8 ws Hw), (list_of_length_8 hs Hh).
  generalize (ms !!! 0%nat) (ms !!! 1%nat) (ms !!! 2%nat) (ms !!! 3%nat)
             (ms !!! 4%nat) (ms !!! 5%nat) (ms !!! 6%nat) (ms !!! 7%nat)
             (ws !!! 0%nat) (ws !!! 1%nat) (ws !!! 2%nat) (ws !!! 3%nat)
             (ws !!! 4%nat) (ws !!! 5%nat) (ws !!! 6%nat) (ws !!! 7%nat)
             (hs !!! 0%nat) (hs !!! 1%nat) (hs !!! 2%nat) (hs !!! 3%nat)
             (hs !!! 4%nat) (hs !!! 5%nat) (hs !!! 6%nat) (hs !!! 7%nat).
  clear Hm Hw Hh. intros. unfold rotation_states in Hg.
  assert (Hb : ((0 <=? g_h g) && (g_h g <=? 8) && (0 <=? g_mask g)
                && (g_mask g <? 2 ^ 32)) = true).
  { unfold piece_definition in Hd.
    repeat (apply elem_of_cons in Hd; destruct Hd as [-> | Hd]);
      [ repeat (apply elem_of_cons in Hg; destruct Hg as [-> | Hg]);
          [vm_compute; reflexivity .. | by apply elem_of_nil in Hg] ..
      | by apply elem_of_nil in Hd]. }
  rewrite !andb_true_iff in Hb. destruct Hb as [[[H1 H2] H3] H4].
  apply Z.leb_le in H1, H2, H3. apply Z.ltb_lt in H4. lia.
Qed.

(** C8. The mirror step of the generator -- the body of the loop over [k],
    which records the orientation and then mirrors it -- trades the bit
    content of the rows [r] and [piece_h - 1 - r] of [mask] for every [r]
    below [piece_h / 2], leaves the other rows, [piece_w] and [piece_h] as
    they are, and applied twice, as the loop over [k] applies it, gives the
    mask back. Hence in each of the 4 iterations of the loop over the
    rotations, for each of the 7 pieces, the rows are traded so, the mask
    after the two mirror steps is the mask the iteration began with, and the
    rotation is computed from it. *)
Theorem mirror_swaps_rows :
  (forall g,
     0 <= g_h g <= 8 -> 0 <= g_mask g < 2 ^ 32 ->
     (forall r, 0 <= r < g_h g / 2 ->
        row r (g_mask (mirror_step g)) = row (g_h g - 1 - r) (g_mask g) /\
        row (g_h g - 1 - r) (g_mask (mirror_step g)) = row r (g_mask g)) /\
     (forall r, g_h g / 2 <= r -> ~ (g_h g - g_h g / 2 <= r < g_h g) ->
        row r (g_mask (mirror_step g)) = row r (g_mask g)) /\
     g_w (mirror_step g) = g_w g /\ g_h (mirror_step g) = g_h g /\
     g_mask (mirror_step (mirror_step g)) = g_mask g /\
     mirror_loop g = mirror_step (mirror_step g)) /\
  (forall d a g,
     d ∈ piece_definition -> po_shape a -> g ∈ rotation_states d a ->
     (0 <= g_h g <= 8 /\ 0 <= g_mask g < 2 ^ 32) /\
     (forall r, 0 <= r < g_h g / 2 ->
        row r (g_mask (mirror_step g)) = row (g_h g - 1 - r) (g_mask g) /\
        row (g_h g - 1 - r) (g_mask (mirror_step g)) = row r (g_mask g)) /\
     g_mask (mirror_loop g) = g_mask g /\
     g_mask (rotation_step g) = rotate (g_mask g) (g_w g) (g_h g) /\
     g_w (rotation_step g) = g_h g /\ g_h (rotation_step g) = g_w g).
Proof.
  assert (Hstep : forall g,
            0 <= g_h g <= 8 -> 0 <= g_mask g < 2 ^ 32 ->
            (forall r, 0 <= r < g_h g / 2 ->
               row r (g_mask (mirror_step g)) = row (g_h g - 1 - r) (g_mask g) /\
               row (g_h g - 1 - r) (g_mask (mirror_step g)) = row r (g_mask g)) /\
            (forall r, g_h g / 2 <= r -> ~ (g_h g - g_h g / 2 <= r < g_h g) ->
               row r (g_mask (mirror_step g)) = row r (g_mask g)) /\
            g_w (mirror_step g) = g_w g /\ g_h (mirror_step g) = g_h g /\
            g_mask (mirror_step (mirror_step g)) = g_mask g /\
            mirror_loop g = mirror_step (mirror_step g)).
  { intros g Hh Hm.
    assert (Estep : g_mask (mirror_step g) = mirror (g_h g) (g_mask g) /\
                    g_w (mirror_step g) = g_w g /\ g_h (mirror_step g) = g_h g).
    { destruct (add_orientation_mask g) as (Em & Ew & Eh).
      unfold mirror_step. cbn [g_mask g_w g_h]. by rewrite Em, Ew, Eh. }
    destruct Estep as (Em & Ew & Eh).
    assert (H2 : 2 * (g_h g / 2) <= g_h g /\ g_h g <= 2 * (g_h g / 2) + 1).
    { pose proof (Z.div_mod (g_h g) 2 ltac:(lia)).
      pose proof (Z.mod_pos_bound (g_h g) 2 ltac:(lia)). lia. }
    assert (Hq : 0 <= g_h g / 2) by (apply Z.div_pos; lia).
    rewrite Em.
    split; [|split; [|split; [|split; [|split]]]].
    - intros r Hr. split.
      + rewrite mirror_row by lia. destruct (Z.ltb_spec r (g_h g)); [reflexivity | lia].
      + rewrite mirror_row by lia.
        destruct (Z.ltb_spec (g_h g - 1 - r) (g_h g)); [f_equal|]; lia.
    - intros r Hr Hnot. rewrite mirror_row by lia.
      destruct (Z.ltb_spec r (g_h g)); [f_equal|reflexivity]. lia.
    - exact Ew.
    - exact Eh.
    - rewrite <- mirror_loop_unfold. apply mirror_loop_mask; assumption.
    - apply mirror_loop_unfold. }
  split; [exact Hstep|].
  intros d a g Hd Ha Hg.
  destruct (rotation_states_bounded d a g Hd Ha Hg) as [Hh Hm].
  destruct (mirror_loop_mask g Hh Hm) as (Em & Ew & Eh).
  split; [split; assumption|].
  split; [exact (proj1 (Hstep g Hh Hm))|].
  split; [exact Em|]. unfold rotation_step. cbn [g_mask g_w g_h].
  rewrite Em, Ew, Eh. auto.
Qed.

Lemma mirror_swaps_rows_witness :
  (row 0 (g_mask (mirror_step (mk_gen 23 3 2 0 zero_po))) = row 1 23 /\
   row 1 (g_mask (mirror_step (mk_gen 23 3 2 0 zero_po))) = row 0 23) /\
  g_mask (mirror_step (mirror_step (mk_gen 23 3 2 0 zero_po))) = 23 /\
  g_mask (rotation_step (mk_gen 23 3 2 0 zero_po)) = rotate 23 3 2.
Proof.
  destruct mirror_swaps_rows as [Hrows Hloop]. split; [|split].
  - assert (H2 : 0 <= g_h (mk_gen 23 3 2 0 zero_po) <= 8) by (simpl; lia).
    assert (Hm : 0 <= g_mask (mk_gen 23 3 2 0 zero_po) < 2 ^ 32) by (simpl; lia).
    destruct (Hrows _ H2 Hm) as (Hr & _). apply (Hr 0).
    vm_compute. split; [discriminate | reflexivity].
  - assert (H2 : 0 <= g_h (mk_gen 23 3 2 0 zero_po) <= 8) by (simpl; lia).
    assert (Hm : 0 <= g_mask (mk_gen 23 3 2 0 zero_po) < 2 ^ 32) by (simpl; lia).
    destruct (Hrows _ H2 Hm) as (_ & _ & _ & _ & Hinv & _). exact Hinv.
  - assert (Hd : mk_piece_def ("###" ++ "#  ") 2 3 ∈ piece_definition)
      by (unfold piece_definition; repeat constructor).
    assert (Ha : po_shape zero_po) by (by repeat split).
    assert (Hg : mk_gen 23 3 2 0 zero_po
                 ∈ rotation_states (mk_piece_def ("###" ++ "#  ") 2 3) zero_po)
      by (unfold rotation_states; constructor).
    destruct (Hloop _ _ _ Hd Ha Hg) as (_ & _ & _ & Hrot & _). exact Hrot.
Defined.

(** ** The pool along a branch *)

Lemma depth_inv_range iter state pa pre :
  depth_inv iter state pa pre -> 0 <= iter <= NUM_PIECES.
Proof. by unfold depth_inv. Qed.

Lemma depth_inv_place iter state pa pre i pm :
  depth_inv iter state pa pre -> iter <= i < NUM_PIECES ->
  pm ∈ placements (rd pa i) -> Z.land pm state = 0 ->
  depth_inv (iter + 1) (Z.lor state pm) (wr pa i (rd pa 0)) (pre ++ [pm]).
Proof. unfold depth_inv. lia. Qed.

Lemma depth_inv_report state s c s' :
  depth_inv NUM_PIECES state (pieces_available s) (masks (solution s)) ->
  found_solution s = Exit c s' -> overlap_exit c s'.
Proof. intros _. apply found_solution_exit. Qed.

Lemma rd_take {A} `{Inhabited A} (l l' : list A) (n : nat) (i : Z) :
  take n l = take n l' -> (Z.to_nat i < n)%nat -> rd l i = rd l' i.
Proof.
  intros Ht Hi. unfold rd. rewrite !list_lookup_total_alt.
  by rewrite <- (lookup_take_lt l n), <- (lookup_take_lt l' n), Ht by assumption.
Qed.

Lemma main_unfold avail solution0 :
  main avail solution0
  = bind (recurse 7 0 0 (mk_world (calc_pieces_available avail) solution0 "" "" []))
         (fun s => Ok (0, s)).
Proof. reflexivity. Qed.

(** C4 fails on the run of [main]. On the branch that places the straight
    piece (piece 0) at depth 0 and the piece 2 at depth 1, [recurse] is
    entered at depth 2 with the slots 2 to 6 holding the pieces 0, 3, 4, 5
    and 6: the piece 0, already placed, is offered again, and the piece 1,
    not placed, is not offered. *)
Theorem placed_piece_offered_again :
  exists s pa sol,
    main zero_avail zero_solution = Ok (0, s) /\
    Recurse 2 1599 pa sol ∈ calls s /\
    piece_mask (rd sol 0) = 15 /\ 15 ∈ placements (rd table 0) /\
    piece_mask (rd sol 1) = 1584 /\ 1584 ∈ placements (rd table 2) /\
    offered 2 pa = [rd table 0; rd table 3; rd table 4; rd table 5; rd table 6] /\
    (rd table 1 ∉ offered 2 pa) /\
    table = calc_pieces_available zero_avail.
Proof.
  destruct (main_run zero_avail zero_solution zero_avail_shape eq_refl) as (s & Hmain & _).
  pose proof Hmain as Hr. rewrite main_unfold, <- table_eq in Hr.
  apply bind_ok in Hr as (s' & Hr & Hs'). injection Hs' as ->.
  set (s0 := mk_world table _ _ _ _) in Hr.
  (* depth 0: the slot 0, its first orientation, at the anchor (0, 0) *)
  assert (A1 : depth_inv 0 0 table (masks (take (Z.to_nat 0) (solution s0)))) by by_eval.
  assert (A2 : Z.of_nat (length (solution s0)) = NUM_PIECES) by by_eval.
  assert (A3 : NUM_PIECES - 0 <= Z.of_nat 7) by by_eval.
  assert (A4 : 0 <= 0 < NUM_PIECES) by by_eval.
  assert (A5 : 0 <= 0 < po_n (rd table 0)) by by_eval.
  assert (A6 : 0 <= 0 < u32 (H - rd (po_h (rd table 0)) 0) + 1) by by_eval.
  assert (A7 : 0 <= 0 < u32 (W - rd (po_w (rd table 0)) 0) + 1) by by_eval.
  assert (A8 : Z.land (u32 (Z.shiftl (rd (po_masks (rd table 0)) 0)
                                     (u32 (0 + u32 (W * 0))))) 0 = 0) by by_eval.
  destruct (recurse_path depth_inv overlap_exit depth_inv_range depth_inv_place
              depth_inv_report 6 0 0 table 0 0 0 0 s0 s eq_refl A1 A2 A3 A4 A5 A6 A7 A8 Hr)
    as (s1 & s2 & Hp1 & _ & Hl1 & Hr1 & evs1 & Hc1).
  change (u32 _) with 15 in Hr1. change (Z.lor 0 15) with 15 in Hr1.
  change (0 + 1) with 1 in Hr1.
  set (s3 := set_solution _ s1) in Hr1.
  set (pa1 := wr table 0 (rd table 0)) in *.
  (* depth 1: the slot 2, its first orientation, at the anchor (0, 1) *)
  assert (B0 : pieces_available s3 = pa1) by exact Hp1.
  assert (B1 : depth_inv 1 15 pa1 (masks (take (Z.to_nat 1) (solution s3)))) by by_eval.
  assert (B2 : Z.of_nat (length (solution s3)) = NUM_PIECES).
  { simpl. unfold wr. rewrite length_insert, Hl1. reflexivity. }
  assert (B3 : NUM_PIECES - 1 <= Z.of_nat 6) by by_eval.
  assert (B4 : 1 <= 2 < NUM_PIECES) by by_eval.
  assert (B5 : 0 <= 0 < po_n (rd pa1 2)) by by_eval.
  assert (B6 : 0 <= 1 < u32 (H - rd (po_h (rd pa1 2)) 0) + 1) by by_eval.
  assert (B7 : 0 <= 0 < u32 (W - rd (po_w (rd pa1 2)) 0) + 1) by by_eval.
  assert (B8 : Z.land (u32 (Z.shiftl (rd (po_masks (rd pa1 2)) 0)
                                     (u32 (0 + u32 (W * 1))))) 15 = 0) by by_eval.
  destruct (recurse_path depth_inv overlap_exit depth_inv_range depth_inv_place
              depth_inv_report 5 1 15 pa1 2 0 1 0 s3 s2 B0 B1 B2 B3 B4 B5 B6 B7 B8 Hr1)
    as (s4 & s5 & Hp4 & Ht4 & Hl4 & Hr4 & evs4 & Hc4).
  change (Z.lor 15 (u32 _)) with 1599 in Hr4.
  change (1 + 1) with 2 in Hr4.
  change (mk_placement (u32 _)) with (mk_placement 1584) in Hr4.
  set (s6 := set_solution _ s4) in Hr4.
  assert (C1 : depth_inv 2 1599 (pieces_available s6)
                 (masks (take (Z.to_nat 2) (solution s6)))) by by_eval.
  assert (C2 : Z.of_nat (length (solution s6)) = NUM_PIECES).
  { simpl. unfold wr. rewrite length_insert, Hl4. exact B2. }
  assert (C3 : NUM_PIECES - 2 <= Z.of_nat 5) by by_eval.
  destruct (recurse_records depth_inv overlap_exit depth_inv_range depth_inv_place
              depth_inv_report 5 2 1599 s6 s5 C1 C2 C3 Hr4) as (evs6 & Hc6).
  assert (Hlen1 : (0 < length (solution s1))%nat) by (rewrite Hl1; simpl; lia).
  assert (Hlen4 : (1 < length (solution s4))%nat).
  { rewrite Hl4. simpl. unfold wr. rewrite length_insert, Hl1. simpl. lia. }
  exists s, (pieces_available s6), (solution s6).
  split; [exact Hmain|]. split; [|split; [|split; [|split; [|split; [|split; [|split]]]]]].
  - rewrite Hc1, Hc4, Hc6. rewrite !elem_of_app. left. left. right. constructor.
  - simpl. rewrite rd_wr_ne by lia.
    rewrite (rd_take _ _ 1 0 Ht4) by lia. simpl. by rewrite rd_wr_eq.
  - apply list_elem_of_In. vm_compute. repeat (first [left; reflexivity | right]).
  - simpl. by rewrite rd_wr_eq.
  - apply list_elem_of_In. vm_compute. repeat (first [left; reflexivity | right]).
  - simpl. rewrite Hp4. reflexivity.
  - simpl. rewrite Hp4. intros Hin. apply list_elem_of_In in Hin.
    vm_compute in Hin. intuition discriminate.
  - apply table_eq.
Qed.

(** ** A reported solution that places a piece twice *)





(** * Further properties of the program *)

(** ** Single bits *)

Lemma land_pow2 m k :
  0 <= k -> (Z.land m (2 ^ k) =? 0) = negb (Z.testbit m k).
Proof.
  intros Hk. destruct (Z.testbit m k) eqn:Hb; simpl.
  - apply Z.eqb_neq. intros Hz.
    pose proof (land_zero_bits m (2 ^ k) k Hz) as Hc.
    rewrite Hb, Z.pow2_bits_true in Hc by assumption. discriminate.
  - apply Z.eqb_eq. apply Z.bits_inj'. intros i Hi.
    rewrite Z.land_spec, Z.bits_0, Z.pow2_bits_eqb by assumption.
    destruct (Z.eqb_spec k i) as [->|]; [by rewrite Hb | apply andb_false_r].
Qed.

Lemma u32_bit k : 0 <= k < 32 -> u32 (Z.shiftl 1 k) = 2 ^ k.
Proof.
  intros Hk. rewrite Z.shiftl_1_l. apply u32_small. split; [lia|].
  apply Z.pow_lt_mono_r; lia.
Qed.

Lemma covers_testbit m x y :
  0 <= x < W -> 0 <= y < H -> covers m x y = Z.testbit m (x + W * y).
Proof.
  intros Hx Hy. unfold covers, W, H in *.
  rewrite (u32_small (4 * y)), (u32_small (x + 4 * y)), u32_bit by lia.
  rewrite land_pow2 by lia. apply negb_involutive.
Qed.

Lemma land_lor_zero a b c :
  Z.land a (Z.lor b c) = 0 <-> Z.land a b = 0 /\ Z.land a c = 0.
Proof. rewrite Z.land_lor_distr_r. apply Z.lor_eq_0_iff. Qed.

Lemma testbit_or_masks l k :
  Z.testbit (or_masks l) k = existsb (fun m => Z.testbit m k) l.
Proof.
  induction l as [|a l IH]; simpl; [apply Z.bits_0|]. by rewrite Z.lor_spec, IH.
Qed.

Lemma testbit_or_masks_take (sol : list placement) (sofar k : Z) :
  0 <= sofar <= Z.of_nat (length sol) ->
  Z.testbit (or_masks (masks (take (Z.to_nat sofar) sol))) k = true <->
  exists i, 0 <= i < sofar /\ Z.testbit (piece_mask (rd sol i)) k = true.
Proof.
  intros Hs. rewrite testbit_or_masks, existsb_exists. split.
  - intros (m & Hin & Hb). apply list_elem_of_In in Hin. unfold masks in Hin.
    apply list_elem_of_fmap in Hin as (p & -> & Hp).
    apply list_elem_of_lookup_1 in Hp as [n Hn].
    pose proof (lookup_lt_Some _ _ _ Hn) as Hlt. rewrite length_take in Hlt.
    rewrite lookup_take_lt in Hn by lia.
    exists (Z.of_nat n). split; [lia|]. unfold rd. rewrite Nat2Z.id.
    by rewrite (list_lookup_total_correct _ _ _ Hn).
  - intros (i & Hi & Hb). exists (piece_mask (rd sol i)). split; [|assumption].
    apply list_elem_of_In. unfold masks. apply list_elem_of_fmap.
    exists (rd sol i). split; [reflexivity|].
    apply (list_elem_of_lookup_2 _ (Z.to_nat i)).
    rewrite lookup_take_lt by lia. unfold rd.
    apply list_lookup_lookup_total_lt. lia.
Qed.

Lemma cell_decompose k : 0 <= k -> exists x y, 0 <= x < W /\ 0 <= y /\ k = x + W * y.
Proof.
  intros Hk. exists (k mod W), (k / W). unfold W.
  pose proof (Z.mod_pos_bound k 4 ltac:(lia)). pose proof (Z.div_pos k 4 Hk ltac:(lia)).
  pose proof (Z.div_mod k 4 ltac:(lia)). lia.
Qed.

Lemma bits_by_cells a b :
  (forall x y, 0 <= x < W -> 0 <= y ->
     Z.testbit a (x + W * y) = Z.testbit b (x + W * y)) -> a = b.
Proof.
  intros Hc. apply Z.bits_inj'. intros k Hk.
  destruct (cell_decompose k Hk) as (x & y & Hx & Hy & ->). by apply Hc.
Qed.

(** ** Texts *)

Lemma string_app_assoc (a b c : string) : ((a ++ b) ++ c = a ++ (b ++ c))%string.
Proof. induction a as [|x a IH]; simpl; [reflexivity | by rewrite IH]. Qed.

Lemma string_app_nil_r (a : string) : (a ++ "" = a)%string.
Proof. induction a as [|x a IH]; simpl; [reflexivity | by rewrite IH]. Qed.

Lemma string_length_app (a b : string) :
  String.length (a ++ b) = (String.length a + String.length b)%nat.
Proof. induction a as [|x a IH]; simpl; [reflexivity | by rewrite IH]. Qed.

Lemma print_nil s : print "" s = s.
Proof. destruct s. unfold print. simpl. by rewrite string_app_nil_r. Qed.

Lemma print_print t u s : print u (print t s) = print (t ++ u) s.
Proof. unfold print. simpl. by rewrite string_app_assoc. Qed.

Lemma text_app {A} (f : A -> string) (l k : list A) :
  text f (l ++ k) = (text f l ++ text f k)%string.
Proof.
  induction l as [|a l IH]; simpl; [reflexivity|]. by rewrite IH, string_app_assoc.
Qed.

Lemma text_length {A} (f : A -> string) (l : list A) (n : nat) :
  (forall a, a ∈ l -> String.length (f a) = n) ->
  String.length (text f l) = (length l * n)%nat.
Proof.
  induction l as [|a l IH]; intros Hl; simpl; [reflexivity|].
  rewrite string_length_app, Hl, IH; [lia| |constructor].
  intros b Hb. apply Hl. by constructor.
Qed.

(** The character [j] of the row [i] of a text of rows of [n] characters. *)
Lemma text_get {A} `{Inhabited A} (f : A -> string) (l : list A) (n i j : nat)
    (rest : string) :
  (forall a, a ∈ l -> String.length (f a) = n) ->
  (i < length l)%nat -> (j < n)%nat ->
  String.get (i * n + j) (text f l ++ rest) = String.get j (f (l !!! i)).
Proof.
  revert i. induction l as [|a l IH]; intros i Hl Hi Hj; simpl in Hi; [lia|].
  simpl. rewrite string_app_assoc. destruct i as [|i]; simpl.
  - symmetry. apply append_correct1. rewrite Hl by constructor. exact Hj.
  - replace (n + i * n + j)%nat with ((i * n + j) + String.length (f a))%nat
      by (rewrite Hl by constructor; lia).
    rewrite <- append_correct2. apply IH; [|lia|assumption].
    intros b Hb. apply Hl. by constructor.
Qed.

Lemma row_text_length (f : Z -> string) (w : Z) :
  0 <= w -> (forall x, String.length (f x) = 1%nat) ->
  String.length (text f (seqZ 0 w) ++ nl) = Z.to_nat (w + 1).
Proof.
  intros Hw Hf. rewrite string_length_app, (text_length _ _ 1) by auto.
  rewrite length_seqZ. simpl. lia.
Qed.

(** The character at the column [x] of the row [y] of a grid of [h] rows of
    [w] one-character cells, each row ended by a newline. *)
Lemma grid_get (f : Z -> Z -> string) (w h x y : Z) :
  (forall x y, String.length (f x y) = 1%nat) ->
  0 <= x < w -> 0 <= y < h ->
  String.get (Z.to_nat (x + (w + 1) * y))
             (text (fun y => text (fun x => f x y) (seqZ 0 w) ++ nl)%string (seqZ 0 h))
  = String.get 0 (f x y).
Proof.
  intros Hf Hx Hy.
  replace (Z.to_nat (x + (w + 1) * y))
    with (Z.to_nat y * Z.to_nat (w + 1) + Z.to_nat x)%nat by lia.
  rewrite <- (string_app_nil_r (text _ (seqZ 0 h))).
  rewrite text_get; [| |rewrite length_seqZ; lia|lia].
  2:{ intros a _. apply row_text_length; [lia | auto]. }
  rewrite lookup_total_seqZ_lt by lia.
  replace (0 + Z.of_nat (Z.to_nat y)) with y by lia.
  replace (Z.to_nat x) with (Z.to_nat x * 1 + 0)%nat by lia.
  rewrite text_get; [| |rewrite length_seqZ; lia|lia].
  2:{ intros a _. apply Hf. }
  rewrite lookup_total_seqZ_lt by lia.
  by replace (0 + Z.of_nat (Z.to_nat x)) with x by lia.
Qed.

Lemma grid_get_newline (f : Z -> Z -> string) (w h y : Z) :
  (forall x y, String.length (f x y) = 1%nat) ->
  0 <= w -> 0 <= y < h ->
  String.get (Z.to_nat (w + (w + 1) * y))
             (text (fun y => text (fun x => f x y) (seqZ 0 w) ++ nl)%string (seqZ 0 h))
  = Some newline.
Proof.
  intros Hf Hw Hy.
  replace (Z.to_nat (w + (w + 1) * y))
    with (Z.to_nat y * Z.to_nat (w + 1) + Z.to_nat w)%nat by lia.
  rewrite <- (string_app_nil_r (text _ (seqZ 0 h))).
  rewrite text_get; [| |rewrite length_seqZ; lia|lia].
  2:{ intros a _. apply row_text_length; [lia | auto]. }
  replace (Z.to_nat w) with (0 + String.length (text (fun x => f x (seqZ 0 h !!! Z.to_nat y)) (seqZ 0 w)))%nat at 1.
  - by rewrite <- append_correct2.
  - rewrite (text_length _ _ 1) by auto. rewrite length_seqZ. lia.
Qed.

Lemma grid_length (f : Z -> Z -> string) (w h : Z) :
  (forall x y, String.length (f x y) = 1%nat) -> 0 <= w -> 0 <= h ->
  String.length (text (fun y => text (fun x => f x y) (seqZ 0 w) ++ nl)%string (seqZ 0 h))
  = Z.to_nat (h * (w + 1)).
Proof.
  intros Hf Hw Hh. rewrite (text_length _ _ (Z.to_nat (w + 1))).
  - rewrite length_seqZ. lia.
  - intros a _. apply row_text_length; [lia | auto].
Qed.

Lemma for_each_print (l : list Z) (body : Z -> world -> outcome world)
    (f : Z -> string) (s : world) :
  (forall i s, i ∈ l -> body i s = Ok (print (f i) s)) ->
  for_each l body s = Ok (print (text f l) s).
Proof.
  revert s. induction l as [|i l IH]; intros s Hb; simpl.
  - by rewrite print_nil.
  - rewrite Hb by constructor. simpl. rewrite IH.
    + by rewrite print_print.
    + intros j s' Hj. apply Hb. by constructor.
Qed.

Lemma for_loop_print (lo n : Z) (body : Z -> world -> world) (f : Z -> string) s :
  (forall i s, body i s = print (f i) s) ->
  for_loop lo n body s = print (text f (seqZ lo n)) s.
Proof.
  intros Hb. unfold for_loop. generalize (seqZ lo n). intros l. revert s.
  induction l as [|i l IH]; intros s; simpl.
  - by rewrite print_nil.
  - by rewrite IH, Hb, print_print.
Qed.

(** ** What [print_piece] draws *)

Lemma print_piece_text mask w h s :
  print_piece mask w h s = print (piece_grid mask w h ++ "--------" ++ nl) s.
Proof.
  unfold print_piece, piece_grid.
  rewrite (for_loop_print 0 h _
             (fun y => (text (fun x => piece_cell mask x y) (seqZ 0 w) ++ nl)%string)).
  - by rewrite print_print.
  - intros y s1. rewrite (for_loop_print 0 w _ (fun x => piece_cell mask x y)).
    + by rewrite print_print.
    + reflexivity.
Qed.

Lemma piece_cell_length mask x y : String.length (piece_cell mask x y) = 1%nat.
Proof. unfold piece_cell. by destruct (negb _). Qed.

Lemma piece_cell_testbit mask x y :
  0 <= x -> 0 <= y -> x + W * y < 32 ->
  piece_cell mask x y = if Z.testbit mask (x + W * y) then "#"%string else " "%string.
Proof.
  intros Hx Hy Hk. unfold piece_cell, W in *.
  rewrite (u32_small (4 * y)), (u32_small (4 * y + x)), u32_bit by lia.
  rewrite land_pow2 by lia. rewrite negb_involutive.
  by replace (4 * y + x) with (x + 4 * y) by lia.
Qed.

(** X1. [print_piece (mask, w, h)], for a box on the board, appends to
    [stdout] a grid of [h] lines of [w] characters and a line of dashes,
    and changes nothing else: the character at the column [x] of the line
    [y] is [#] when the bit [x + W * y] of [mask] is set and a blank when
    it is clear, and every line ends with a newline. *)
Theorem print_piece_draws_the_mask mask w h s :
  0 <= w <= W -> 0 <= h <= H ->
  print_piece mask w h s = print (piece_grid mask w h ++ "--------" ++ nl) s /\
  String.length (piece_grid mask w h) = Z.to_nat (h * (w + 1)) /\
  forall x y, 0 <= y < h ->
    (0 <= x < w ->
     String.get (Z.to_nat (x + (w + 1) * y)) (piece_grid mask w h)
     = Some (if Z.testbit mask (x + W * y) then "#" else " ")%char) /\
    String.get (Z.to_nat (w + (w + 1) * y)) (piece_grid mask w h) = Some newline.
Proof.
  intros Hw Hh. split; [apply print_piece_text|]. split.
  - unfold piece_grid. apply grid_length; [apply piece_cell_length|lia..].
  - intros x y Hy. unfold piece_grid. split.
    + intros Hx. rewrite grid_get by (assumption || apply piece_cell_length).
      rewrite piece_cell_testbit by (unfold W, H in *; lia).
      by destruct (Z.testbit _ _).
    + apply grid_get_newline; [apply piece_cell_length|lia..].
Qed.

Lemma print_piece_draws_the_mask_witness :
  print_piece 23 3 2 six_rows_world
  = print (piece_grid 23 3 2 ++ "--------" ++ nl) six_rows_world /\
  String.length (piece_grid 23 3 2) = Z.to_nat (2 * (3 + 1)) /\
  forall x y, 0 <= y < 2 ->
    (0 <= x < 3 ->
     String.get (Z.to_nat (x + (3 + 1) * y)) (piece_grid 23 3 2)
     = Some (if Z.testbit 23 (x + W * y) then "#" else " ")%char) /\
    String.get (Z.to_nat (3 + (3 + 1) * y)) (piece_grid 23 3 2) = Some newline.
Proof.
  apply print_piece_draws_the_mask; unfold W, H; lia.
Defined.

(** ** What [print_solution] draws *)

Lemma pattern_char_get i :
  0 <= i < NUM_PIECES ->
  exists c, String.get (Z.to_nat i) patterns = Some c /\ pattern_char i = String c EmptyString.
Proof.
  intros Hi. apply (small_index i 7) in Hi as (k & Hk & ->).
  unfold pattern_char. rewrite Nat2Z.id.
  do 7 (destruct k as [|k]; [eexists; split; reflexivity|]). lia.
Qed.

Lemma cell_text_length sol sofar x y : String.length (cell_text sol sofar x y) = 1%nat.
Proof.
  unfold cell_text, pattern_char.
  destruct (coverers sol sofar x y) as [|i l]; [reflexivity|].
  by destruct (String.get _ _).
Qed.

Lemma cell_text_covered sol sofar x y i :
  0 <= sofar <= NUM_PIECES -> 0 <= x < W -> 0 <= y < H -> ~ overlapping sol sofar ->
  0 <= i < sofar -> Z.testbit (piece_mask (rd sol i)) (x + W * y) = true ->
  String.get 0 (cell_text sol sofar x y) = String.get (Z.to_nat i) patterns.
Proof.
  intros Hs Hx Hy Hov Hi Hb. rewrite <- covers_testbit in Hb by assumption.
  assert (Hin : i ∈ coverers sol sofar x y).
  { apply list_elem_of_filter. split; [assumption|]. apply elem_of_seqZ. lia. }
  unfold cell_text.
  destruct (coverers sol sofar x y) as [|a [|b rest]] eqn:Hc.
  - by apply elem_of_nil in Hin.
  - apply list_elem_of_singleton in Hin as <-.
    destruct (pattern_char_get i ltac:(lia)) as (c & Hg & ->). by rewrite Hg.
  - destruct Hov. by eapply coverers_overlapping.
Qed.

Lemma cell_text_blank sol sofar x y :
  0 <= x < W -> 0 <= y < H ->
  (forall i, 0 <= i < sofar -> Z.testbit (piece_mask (rd sol i)) (x + W * y) = false) ->
  cell_text sol sofar x y = " "%string.
Proof.
  intros Hx Hy Hnone. unfold cell_text.
  destruct (coverers sol sofar x y) as [|a rest] eqn:Hc; [reflexivity|].
  assert (Hin : a ∈ coverers sol sofar x y) by (rewrite Hc; constructor).
  apply list_elem_of_filter in Hin as [Hcov Hin]. apply elem_of_seqZ in Hin.
  rewrite covers_testbit, Hnone in Hcov by (assumption || lia). discriminate.
Qed.

Lemma print_cell_text sol sofar x y s :
  0 <= x < W -> 0 <= y < H -> ~ overlapping sol sofar ->
  (do '(found, s) <- print_cell sol sofar x y (0, s);
   if found =? 0 then Ok (print " " s) else Ok s)
  = Ok (print (cell_text sol sofar x y) s).
Proof.
  intros Hx Hy Hov. rewrite print_cell_spec. unfold cell_text.
  destruct (coverers sol sofar x y) as [|i [|j rest]] eqn:Hc; simpl; try reflexivity.
  destruct Hov. by eapply coverers_overlapping.
Qed.

Lemma print_solution_text sol sofar s :
  ~ overlapping sol sofar ->
  print_solution sol sofar s = Ok (print (picture sol sofar) s).
Proof.
  intros Hov. unfold print_solution, for_m, picture, grid_text.
  rewrite (for_each_print (seqZ 0 H) _
             (fun y => (text (fun x => cell_text sol sofar x y) (seqZ 0 W) ++ nl)%string)).
  - simpl. by rewrite print_print.
  - intros y s1 Hy. apply elem_of_seqZ in Hy.
    rewrite (for_each_print (seqZ 0 W) _ (fun x => cell_text sol sofar x y)).
    + simpl. by rewrite print_print.
    + intros x s2 Hx. apply elem_of_seqZ in Hx.
      apply print_cell_text; (lia || assumption).
Qed.

(** X2. [print_solution (solution, sofar)] on masks that do not overlap
    returns, having appended to [stdout] 7 lines of 4 characters and a line
    of dashes: the character at the column [x] of the line [y] is
    [patterns[i]] for the depth [i < sofar] whose mask has the bit
    [x + W * y], a blank when no mask has it, and every line ends with a
    newline. *)
Theorem print_solution_draws_the_board sol sofar s :
  0 <= sofar <= NUM_PIECES -> sofar <= Z.of_nat (length sol) ->
  ~ overlapping sol sofar ->
  exists s',
    print_solution sol sofar s = Ok s' /\
    out s' = (out s ++ grid_text sol sofar ++ "--------" ++ nl)%string /\
    String.length (grid_text sol sofar) = 35%nat /\
    forall x y, 0 <= x < W -> 0 <= y < H ->
      (forall i, 0 <= i < sofar ->
         Z.testbit (piece_mask (rd sol i)) (x + W * y) = true ->
         String.get (Z.to_nat (x + (W + 1) * y)) (grid_text sol sofar)
         = String.get (Z.to_nat i) patterns) /\
      ((forall i, 0 <= i < sofar ->
          Z.testbit (piece_mask (rd sol i)) (x + W * y) = false) ->
       String.get (Z.to_nat (x + (W + 1) * y)) (grid_text sol sofar) = Some " "%char) /\
      String.get (Z.to_nat (W + (W + 1) * y)) (grid_text sol sofar) = Some newline.
Proof.
  intros Hs Hlen Hov.
  exists (print (picture sol sofar) s).
  split; [by apply print_solution_text|]. split; [reflexivity|]. split.
  - unfold grid_text. rewrite grid_length; [reflexivity| |unfold W; lia|unfold H; lia].
    intros x y. apply cell_text_length.
  - intros x y Hx Hy. unfold grid_text. repeat split.
    + intros i Hi Hb. rewrite grid_get by (assumption || apply cell_text_length).
      by apply cell_text_covered.
    + intros Hnone. rewrite grid_get by (assumption || apply cell_text_length).
      by rewrite cell_text_blank.
    + apply grid_get_newline; [apply cell_text_length | unfold W; lia | assumption].
Qed.

Lemma print_solution_draws_the_board_witness :
  exists s',
    print_solution seven_rows NUM_PIECES six_rows_world = Ok s' /\
    out s' = (out six_rows_world ++ grid_text seven_rows NUM_PIECES ++ "--------" ++ nl)%string /\
    String.length (grid_text seven_rows NUM_PIECES) = 35%nat /\
    forall x y, 0 <= x < W -> 0 <= y < H ->
      (forall i, 0 <= i < NUM_PIECES ->
         Z.testbit (piece_mask (rd seven_rows i)) (x + W * y) = true ->
         String.get (Z.to_nat (x + (W + 1) * y)) (grid_text seven_rows NUM_PIECES)
         = String.get (Z.to_nat i) patterns) /\
      ((forall i, 0 <= i < NUM_PIECES ->
          Z.testbit (piece_mask (rd seven_rows i)) (x + W * y) = false) ->
       String.get (Z.to_nat (x + (W + 1) * y)) (grid_text seven_rows NUM_PIECES)
       = Some " "%char) /\
      String.get (Z.to_nat (W + (W + 1) * y)) (grid_text seven_rows NUM_PIECES)
      = Some newline.
Proof.
  apply print_solution_draws_the_board.
  - unfold NUM_PIECES. lia.
  - simpl. unfold NUM_PIECES. lia.
  - apply pairwise_disjoint_not_overlapping; [simpl; unfold NUM_PIECES; lia|].
    apply disjointb_spec. vm_compute. reflexivity.
Defined.

Lemma patterns_not_blank i :
  0 <= i < NUM_PIECES -> String.get (Z.to_nat i) patterns <> Some " "%char.
Proof.
  intros Hi. apply (small_index i 7) in Hi as (k & Hk & ->). rewrite Nat2Z.id.
  do 7 (destruct k as [|k]; [discriminate|]). lia.
Qed.

Lemma patterns_distinct i j :
  0 <= i < NUM_PIECES -> 0 <= j < NUM_PIECES ->
  String.get (Z.to_nat i) patterns = String.get (Z.to_nat j) patterns -> i = j.
Proof.
  intros Hi Hj. apply (small_index i 7) in Hi as (a & Ha & ->).
  apply (small_index j 7) in Hj as (b & Hb & ->). rewrite !Nat2Z.id.
  do 7 (destruct a as [|a]; [do 7 (destruct b as [|b]; [by intros [=] || reflexivity|]); lia|]).
  lia.
Qed.

(** X3. The picture [print_solution] draws of masks that do not overlap
    tells the masks apart: the mask of the depth [i] has the bit
    [x + W * y] exactly when the character at the column [x] of the line
    [y] is [patterns[i]]. *)
Theorem picture_determines_the_masks sol sofar i x y :
  0 <= sofar <= NUM_PIECES -> sofar <= Z.of_nat (length sol) ->
  ~ overlapping sol sofar ->
  0 <= i < sofar -> 0 <= x < W -> 0 <= y < H ->
  Z.testbit (piece_mask (rd sol i)) (x + W * y) = true <->
  String.get (Z.to_nat (x + (W + 1) * y)) (grid_text sol sofar)
  = String.get (Z.to_nat i) patterns.
Proof.
  intros Hs Hlen Hov Hi Hx Hy. unfold grid_text.
  rewrite grid_get by (assumption || apply cell_text_length). split.
  - intros Hb. by apply cell_text_covered.
  - intros Hc. unfold cell_text in Hc.
    destruct (coverers sol sofar x y) as [|j [|j' rest]] eqn:Hcov.
    + exfalso. revert Hc. simpl. intros Hc. symmetry in Hc.
      revert Hc. apply patterns_not_blank. lia.
    + assert (Hj : j ∈ coverers sol sofar x y) by (rewrite Hcov; constructor).
      apply list_elem_of_filter in Hj as [Hcj Hj]. apply elem_of_seqZ in Hj.
      rewrite covers_testbit in Hcj by assumption.
      destruct (pattern_char_get j ltac:(lia)) as (c & Hg & Hp).
      rewrite Hp in Hc. simpl in Hc. rewrite <- Hg in Hc.
      apply patterns_distinct in Hc; [by subst|lia..].
    + destruct Hov. by eapply coverers_overlapping.
Qed.

Lemma picture_determines_the_masks_witness :
  Z.testbit (piece_mask (rd seven_rows 2)) (1 + W * 2) = true <->
  String.get (Z.to_nat (1 + (W + 1) * 2)) (grid_text seven_rows NUM_PIECES)
  = String.get (Z.to_nat 2) patterns.
Proof.
  apply picture_determines_the_masks.
  - unfold NUM_PIECES. lia.
  - simpl. unfold NUM_PIECES. lia.
  - apply pairwise_disjoint_not_overlapping; [simpl; unfold NUM_PIECES; lia|].
    apply disjointb_spec. vm_compute. reflexivity.
  - unfold NUM_PIECES. lia.
  - unfold W. lia.
  - unfold H. lia.
Defined.

(** ** [print_state] and [print_solution] agree *)

(** X4. [print_state (state)] is [print_piece] on the whole board, and
    when [state] is the union of the masks of a solution in progress it
    marks with [#] exactly the cells for which [print_solution] writes a
    pattern character rather than a blank. *)
Theorem print_state_marks_the_cells_of_the_solution sol sofar state s :
  0 <= sofar <= NUM_PIECES -> sofar <= Z.of_nat (length sol) ->
  ~ overlapping sol sofar ->
  state = or_masks (masks (take (Z.to_nat sofar) sol)) ->
  print_state state s = print (piece_grid state W H ++ "--------" ++ nl) s /\
  forall x y, 0 <= x < W -> 0 <= y < H ->
    (String.get (Z.to_nat (x + (W + 1) * y)) (piece_grid state W H) = Some "#"%char <->
     String.get (Z.to_nat (x + (W + 1) * y)) (grid_text sol sofar) <> Some " "%char).
Proof.
  intros Hs Hlen Hov ->. split; [apply print_piece_text|].
  intros x y Hx Hy.
  set (state := or_masks _).
  unfold piece_grid, grid_text.
  rewrite !grid_get
    by (assumption || apply piece_cell_length || apply cell_text_length).
  rewrite piece_cell_testbit by (unfold W, H in *; lia).
  destruct (Z.testbit state (x + W * y)) eqn:Hb.
  - apply testbit_or_masks_take in Hb as (i & Hi & Hb); [|lia].
    rewrite (cell_text_covered sol sofar x y i) by assumption.
    split; [intros _; apply patterns_not_blank; lia | reflexivity].
  - rewrite cell_text_blank; [split; [discriminate | by intros []] |assumption..|].
    intros i Hi. destruct (Z.testbit (piece_mask (rd sol i)) (x + W * y)) eqn:Hbi;
      [|reflexivity].
    assert (Hex : Z.testbit state (x + W * y) = true)
      by (apply testbit_or_masks_take; [lia | eauto]).
    congruence.
Qed.

Lemma print_state_marks_the_cells_of_the_solution_witness :
  print_state 268435455 six_rows_world
  = print (piece_grid 268435455 W H ++ "--------" ++ nl) six_rows_world /\
  forall x y, 0 <= x < W -> 0 <= y < H ->
    (String.get (Z.to_nat (x + (W + 1) * y)) (piece_grid 268435455 W H) = Some "#"%char <->
     String.get (Z.to_nat (x + (W + 1) * y)) (grid_text seven_rows NUM_PIECES)
     <> Some " "%char).
Proof.
  apply print_state_marks_the_cells_of_the_solution.
  - unfold NUM_PIECES. lia.
  - simpl. unfold NUM_PIECES. lia.
  - apply pairwise_disjoint_not_overlapping; [simpl; unfold NUM_PIECES; lia|].
    apply disjointb_spec. vm_compute. reflexivity.
  - vm_compute. reflexivity.
Defined.

(** ** The masks the generator computes, bit by bit *)

Lemma fold_left_testbit (body : Z -> Z -> Z) (g : Z -> bool) (l : list Z) acc k :
  (forall i a, i ∈ l -> Z.testbit (body i a) k = Z.testbit a k || g i) ->
  Z.testbit (fold_left (fun a i => body i a) l acc) k = Z.testbit acc k || existsb g l.
Proof.
  revert acc. induction l as [|i l IH]; intros acc Hb; simpl; [by rewrite orb_false_r|].
  rewrite IH by (intros j a Hj; apply Hb; by constructor).
  rewrite Hb by constructor. by rewrite orb_assoc.
Qed.

Lemma for_loop_testbit (body : Z -> Z -> Z) (g : Z -> bool) lo n acc k :
  (forall i a, lo <= i < lo + n -> Z.testbit (body i a) k = Z.testbit a k || g i) ->
  Z.testbit (for_loop lo n body acc) k = Z.testbit acc k || existsb g (seqZ lo n).
Proof.
  intros Hb. apply fold_left_testbit. intros i a Hi. apply Hb. by apply elem_of_seqZ.
Qed.

Lemma set_bit_testbit (c : bool) a b k :
  0 <= b < 32 ->
  Z.testbit (if c then Z.lor a (u32 (Z.shiftl 1 b)) else a) k
  = Z.testbit a k || (c && (b =? k)).
Proof.
  intros Hb. destruct c; simpl; [|by rewrite orb_false_r].
  by rewrite Z.lor_spec, u32_bit, Z.pow2_bits_eqb by lia.
Qed.

(** Among the cells of a [w] x [h] box, at most one is sent to the bit [k]. *)
Lemma existsb_grid (c : Z -> Z -> bool) (idx : Z -> Z -> Z) (w h k x0 y0 : Z) :
  (forall x y, 0 <= x < w -> 0 <= y < h -> idx x y = k -> x = x0 /\ y = y0) ->
  (0 <= x0 < w -> 0 <= y0 < h -> idx x0 y0 = k) ->
  existsb (fun y => existsb (fun x => c x y && (idx x y =? k)) (seqZ 0 w)) (seqZ 0 h)
  = (0 <=? x0) && (x0 <? w) && (0 <=? y0) && (y0 <? h) && c x0 y0.
Proof.
  intros Hinj Hidx. apply eq_true_iff_eq. rewrite existsb_exists. split.
  - intros (y & Hy & Hex). apply existsb_exists in Hex as (x & Hx & Hc).
    apply list_elem_of_In, elem_of_seqZ in Hx, Hy.
    apply andb_true_iff in Hc as [Hc Hk]. apply Z.eqb_eq in Hk.
    destruct (Hinj x y ltac:(lia) ltac:(lia) Hk) as [-> ->].
    rewrite Hc, !andb_true_iff. repeat split; (apply Z.leb_le || apply Z.ltb_lt); lia.
  - rewrite !andb_true_iff. intros [[[[A B] C] D] Hc].
    apply Z.leb_le in A, C. apply Z.ltb_lt in B, D.
    exists y0. split; [apply list_elem_of_In, elem_of_seqZ; lia|].
    apply existsb_exists. exists x0. split; [apply list_elem_of_In, elem_of_seqZ; lia|].
    rewrite Hc. simpl. apply Z.eqb_eq. apply Hidx; lia.
Qed.

Lemma def_mask_testbit def w h x y :
  0 <= w <= W -> 0 <= h <= H -> 0 <= x < W -> 0 <= y ->
  Z.testbit (def_mask def w h) (x + W * y)
  = (x <? w) && (y <? h) && def_filled def (x + w * y).
Proof.
  intros Hw Hh Hx Hy. unfold def_mask, W, H in *.
  rewrite (for_loop_testbit _
             (fun y' => existsb (fun x' => def_filled def (x' + w * y')
                                           && (x' + 4 * y' =? x + 4 * y)) (seqZ 0 w))).
  - rewrite Z.bits_0. simpl.
    rewrite (existsb_grid (fun x' y' => def_filled def (x' + w * y'))
               (fun x' y' => x' + 4 * y') w h (x + 4 * y) x y) by lia.
    destruct (Z.leb_spec 0 x), (Z.leb_spec 0 y); try lia. simpl.
    by rewrite andb_true_r.
  - intros y' a Hy'.
    apply for_loop_testbit. intros x' a' Hx'.
    rewrite (u32_small (w * y')) by nia.
    rewrite (u32_small (x' + w * y')) by nia.
    rewrite (u32_small (4 * y')), (u32_small (x' + 4 * y')) by lia.
    apply set_bit_testbit. lia.
Qed.

Lemma rotate_testbit m w h x y :
  0 <= w <= W -> 0 <= h <= W -> 0 <= x < W -> 0 <= y ->
  Z.testbit (rotate m w h) (x + W * y)
  = (x <? h) && (y <? w) && Z.testbit m (y + W * (h - 1 - x)).
Proof.
  intros Hw Hh Hx Hy. unfold rotate, W in *.
  rewrite (for_loop_testbit _
             (fun y' => existsb (fun x' => Z.testbit m (x' + 4 * y')
                                           && (4 * x' + (h - 1 - y') =? x + 4 * y))
                                (seqZ 0 w))).
  - rewrite Z.bits_0. simpl.
    rewrite (existsb_grid (fun x' y' => Z.testbit m (x' + 4 * y'))
               (fun x' y' => 4 * x' + (h - 1 - y')) w h (x + 4 * y) y (h - 1 - x)) by lia.
    destruct (Z.leb_spec 0 y), (Z.leb_spec 0 (h - 1 - x)), (Z.ltb_spec (h - 1 - x) h),
      (Z.ltb_spec x h), (Z.ltb_spec y w); simpl; try lia; reflexivity.
  - intros y' a Hy'.
    apply for_loop_testbit. intros x' a' Hx'. cbv zeta.
    rewrite (u32_small (4 * y')), (u32_small (4 * y' + x')) by lia.
    rewrite (u32_small (h - 1)), (u32_small (h - 1 - y')) by lia.
    rewrite (u32_small (4 * x')), (u32_small (4 * x' + (h - 1 - y'))) by lia.
    rewrite u32_bit, land_pow2, negb_involutive by lia.
    replace (4 * y' + x') with (x' + 4 * y') by lia.
    apply set_bit_testbit. lia.
Qed.

Lemma for_loop_inv {S} (P : S -> Prop) lo n (body : Z -> S -> S) s :
  P s -> (forall i a, P a -> P (body i a)) -> P (for_loop lo n body s).
Proof.
  intros Hs Hb. unfold for_loop. generalize (seqZ lo n). intros l. revert s Hs.
  induction l as [|i l IH]; intros s Hs; simpl; auto.
Qed.

Lemma lor_u32_range a b : 0 <= a < 2 ^ 32 -> 0 <= Z.lor a (u32 b) < 2 ^ 32.
Proof.
  intros Ha. pose proof (u32_range b) as Hb. apply range_intro.
  - apply Z.lor_nonneg. lia.
  - intros k Hk. by rewrite Z.lor_spec, !testbit_small by (assumption || lia).
Qed.

Lemma def_mask_range def w h : 0 <= def_mask def w h < 2 ^ 32.
Proof.
  unfold def_mask. apply for_loop_inv; [lia|]. intros y a Ha.
  apply for_loop_inv; [assumption|]. intros x a' Ha'.
  destruct (def_filled _ _); [by apply lor_u32_range | assumption].
Qed.

Lemma rotate_range m w h : 0 <= rotate m w h < 2 ^ 32.
Proof.
  unfold rotate. apply for_loop_inv; [lia|]. intros y a Ha.
  apply for_loop_inv; [assumption|]. intros x a' Ha'. cbv zeta.
  destruct (negb _); [by apply lor_u32_range | assumption].
Qed.

Lemma def_mask_in_box def w h :
  0 <= w <= W -> 0 <= h <= H -> in_box (def_mask def w h) w h.
Proof.
  intros Hw Hh. split; [apply def_mask_range|]. intros x y Hx Hy.
  rewrite def_mask_testbit by assumption. rewrite !andb_true_iff.
  intros [[A B] _]. apply Z.ltb_lt in A, B. lia.
Qed.

Lemma rotate_in_box m w h :
  0 <= w <= W -> 0 <= h <= W -> in_box (rotate m w h) h w.
Proof.
  intros Hw Hh. split; [apply rotate_range|]. intros x y Hx Hy.
  rewrite rotate_testbit by assumption. rewrite !andb_true_iff.
  intros [[A B] _]. apply Z.ltb_lt in A, B. lia.
Qed.

Lemma mirror_in_box m w h :
  0 <= h <= 8 -> in_box m w h -> in_box (mirror h m) w h.
Proof.
  intros Hh [Hm Hbox]. split.
  - apply (mirror_testbit h m 0); (assumption || lia).
  - intros x y Hx Hy. unfold W in *.
    rewrite (proj2 (mirror_testbit h m (x + 4 * y) Hh Hm ltac:(lia))).
    replace (x + 4 * y) with (x + y * 4) by lia.
    rewrite Z.div_add, Z_mod_plus_full, (Z.div_small x 4), (Z.mod_small x 4) by lia.
    rewrite Z.add_0_l. destruct (Z.ltb_spec y h) as [Hlt|Hge]; intros Hb.
    + replace (4 * (h - 1 - y) + x) with (x + 4 * (h - 1 - y)) in Hb by lia.
      apply Hbox in Hb; lia.
    + replace (x + y * 4) with (x + 4 * y) in Hb by lia. apply Hbox in Hb; lia.
Qed.

Lemma in_boxb_spec m w h : in_boxb m w h = true -> in_box m w h.
Proof.
  unfold in_boxb, in_box. rewrite !andb_true_iff, forallb_forall.
  intros [[H0 H1] Hall]. apply Z.leb_le in H0. apply Z.ltb_lt in H1.
  split; [lia|]. intros x y Hx Hy Hb. unfold W in *.
  destruct (Z.ltb_spec (x + 4 * y) 32) as [Hlt|Hge].
  - assert (Hin : In (x + 4 * y) (seqZ 0 32))
      by (apply list_elem_of_In, elem_of_seqZ; lia).
    apply Hall in Hin. rewrite Hb in Hin. cbn [negb orb] in Hin.
    replace (x + 4 * y) with (x + y * 4) in Hin by lia.
    rewrite Z.div_add, Z_mod_plus_full, (Z.div_small x 4), (Z.mod_small x 4) in Hin by lia.
    rewrite andb_true_iff in Hin. destruct Hin as [A B].
    apply Z.ltb_lt in A, B. lia.
  - rewrite testbit_small in Hb by lia. discriminate.
Qed.

(** X5. The mask computed from a definition string of width [w] and height
    [h] that fits the board has the bit [x + W * y] set exactly when the
    character [x + w * y] of the string is not a blank, for the cells of
    the [w] x [h] box, and no bit outside the box; it is a mask on the
    board. *)
Theorem def_mask_marks_the_filled_cells def w h :
  0 <= w <= W -> 0 <= h <= H ->
  on_board (def_mask def w h) /\
  (forall x y c, 0 <= x < w -> 0 <= y < h ->
     String.get (Z.to_nat (x + w * y)) def = Some c ->
     Z.testbit (def_mask def w h) (x + W * y) = negb (Ascii.eqb c " ")) /\
  (forall x y, 0 <= x < W -> 0 <= y ->
     Z.testbit (def_mask def w h) (x + W * y) = true -> x < w /\ y < h).
Proof.
  intros Hw Hh. destruct (def_mask_in_box def w h Hw Hh) as [Hr Hbox].
  split; [|split].
  - apply on_board_intro; [lia|]. intros k Hk.
    destruct (cell_decompose k ltac:(unfold W, H in *; lia)) as (x & y & Hx & Hy & ->).
    destruct (Z.testbit _ _) eqn:Hb; [|reflexivity].
    apply Hbox in Hb; [|assumption..]. unfold W, H in *. lia.
  - intros x y c Hx Hy Hc. rewrite def_mask_testbit by (unfold W in *; lia).
    unfold def_filled. rewrite Hc.
    destruct (Z.ltb_spec x w), (Z.ltb_spec y h); try lia. reflexivity.
  - exact Hbox.
Qed.

Lemma def_mask_marks_the_filled_cells_witness :
  on_board (def_mask "### #  " 3 2) /\
  (forall x y c, 0 <= x < 3 -> 0 <= y < 2 ->
     String.get (Z.to_nat (x + 3 * y)) "### #  " = Some c ->
     Z.testbit (def_mask "### #  " 3 2) (x + W * y) = negb (Ascii.eqb c " ")) /\
  (forall x y, 0 <= x < W -> 0 <= y ->
     Z.testbit (def_mask "### #  " 3 2) (x + W * y) = true -> x < 3 /\ y < 2).
Proof. apply def_mask_marks_the_filled_cells; unfold W, H; lia. Defined.

(** X6. The rotation of a mask in a [w] x [h] box, both at most 4, sends
    the cell [(x, y)] to the cell [(h - 1 - y, x)]: the result has that bit
    exactly when the mask has the bit of [(x, y)], it has no bit outside
    the [h] x [w] box, and it is a 32-bit value. *)
Theorem rotate_turns_the_cells m w h :
  0 <= w <= W -> 0 <= h <= W ->
  0 <= rotate m w h < 2 ^ 32 /\
  (forall x y, 0 <= x < w -> 0 <= y < h ->
     Z.testbit (rotate m w h) ((h - 1 - y) + W * x) = Z.testbit m (x + W * y)) /\
  (forall x y, 0 <= x < W -> 0 <= y ->
     Z.testbit (rotate m w h) (x + W * y) = true -> x < h /\ y < w).
Proof.
  intros Hw Hh. destruct (rotate_in_box m w h Hw Hh) as [Hr Hbox].
  split; [exact Hr|]. split; [|exact Hbox].
  intros x y Hx Hy. rewrite rotate_testbit by (unfold W in *; lia).
  destruct (Z.ltb_spec (h - 1 - y) h), (Z.ltb_spec x w); try lia. simpl.
  f_equal. lia.
Qed.

Lemma rotate_turns_the_cells_witness :
  0 <= rotate 23 3 2 < 2 ^ 32 /\
  (forall x y, 0 <= x < 3 -> 0 <= y < 2 ->
     Z.testbit (rotate 23 3 2) ((2 - 1 - y) + W * x) = Z.testbit 23 (x + W * y)) /\
  (forall x y, 0 <= x < W -> 0 <= y ->
     Z.testbit (rotate 23 3 2) (x + W * y) = true -> x < 2 /\ y < 3).
Proof. apply rotate_turns_the_cells; unfold W; lia. Defined.

(** X7. Four rotations in a row, the width and the height traded at
    each, give back the mask they started from, for a mask inside its
    [w] x [h] box. *)
Theorem four_rotations_give_the_mask_back m w h :
  0 <= w <= W -> 0 <= h <= W -> in_box m w h ->
  rotate (rotate (rotate (rotate m w h) h w) w h) h w = m.
Proof.
  intros Hw Hh [Hm Hbox]. apply bits_by_cells. intros x y Hx Hy.
  rewrite rotate_testbit by assumption.
  destruct (Z.ltb_spec x w) as [Hxw|Hxw], (Z.ltb_spec y h) as [Hyh|Hyh]; simpl.
  - unfold W in *.
    rewrite (rotate_testbit _ w h y (w - 1 - x)) by (unfold W; lia).
    rewrite (rotate_testbit _ h w (w - 1 - x) (h - 1 - y)) by (unfold W; lia).
    rewrite (rotate_testbit m w h (h - 1 - y) (w - 1 - (w - 1 - x))) by (unfold W; lia).
    unfold W.
    destruct (Z.ltb_spec y h), (Z.ltb_spec (w - 1 - x) w), (Z.ltb_spec (h - 1 - y) h),
      (Z.ltb_spec (w - 1 - (w - 1 - x)) w); try lia. simpl. f_equal. lia.
  - destruct (Z.testbit m _) eqn:Hb; [|reflexivity]. apply Hbox in Hb; [lia|assumption..].
  - destruct (Z.testbit m _) eqn:Hb; [|reflexivity]. apply Hbox in Hb; [lia|assumption..].
  - destruct (Z.testbit m _) eqn:Hb; [|reflexivity]. apply Hbox in Hb; [lia|assumption..].
Qed.

Lemma four_rotations_give_the_mask_back_witness :
  rotate (rotate (rotate (rotate 23 3 2) 2 3) 3 2) 2 3 = 23.
Proof.
  apply four_rotations_give_the_mask_back.
  - unfold W. lia.
  - unfold W. lia.
  - change 23 with (def_mask "####  " 3 2). apply def_mask_in_box; unfold W, H; lia.
Defined.

(** ** Counting cells *)

Lemma popcount_sum m : popcount m = sumZ (bit m) cells.
Proof.
  unfold popcount, weight, sumZ, bit. induction cells as [|k l IH]; simpl; [reflexivity|].
  by rewrite IH, andb_true_r.
Qed.

Lemma sumZ_perm f l l' : l ≡ₚ l' -> sumZ f l = sumZ f l'.
Proof. unfold sumZ. induction 1; simpl; lia. Qed.

Lemma sumZ_fmap f (g : Z -> Z) l : sumZ f (g <$> l) = sumZ (fun k => f (g k)) l.
Proof.
  unfold sumZ. induction l as [|k l IH]; [reflexivity|].
  rewrite fmap_cons. cbn [foldr]. by rewrite IH.
Qed.

Lemma sumZ_ext f g l : (forall k, k ∈ l -> f k = g k) -> sumZ f l = sumZ g l.
Proof.
  unfold sumZ. induction l as [|k l IH]; intros Hfg; simpl; [reflexivity|].
  rewrite Hfg, IH; [reflexivity| |constructor]. intros j Hj. apply Hfg. by constructor.
Qed.

Lemma sumZ_filter f (P : Z -> Prop) `{forall k, Decision (P k)} l :
  (forall k, k ∈ l -> ~ P k -> f k = 0) -> sumZ f l = sumZ f (filter P l).
Proof.
  induction l as [|k l IH]; intros Hz; [reflexivity|].
  rewrite filter_cons.
  assert (IH' : sumZ f l = sumZ f (filter P l))
    by (apply IH; intros j Hj; apply Hz; by constructor).
  destruct (decide (P k)) as [Hp|Hn]; unfold sumZ in *; simpl; [by rewrite IH'|].
  rewrite (Hz k) by (constructor || assumption). lia.
Qed.

(** A sum over [T] read through a bijection from [T] to [S] is the sum over
    [S]. *)
Lemma sumZ_bijection f (r r' : Z -> Z) (T S : list Z) :
  NoDup T -> NoDup S ->
  (forall k, k ∈ T -> r k ∈ S /\ r' (r k) = k) ->
  (forall k, k ∈ S -> r' k ∈ T /\ r (r' k) = k) ->
  sumZ (fun k => f (r k)) T = sumZ f S.
Proof.
  intros HT HS Hr Hr'. rewrite <- sumZ_fmap. apply sumZ_perm.
  apply NoDup_Permutation; [|assumption|].
  - apply NoDup_fmap_2_strong; [|assumption].
    intros x y Hx Hy Heq. rewrite <- (proj2 (Hr x Hx)), <- (proj2 (Hr y Hy)). by f_equal.
  - intros x. rewrite list_elem_of_fmap. split.
    + intros (k & -> & Hk). by apply Hr.
    + intros Hx. exists (r' x). destruct (Hr' x Hx) as [Hin Heq]. by split.
Qed.

Lemma cell_div_mod x y : 0 <= x < 4 -> (x + 4 * y) mod 4 = x /\ (x + 4 * y) / 4 = y.
Proof.
  intros Hx. replace (x + 4 * y) with (x + y * 4) by lia.
  rewrite Z_mod_plus_full, Z.div_add, (Z.mod_small x 4), (Z.div_small x 4) by lia. lia.
Qed.

Lemma elem_of_cell k :
  k ∈ cells <-> exists x y, k = x + 4 * y /\ 0 <= x < 4 /\ 0 <= y < 7.
Proof.
  unfold cells, W, H. rewrite elem_of_seqZ. split.
  - intros Hk. exists (k mod 4), (k / 4).
    pose proof (Z.mod_pos_bound k 4 ltac:(lia)). pose proof (Z.div_mod k 4 ltac:(lia)).
    assert (0 <= k / 4 < 7) by (split; [apply Z.div_pos | apply Z.div_lt_upper_bound]; lia).
    lia.
  - intros (x & y & -> & Hx & Hy). lia.
Qed.

Lemma elem_of_box_cells k w h :
  k ∈ box_cells w h <->
  exists x y, k = x + 4 * y /\ 0 <= x < 4 /\ 0 <= y < 7 /\ x < w /\ y < h.
Proof.
  unfold box_cells. rewrite list_elem_of_filter, elem_of_cell. unfold W. split.
  - intros ([Hm Hd] & x & y & -> & Hx & Hy).
    destruct (cell_div_mod x y Hx) as [Em Ed]. rewrite Em, Ed in *.
    exists x, y. lia.
  - intros (x & y & -> & Hx & Hy & Hw & Hh).
    destruct (cell_div_mod x y Hx) as [Em Ed]. rewrite Em, Ed.
    split; [lia|]. exists x, y. lia.
Qed.

Lemma box_cells_NoDup w h : NoDup (box_cells w h).
Proof. apply NoDup_filter, NoDup_seqZ. Qed.

Lemma popcount_box m w h : in_box m w h -> popcount m = sumZ (bit m) (box_cells w h).
Proof.
  intros [Hm Hbox]. rewrite popcount_sum. unfold box_cells. apply sumZ_filter.
  intros k Hk Hout. apply elem_of_cell in Hk as (x & y & -> & Hx & Hy).
  unfold bit. destruct (Z.testbit m (x + 4 * y)) eqn:Hb; [|reflexivity].
  destruct Hout. unfold W. destruct (cell_div_mod x y Hx) as [-> ->].
  apply (Hbox x y); unfold W; (assumption || lia).
Qed.

Lemma rotate_popcount m w h :
  0 <= w <= W -> 0 <= h <= W -> in_box m w h -> popcount (rotate m w h) = popcount m.
Proof.
  intros Hw Hh Hbox.
  rewrite (popcount_box _ _ _ (rotate_in_box m w h Hw Hh)), (popcount_box _ _ _ Hbox).
  unfold W in *.
  rewrite <- (sumZ_bijection (bit m) (fun k => k / 4 + 4 * (h - 1 - k mod 4))
                (fun k => (h - 1 - k / 4) + 4 * (k mod 4))
                (box_cells h w) (box_cells w h));
    try apply box_cells_NoDup.
  - apply sumZ_ext. intros k Hk.
    apply elem_of_box_cells in Hk as (x & y & -> & Hx & Hy & Hxh & Hyw).
    destruct (cell_div_mod x y Hx) as [-> ->]. unfold bit. f_equal.
    pose proof (rotate_testbit m w h x y ltac:(unfold W; lia) ltac:(unfold W; lia)
                  ltac:(unfold W; lia) ltac:(lia)) as E.
    unfold W in E. rewrite E.
    destruct (Z.ltb_spec x h), (Z.ltb_spec y w); try lia. reflexivity.
  - intros k Hk. apply elem_of_box_cells in Hk as (x & y & -> & Hx & Hy & Hxh & Hyw).
    destruct (cell_div_mod x y Hx) as [-> ->].
    destruct (cell_div_mod y (h - 1 - x) ltac:(lia)) as [-> ->].
    split; [|lia]. apply elem_of_box_cells. exists y, (h - 1 - x). lia.
  - intros k Hk. apply elem_of_box_cells in Hk as (x & y & -> & Hx & Hy & Hxw & Hyh).
    destruct (cell_div_mod x y Hx) as [-> ->].
    destruct (cell_div_mod (h - 1 - y) x ltac:(lia)) as [-> ->].
    split; [|lia]. apply elem_of_box_cells. exists (h - 1 - y), x. lia.
Qed.

Lemma mirror_popcount h m :
  0 <= h <= H -> 0 <= m < 2 ^ 32 -> popcount (mirror h m) = popcount m.
Proof.
  intros Hh Hm. rewrite !popcount_sum. unfold H in *.
  assert (Hcells : NoDup cells) by apply NoDup_seqZ.
  rewrite <- (sumZ_bijection (bit m)
                (fun k => if k / 4 <? h then 4 * (h - 1 - k / 4) + k mod 4 else k)
                (fun k => if k / 4 <? h then 4 * (h - 1 - k / 4) + k mod 4 else k)
                cells cells Hcells Hcells).
  - apply sumZ_ext. intros k Hk. apply elem_of_cell in Hk as (x & y & -> & Hx & Hy).
    unfold bit. f_equal. apply mirror_testbit; lia.
  - intros k Hk. apply elem_of_cell in Hk as (x & y & -> & Hx & Hy).
    destruct (cell_div_mod x y Hx) as [-> ->].
    destruct (Z.ltb_spec y h) as [Hlt|Hge].
    + replace (4 * (h - 1 - y) + x) with (x + 4 * (h - 1 - y)) by lia.
      destruct (cell_div_mod x (h - 1 - y) Hx) as [-> ->].
      destruct (Z.ltb_spec (h - 1 - y) h); [|lia].
      split; [|lia]. apply elem_of_cell. exists x, (h - 1 - y). lia.
    + destruct (cell_div_mod x y Hx) as [-> ->].
      destruct (Z.ltb_spec y h); [lia|].
      split; [|reflexivity]. apply elem_of_cell. exists x, y. lia.
  - intros k Hk. apply elem_of_cell in Hk as (x & y & -> & Hx & Hy).
    destruct (cell_div_mod x y Hx) as [-> ->].
    destruct (Z.ltb_spec y h) as [Hlt|Hge].
    + replace (4 * (h - 1 - y) + x) with (x + 4 * (h - 1 - y)) by lia.
      destruct (cell_div_mod x (h - 1 - y) Hx) as [-> ->].
      destruct (Z.ltb_spec (h - 1 - y) h); [|lia].
      split; [|lia]. apply elem_of_cell. exists x, (h - 1 - y). lia.
    + destruct (cell_div_mod x y Hx) as [-> ->].
      destruct (Z.ltb_spec y h); [lia|].
      split; [|reflexivity]. apply elem_of_cell. exists x, y. lia.
Qed.

(** X8. The rotation and the mirror step keep the number of cells of a
    mask that lies inside its [w] x [h] box, both at most 4. *)
Theorem rotation_and_mirroring_keep_the_number_of_cells m w h :
  0 <= w <= W -> 0 <= h <= W -> in_box m w h ->
  popcount (rotate m w h) = popcount m /\ popcount (mirror h m) = popcount m.
Proof.
  intros Hw Hh Hbox. split; [by apply rotate_popcount|].
  apply mirror_popcount; [unfold W, H in *; lia | apply Hbox].
Qed.

Lemma rotation_and_mirroring_keep_the_number_of_cells_witness :
  popcount (rotate 23 3 2) = popcount 23 /\ popcount (mirror 2 23) = popcount 23.
Proof.
  apply rotation_and_mirroring_keep_the_number_of_cells with (w := 3).
  - unfold W. lia.
  - unfold W. lia.
  - apply in_boxb_spec. vm_compute. reflexivity.
Defined.

(** ** What the generator records *)

Lemma redundant_recorded g m w h :
  redundant (g_avail g) (g_idx g) m w h = true <-> (m, w, h) ∈ recorded g.
Proof.
  unfold redundant, recorded, orientations. cbn [po_n po_masks po_w po_h].
  rewrite existsb_exists, list_elem_of_fmap. split.
  - intros (l & Hl & Heq). apply list_elem_of_In in Hl.
    rewrite !andb_true_iff in Heq. destruct Heq as [[A B] C].
    apply Z.eqb_eq in A, B, C. exists l. split; [congruence | assumption].
  - intros (l & Heq & Hl). injection Heq as -> -> ->.
    exists l. split; [by apply list_elem_of_In|]. by rewrite !Z.eqb_refl.
Qed.

Lemma note_length acc o : (length (note acc o) <= length acc + 1)%nat.
Proof. unfold note. destruct (decide _); [lia|]. rewrite length_app. simpl. lia. Qed.

Lemma add_orientation_ok a0 acc g :
  gen_ok a0 acc g -> (length acc < 8)%nat ->
  gen_ok a0 (note acc (g_mask g, g_w g, g_h g)) (add_orientation g).
Proof.
  intros ((Hm & Hw & Hh) & Hidx & Hrec & Hn & Hsame) Hlt.
  unfold add_orientation, note.
  destruct (redundant _ _ _ _ _) eqn:Hred.
  - apply redundant_recorded in Hred. rewrite Hrec in Hred.
    destruct (decide _) as [_|Hno]; [|contradiction].
    exact (conj (conj Hm (conj Hw Hh)) (conj Hidx (conj Hrec (conj Hn Hsame)))).
  - destruct (decide _) as [Hyes|_].
    { rewrite <- Hrec in Hyes. apply redundant_recorded in Hyes. congruence. }
    assert (Hu : u32 (g_idx g + 1) = g_idx g + 1) by (apply u32_small; lia).
    rewrite Hu. unfold gen_ok, po_shape. cbn [g_avail g_idx po_masks po_w po_h po_n].
    split; [|split; [|split; [|split]]].
    + unfold wr. by rewrite !length_insert.
    + rewrite length_app. simpl. lia.
    + unfold recorded, orientations. cbn [g_avail g_idx po_masks po_w po_h po_n].
      rewrite seqZ_app, fmap_app by lia. f_equal.
      * rewrite <- Hrec. unfold recorded, orientations. cbn [po_masks po_w po_h po_n].
        apply list_fmap_ext. intros i j Hj. apply list_elem_of_lookup_2, elem_of_seqZ in Hj.
        by rewrite !rd_wr_ne by lia.
      * assert (Hone : seqZ (0 + g_idx g) 1 = [g_idx g]) by (by rewrite Z.add_0_l).
        rewrite Hone. cbn [fmap list_fmap]. by rewrite !rd_wr_eq by lia.
    + assumption.
    + intros j Hj. cbn [po_masks po_w po_h]. rewrite !rd_wr_ne by lia. apply Hsame. lia.
Qed.

Lemma mirror_step_ok a0 acc g :
  gen_ok a0 acc g -> (length acc < 8)%nat ->
  gen_ok a0 (note acc (g_mask g, g_w g, g_h g)) (mirror_step g) /\
  g_mask (mirror_step g) = mirror (g_h g) (g_mask g) /\
  g_w (mirror_step g) = g_w g /\ g_h (mirror_step g) = g_h g.
Proof.
  intros Hok Hlt. pose proof (add_orientation_ok a0 acc g Hok Hlt) as Hadd.
  destruct (add_orientation_mask g) as (Em & Ew & Eh).
  unfold mirror_step. cbn [g_mask g_w g_h]. rewrite Em, Ew, Eh.
  split; [|auto]. exact Hadd.
Qed.

Lemma rotation_step_ok a0 acc g :
  gen_ok a0 acc g -> (length acc + 2 <= 8)%nat ->
  0 <= g_h g <= 8 -> 0 <= g_mask g < 2 ^ 32 ->
  gen_ok a0 (note (note acc (g_mask g, g_w g, g_h g))
                  (mirror (g_h g) (g_mask g), g_w g, g_h g))
         (rotation_step g) /\
  g_mask (rotation_step g) = rotate (g_mask g) (g_w g) (g_h g) /\
  g_w (rotation_step g) = g_h g /\ g_h (rotation_step g) = g_w g.
Proof.
  intros Hok Hlt Hh Hm.
  destruct (mirror_step_ok a0 acc g Hok ltac:(lia)) as (Hok1 & Em1 & Ew1 & Eh1).
  pose proof (note_length acc (g_mask g, g_w g, g_h g)) as Hl1.
  destruct (mirror_step_ok a0 _ (mirror_step g) Hok1 ltac:(lia)) as (Hok2 & Em2 & Ew2 & Eh2).
  rewrite Em1, Ew1, Eh1 in Hok2.
  unfold rotation_step. rewrite mirror_loop_unfold. cbn [g_mask g_w g_h].
  rewrite Em2, Ew2, Eh2, Em1, Ew1, Eh1, mirror_involutive by assumption.
  split; [|auto]. exact Hok2.
Qed.

Lemma calc_piece_unfold d a :
  calc_piece d a
  = let g := rotation_step (rotation_step (rotation_step (rotation_step
               (mk_gen (def_mask (pd_def d) (pd_w d) (pd_h d)) (pd_w d) (pd_h d) 0 a)))) in
    mk_po (g_idx g) (po_masks (g_avail g)) (po_w (g_avail g)) (po_h (g_avail g)).
Proof. reflexivity. Qed.

Lemma gen_ok_result a acc g :
  gen_ok a acc g ->
  let r := mk_po (g_idx g) (po_masks (g_avail g)) (po_w (g_avail g)) (po_h (g_avail g)) in
  orientations r = acc /\
  po_n r = Z.of_nat (length (orientations r)) /\
  po_shape r /\ same_from (po_n r) a r.
Proof.
  intros (Hs & Hi & Hr & Hn & Hsame). cbv zeta. unfold recorded in Hr.
  rewrite Hr. repeat split; cbn [po_n po_masks po_w po_h]; try apply Hs; try assumption.
  all: apply Hsame; assumption.
Qed.

Lemma rotation_steps_ok d a :
  po_shape a -> 0 <= pd_w d <= W -> 0 <= pd_h d <= W ->
  gen_ok a (fold_left note (candidates d) [])
    (rotation_step (rotation_step (rotation_step (rotation_step
       (mk_gen (def_mask (pd_def d) (pd_w d) (pd_h d)) (pd_w d) (pd_h d) 0 a))))).
Proof.
  intros Ha Hw Hh. unfold W in *.
  remember (pd_w d) as w eqn:Ew. remember (pd_h d) as h eqn:Eh.
  remember (def_mask (pd_def d) w h) as m0 eqn:Em0.
  assert (Hm0 : 0 <= m0 < 2 ^ 32) by (rewrite Em0; apply def_mask_range).
  assert (Hc : candidates d
               = [ (m0, w, h); (mirror h m0, w, h);
                   (rotate m0 w h, h, w); (mirror w (rotate m0 w h), h, w);
                   (rotate (rotate m0 w h) h w, w, h);
                   (mirror h (rotate (rotate m0 w h) h w), w, h);
                   (rotate (rotate (rotate m0 w h) h w) w h, h, w);
                   (mirror w (rotate (rotate (rotate m0 w h) h w) w h), h, w) ]).
  { unfold candidates. rewrite <- Ew, <- Eh, <- Em0. reflexivity. }
  rewrite Hc. clear Hc Em0 Ew Eh. cbn [fold_left].
  pose (g0 := mk_gen m0 w h 0 a).
  assert (Hok0 : gen_ok a [] g0).
  { unfold gen_ok, g0. cbn [g_avail g_idx]. repeat split; try apply Ha. }
  fold g0.
  destruct (rotation_step_ok a _ g0 Hok0 ltac:(simpl; lia) ltac:(simpl; lia) Hm0)
    as (Hok1 & Em1 & Ew1 & Eh1).
  change (g_mask g0) with m0 in *. change (g_w g0) with w in *.
  change (g_h g0) with h in *.
  generalize dependent (rotation_step g0). intros g1 Hok1 Em1 Ew1 Eh1.
  set (acc1 := note (note [] _) _) in *.
  assert (Hl1 : (length acc1 <= 2)%nat).
  { unfold acc1. etransitivity; [apply note_length|].
    pose proof (note_length [] (m0, w, h)). simpl in *. lia. }
  destruct (rotation_step_ok a _ g1 Hok1 ltac:(lia) ltac:(lia)
              ltac:(rewrite Em1; apply rotate_range)) as (Hok2 & Em2 & Ew2 & Eh2).
  rewrite Em1, Ew1, Eh1 in *.
  generalize dependent (rotation_step g1). intros g2 Hok2 Em2 Ew2 Eh2.
  set (acc2 := note (note acc1 _) _) in *.
  assert (Hl2 : (length acc2 <= 4)%nat).
  { unfold acc2. etransitivity; [apply note_length|].
    pose proof (note_length acc1 (rotate m0 w h, h, w)). lia. }
  destruct (rotation_step_ok a _ g2 Hok2 ltac:(lia) ltac:(lia)
              ltac:(rewrite Em2; apply rotate_range)) as (Hok3 & Em3 & Ew3 & Eh3).
  rewrite Em2, Ew2, Eh2 in *.
  generalize dependent (rotation_step g2). intros g3 Hok3 Em3 Ew3 Eh3.
  set (acc3 := note (note acc2 _) _) in *.
  assert (Hl3 : (length acc3 <= 6)%nat).
  { unfold acc3. etransitivity; [apply note_length|].
    pose proof (note_length acc2 (rotate (rotate m0 w h) h w, w, h)). lia. }
  destruct (rotation_step_ok a _ g3 Hok3 ltac:(lia) ltac:(lia)
              ltac:(rewrite Em3; apply rotate_range)) as (Hok4 & _).
  rewrite Em3, Ew3, Eh3 in *.
  exact Hok4.
Qed.

(** What the body of the loop over the pieces leaves in [avail[i]]. *)
Lemma calc_piece_spec d a :
  po_shape a -> 0 <= pd_w d <= W -> 0 <= pd_h d <= W ->
  let r := calc_piece d a in
  orientations r = fold_left note (candidates d) [] /\
  po_n r = Z.of_nat (length (orientations r)) /\
  po_shape r /\ same_from (po_n r) a r.
Proof.
  intros Ha Hw Hh. rewrite calc_piece_unfold.
  exact (gen_ok_result _ _ _ (rotation_steps_ok d a Ha Hw Hh)).
Qed.

Lemma note_spec acc o :
  NoDup acc ->
  NoDup (note acc o) /\ (forall o', o' ∈ note acc o <-> o' ∈ acc \/ o' = o) /\
  acc `prefix_of` note acc o.
Proof.
  intros Hnd. unfold note. destruct (decide (o ∈ acc)) as [Hin|Hout].
  - split; [assumption|]. split; [|reflexivity].
    intros o'. split; [auto|]. intros [Hx | Hx]; [assumption | by subst].
  - split; [|split].
    + apply NoDup_app. split; [assumption|]. split; [|apply NoDup_singleton].
      intros x Hx Hx'. apply list_elem_of_singleton in Hx'. by subst.
    + intros o'. rewrite elem_of_app, list_elem_of_singleton. tauto.
    + by apply prefix_app_r.
Qed.

Lemma fold_note_spec l : forall acc,
  NoDup acc ->
  NoDup (fold_left note l acc) /\
  (forall o, o ∈ fold_left note l acc <-> o ∈ acc \/ o ∈ l) /\
  acc `prefix_of` fold_left note l acc /\
  (length (fold_left note l acc) <= length acc + length l)%nat.
Proof.
  induction l as [|c l IH]; intros acc Hnd; simpl.
  - split; [assumption|]. split; [|split; [reflexivity|lia]].
    intros o. rewrite elem_of_nil. tauto.
  - destruct (note_spec acc c Hnd) as (Hnd1 & Hel1 & Hpre1).
    destruct (IH _ Hnd1) as (Hnd2 & Hel2 & Hpre2 & Hlen2).
    split; [assumption|]. split; [|split].
    + intros o. rewrite Hel2, Hel1, elem_of_cons. tauto.
    + by etransitivity.
    + pose proof (note_length acc c). lia.
Qed.

Lemma fold_note_head c l : [c] `prefix_of` fold_left note (c :: l) [].
Proof.
  change (fold_left note (c :: l) []) with (fold_left note l (note [] c)).
  assert (Hc : note [] c = [c]).
  { unfold note. destruct (decide _) as [Hin|_]; [by apply elem_of_nil in Hin | reflexivity]. }
  rewrite Hc. apply fold_note_spec, NoDup_singleton.
Qed.

Lemma piece_definition_dims d :
  d ∈ piece_definition -> 0 <= pd_w d <= W /\ 0 <= pd_h d <= W.
Proof.
  unfold piece_definition. intros Hd.
  repeat (apply elem_of_cons in Hd; destruct Hd as [-> | Hd]);
    [unfold W; simpl; lia .. | by apply elem_of_nil in Hd].
Qed.

Lemma calc_piece_candidates d a o :
  po_shape a -> 0 <= pd_w d <= W -> 0 <= pd_h d <= W ->
  o ∈ orientations (calc_piece d a) <-> o ∈ candidates d.
Proof.
  intros Ha Hw Hh. destruct (calc_piece_spec d a Ha Hw Hh) as (Ho & _).
  destruct (fold_note_spec (candidates d) [] (NoDup_nil_2)) as (_ & Hel & _).
  rewrite Ho, Hel, elem_of_nil. tauto.
Qed.

Lemma candidates_in_box d m w h :
  0 <= pd_w d <= W -> 0 <= pd_h d <= W -> (m, w, h) ∈ candidates d ->
  in_box m w h /\
  ((w = pd_w d /\ h = pd_h d) \/ (w = pd_h d /\ h = pd_w d)).
Proof.
  intros Hw Hh Hin.
  assert (Hh' : 0 <= pd_h d <= H) by (unfold W, H in *; lia).
  pose proof (def_mask_in_box (pd_def d) _ _ Hw Hh') as B0.
  pose proof (rotate_in_box (def_mask (pd_def d) (pd_w d) (pd_h d)) _ _ Hw Hh) as B1.
  pose proof (rotate_in_box (rotate (def_mask (pd_def d) (pd_w d) (pd_h d))
                                    (pd_w d) (pd_h d)) _ _ Hh Hw) as B2.
  pose proof (rotate_in_box (rotate (rotate (def_mask (pd_def d) (pd_w d) (pd_h d))
                                            (pd_w d) (pd_h d)) (pd_h d) (pd_w d))
                            _ _ Hw Hh) as B3.
  assert (Hh8 : 0 <= pd_h d <= 8) by (unfold W in *; lia).
  assert (Hw8 : 0 <= pd_w d <= 8) by (unfold W in *; lia).
  unfold candidates in Hin. cbv zeta in Hin.
  repeat (apply elem_of_cons in Hin; destruct Hin as [Heq | Hin];
          [injection Heq as -> -> ->; split; [|auto]|]);
    try (by apply elem_of_nil in Hin);
    first [assumption | by apply mirror_in_box].
Qed.

Lemma calc_pieces_available_rd avail i :
  length avail = 7%nat -> 0 <= i < NUM_PIECES ->
  rd (calc_pieces_available avail) i = calc_piece (rd piece_definition i) (rd avail i).
Proof.
  intros Hl Hi. rewrite calc_pieces_available_unfold by assumption.
  apply rd_zip_with; [simpl | rewrite Hl]; unfold NUM_PIECES in Hi; lia.
Qed.

Lemma calc_pieces_available_spec avail i :
  avail_shape avail -> 0 <= i < NUM_PIECES ->
  let r := rd (calc_pieces_available avail) i in
  orientations r = fold_left note (candidates (rd piece_definition i)) [] /\
  po_n r = Z.of_nat (length (orientations r)) /\
  po_shape r /\ same_from (po_n r) (rd avail i) r.
Proof.
  intros [Hl Hs] Hi. rewrite calc_pieces_available_rd by assumption.
  assert (Hd : rd piece_definition i ∈ piece_definition)
    by (apply rd_elem; simpl; unfold NUM_PIECES in Hi; lia).
  destruct (piece_definition_dims _ Hd) as [Hw Hh].
  apply calc_piece_spec; try assumption.
  apply (Forall_elem _ _ _ Hs). apply rd_elem. unfold NUM_PIECES in Hi. lia.
Qed.

(** X9. For any piece definition in a box of at most 4 x 4, and whatever
    the entry held before, the live orientations the generator leaves are
    the four rotations of the definition and their mirror images, each
    recorded once however often the loops come across it, the definition
    itself first; their number [n] is between 1 and 8. *)
Theorem orientations_are_the_rotations_and_mirror_images d a :
  po_shape a -> 0 <= pd_w d <= W -> 0 <= pd_h d <= W ->
  (forall o, o ∈ orientations (calc_piece d a) <-> o ∈ candidates d) /\
  NoDup (orientations (calc_piece d a)) /\
  orientations (calc_piece d a) !! 0%nat
  = Some (def_mask (pd_def d) (pd_w d) (pd_h d), pd_w d, pd_h d) /\
  1 <= po_n (calc_piece d a) <= 8.
Proof.
  intros Ha Hw Hh.
  destruct (calc_piece_spec d a Ha Hw Hh) as (Ho & Hn & _).
  destruct (fold_note_spec (candidates d) [] (NoDup_nil_2)) as (Hnd & Hel & _ & Hlen).
  assert (Hhead : [(def_mask (pd_def d) (pd_w d) (pd_h d), pd_w d, pd_h d)]
                  `prefix_of` fold_left note (candidates d) []).
  { apply fold_note_head. }
  rewrite Hn, Ho. split; [|split; [|split]].
  - intros o. rewrite Hel, elem_of_nil. tauto.
  - exact Hnd.
  - destruct Hhead as [k ->]. reflexivity.
  - destruct Hhead as [k Hk].
    change (length (candidates d)) with 8%nat in Hlen.
    change (length (@nil (Z * Z * Z))) with 0%nat in Hlen.
    rewrite Hk, length_app in Hlen |- *.
    change (length [(def_mask (pd_def d) (pd_w d) (pd_h d), pd_w d, pd_h d)])
      with 1%nat in Hlen |- *.
    lia.
Qed.

Lemma orientations_are_the_rotations_and_mirror_images_witness :
  (forall o, o ∈ orientations (calc_piece (mk_piece_def "####  " 2 3) zero_po)
             <-> o ∈ candidates (mk_piece_def "####  " 2 3)) /\
  NoDup (orientations (calc_piece (mk_piece_def "####  " 2 3) zero_po)) /\
  orientations (calc_piece (mk_piece_def "####  " 2 3) zero_po) !! 0%nat
  = Some (def_mask "####  " 3 2, 3, 2) /\
  1 <= po_n (calc_piece (mk_piece_def "####  " 2 3) zero_po) <= 8.
Proof.
  apply (orientations_are_the_rotations_and_mirror_images (mk_piece_def "####  " 2 3)).
  - by repeat split.
  - unfold W. simpl. lia.
  - unfold W. simpl. lia.
Defined.

(** X10. Every orientation the generator records for a definition in a box
    of at most 4 x 4 has all its cells inside the width and height recorded
    with it, which are those of the definition, as they are or traded. *)
Theorem recorded_orientations_stay_in_their_box d a m w h :
  po_shape a -> 0 <= pd_w d <= W -> 0 <= pd_h d <= W ->
  (m, w, h) ∈ orientations (calc_piece d a) ->
  in_box m w h /\
  ((w = pd_w d /\ h = pd_h d) \/ (w = pd_h d /\ h = pd_w d)).
Proof.
  intros Ha Hw Hh Hin. apply calc_piece_candidates in Hin; try assumption.
  by apply candidates_in_box.
Qed.

Lemma recorded_orientations_stay_in_their_box_witness :
  in_box 547 2 3 /\
  ((2 = pd_w (mk_piece_def "####  " 2 3) /\ 3 = pd_h (mk_piece_def "####  " 2 3)) \/
   (2 = pd_h (mk_piece_def "####  " 2 3) /\ 3 = pd_w (mk_piece_def "####  " 2 3))).
Proof.
  apply (recorded_orientations_stay_in_their_box (mk_piece_def "####  " 2 3) zero_po).
  - by repeat split.
  - unfold W. simpl. lia.
  - unfold W. simpl. lia.
  - apply list_elem_of_In. vm_compute. right. right. left. reflexivity.
Defined.

Lemma candidates_popcount d m w h :
  0 <= pd_w d <= W -> 0 <= pd_h d <= W -> (m, w, h) ∈ candidates d ->
  popcount m = popcount (def_mask (pd_def d) (pd_w d) (pd_h d)).
Proof.
  intros Hw Hh Hin.
  assert (Hh' : 0 <= pd_h d <= H) by (unfold W, H in *; lia).
  assert (Hw' : 0 <= pd_w d <= H) by (unfold W, H in *; lia).
  pose proof (def_mask_in_box (pd_def d) _ _ Hw Hh') as B0.
  pose proof (rotate_in_box (def_mask (pd_def d) (pd_w d) (pd_h d)) _ _ Hw Hh) as B1.
  pose proof (rotate_in_box (rotate (def_mask (pd_def d) (pd_w d) (pd_h d))
                                    (pd_w d) (pd_h d)) _ _ Hh Hw) as B2.
  pose proof (rotate_in_box (rotate (rotate (def_mask (pd_def d) (pd_w d) (pd_h d))
                                            (pd_w d) (pd_h d)) (pd_h d) (pd_w d))
                            _ _ Hw Hh) as B3.
  pose proof (rotate_popcount _ _ _ Hw Hh B0) as P1.
  pose proof (rotate_popcount _ _ _ Hh Hw B1) as P2.
  pose proof (rotate_popcount _ _ _ Hw Hh B2) as P3.
  unfold candidates in Hin. cbv zeta in Hin.
  repeat (apply elem_of_cons in Hin; destruct Hin as [Heq | Hin];
          [injection Heq as -> -> ->|]);
    try (by apply elem_of_nil in Hin);
    rewrite ?mirror_popcount by (assumption || apply B0 || apply B1 || apply B2 || apply B3);
    congruence.
Qed.

(** X11. Every orientation the generator records for a definition in a box
    of at most 4 x 4 has as many cells as the mask of the definition. *)
Theorem orientations_keep_the_number_of_cells d a m w h :
  po_shape a -> 0 <= pd_w d <= W -> 0 <= pd_h d <= W ->
  (m, w, h) ∈ orientations (calc_piece d a) ->
  popcount m = popcount (def_mask (pd_def d) (pd_w d) (pd_h d)).
Proof.
  intros Ha Hw Hh Hin. apply calc_piece_candidates in Hin; try assumption.
  by apply (candidates_popcount d m w h).
Qed.

Lemma orientations_keep_the_number_of_cells_witness :
  popcount 547
  = popcount (def_mask (pd_def (mk_piece_def "####  " 2 3))
                       (pd_w (mk_piece_def "####  " 2 3))
                       (pd_h (mk_piece_def "####  " 2 3))).
Proof.
  apply (orientations_keep_the_number_of_cells (mk_piece_def "####  " 2 3) zero_po 547 2 3).
  - by repeat split.
  - unfold W. simpl. lia.
  - unfold W. simpl. lia.
  - apply list_elem_of_In. vm_compute. right. right. left. reflexivity.
Defined.

(** X12. [calc_pieces_available] keeps the shape of the array, and in each
    of the arrays [masks], [w] and [h] of an entry it leaves the words from
    the index [n] on as they were: it writes the live entries only. *)
Theorem generator_writes_the_live_entries_only avail :
  avail_shape avail ->
  avail_shape (calc_pieces_available avail) /\
  forall i j, 0 <= i < NUM_PIECES -> po_n (rd (calc_pieces_available avail) i) <= j ->
    rd (po_masks (rd (calc_pieces_available avail) i)) j = rd (po_masks (rd avail i)) j /\
    rd (po_w (rd (calc_pieces_available avail) i)) j = rd (po_w (rd avail i)) j /\
    rd (po_h (rd (calc_pieces_available avail) i)) j = rd (po_h (rd avail i)) j.
Proof.
  intros Ha. pose proof Ha as [Hl Hs]. split.
  - split; [by apply calc_pieces_available_length|].
    apply Forall_forall. intros p Hp.
    apply list_elem_of_lookup_1 in Hp as [k Hk].
    pose proof (lookup_lt_Some _ _ _ Hk) as Hlt.
    rewrite calc_pieces_available_length in Hlt by assumption.
    destruct (calc_pieces_available_spec avail (Z.of_nat k) Ha
                ltac:(unfold NUM_PIECES; lia)) as (_ & _ & Hsh & _).
    unfold rd in Hsh. rewrite Nat2Z.id in Hsh.
    by rewrite (list_lookup_total_correct _ _ _ Hk) in Hsh.
  - intros i j Hi Hj.
    destruct (calc_pieces_available_spec avail i Ha Hi) as (_ & _ & _ & Hsame).
    by apply Hsame.
Qed.

Lemma generator_writes_the_live_entries_only_witness :
  avail_shape (calc_pieces_available ones_avail) /\
  forall i j, 0 <= i < NUM_PIECES -> po_n (rd (calc_pieces_available ones_avail) i) <= j ->
    rd (po_masks (rd (calc_pieces_available ones_avail) i)) j
    = rd (po_masks (rd ones_avail i)) j /\
    rd (po_w (rd (calc_pieces_available ones_avail) i)) j = rd (po_w (rd ones_avail i)) j /\
    rd (po_h (rd (calc_pieces_available ones_avail) i)) j = rd (po_h (rd ones_avail i)) j.
Proof.
  apply generator_writes_the_live_entries_only.
  split; [reflexivity | repeat constructor].
Defined.

(** X13. The count [n] and the live orientations that
    [calc_pieces_available] leaves in an entry are the same whatever the
    array held before the call. *)
Theorem table_does_not_depend_on_prior_contents avail avail' i :
  avail_shape avail -> avail_shape avail' -> 0 <= i < NUM_PIECES ->
  po_n (rd (calc_pieces_available avail) i) = po_n (rd (calc_pieces_available avail') i) /\
  orientations (rd (calc_pieces_available avail) i)
  = orientations (rd (calc_pieces_available avail') i).
Proof.
  intros Ha Ha' Hi.
  destruct (calc_pieces_available_spec avail i Ha Hi) as (Ho & Hn & _).
  destruct (calc_pieces_available_spec avail' i Ha' Hi) as (Ho' & Hn' & _).
  rewrite Hn, Hn', Ho, Ho'. auto.
Qed.

Lemma table_does_not_depend_on_prior_contents_witness :
  po_n (rd (calc_pieces_available zero_avail) 4)
  = po_n (rd (calc_pieces_available ones_avail) 4) /\
  orientations (rd (calc_pieces_available zero_avail) 4)
  = orientations (rd (calc_pieces_available ones_avail) 4).
Proof.
  apply table_does_not_depend_on_prior_contents.
  - split; [reflexivity | repeat constructor].
  - split; [reflexivity | repeat constructor].
  - unfold NUM_PIECES. lia.
Defined.

Lemma tightb_spec m w h : tightb m w h = true -> tight m w h.
Proof.
  unfold tightb, tight. rewrite andb_true_iff, !forallb_forall. intros [Hc Hr]. split.
  - intros x Hx. specialize (Hc x ltac:(apply list_elem_of_In, elem_of_seqZ; lia)).
    apply existsb_exists in Hc as (y & Hy & Hb).
    apply list_elem_of_In, elem_of_seqZ in Hy. exists y. split; [lia | assumption].
  - intros y Hy. specialize (Hr y ltac:(apply list_elem_of_In, elem_of_seqZ; lia)).
    apply existsb_exists in Hr as (x & Hx & Hb).
    apply list_elem_of_In, elem_of_seqZ in Hx. exists x. split; [lia | assumption].
Qed.

Lemma table_shapes i :
  0 <= i < NUM_PIECES -> forallb shapeb (orientations (rd table i)) = true.
Proof.
  intros Hi. apply (small_index i 7) in Hi as (k & Hk & ->).
  do 7 (destruct k as [|k]; [vm_compute; reflexivity|]). lia.
Qed.

Lemma generated_pool_ok avail : avail_shape avail -> pool_ok (calc_pieces_available avail).
Proof.
  intros Ha. pose proof Ha as [Hl Hs].
  split; [by apply calc_pieces_available_length|].
  apply Forall_forall. intros p Hp.
  apply list_elem_of_lookup_1 in Hp as [k Hk].
  pose proof (lookup_lt_Some _ _ _ Hk) as Hlt.
  rewrite calc_pieces_available_length in Hlt by assumption.
  assert (Hi : 0 <= Z.of_nat k < NUM_PIECES) by (unfold NUM_PIECES; lia).
  assert (Hp : p = rd (calc_pieces_available avail) (Z.of_nat k)).
  { unfold rd. rewrite Nat2Z.id. symmetry. by apply list_lookup_total_correct. }
  destruct (calc_pieces_available_spec avail _ Ha Hi) as (_ & Hn & Hsh & _).
  rewrite <- Hp in Hn, Hsh.
  assert (Hn8 : 1 <= po_n p <= 8).
  { rewrite Hp, (proj1 (calc_pieces_available_live avail _ Ha Hi)).
    clear -Hlt. do 7 (destruct k as [|k]; [vm_compute; split; discriminate|]). lia. }
  split; [assumption|]. split; [lia|]. intros j Hj.
  assert (Hin : (rd (po_masks p) j, rd (po_w p) j, rd (po_h p) j) ∈ orientations p).
  { unfold orientations. apply list_elem_of_fmap. exists j. split; [reflexivity|].
    apply elem_of_seqZ. lia. }
  rewrite Hp in Hin.
  destruct (generated_orientations_fit avail _ _ _ _ Ha Hi Hin) as (Hw & Hh & Hm).
  rewrite <- Hp in Hw, Hh, Hm. unfold W, H in *. lia.
Qed.

(** X14. The table [calc_pieces_available] generates from the 7 piece
    definitions is a well-formed pool, and each of its live orientations is
    a shape of exactly four cells whose recorded width and height, at most
    4, are those of its bounding box: no cell outside the box, and a cell
    in every column and in every row of it. *)
Theorem generated_orientations_are_tetrominoes avail :
  avail_shape avail ->
  pool_ok (calc_pieces_available avail) /\
  forall i mask w h, 0 <= i < NUM_PIECES ->
    (mask, w, h) ∈ orientations (rd (calc_pieces_available avail) i) ->
    1 <= w <= W /\ 1 <= h <= W /\ popcount mask = 4 /\
    in_box mask w h /\ tight mask w h.
Proof.
  intros Ha. split; [by apply generated_pool_ok|].
  intros i mask w h Hi. rewrite (proj2 (calc_pieces_available_live avail i Ha Hi)).
  intros Ho. pose proof (table_shapes i Hi) as Hb.
  rewrite forallb_forall in Hb. apply list_elem_of_In, Hb in Ho.
  unfold shapeb in Ho. rewrite !andb_true_iff in Ho.
  destruct Ho as [[[[[[H1 H2] H3] H4] H5] H6] H7].
  apply Z.leb_le in H1, H2, H3, H4. apply Z.eqb_eq in H5.
  apply in_boxb_spec in H6. apply tightb_spec in H7. auto 10.
Qed.

Lemma generated_orientations_are_tetrominoes_witness :
  pool_ok (calc_pieces_available ones_avail) /\
  forall i mask w h, 0 <= i < NUM_PIECES ->
    (mask, w, h) ∈ orientations (rd (calc_pieces_available ones_avail) i) ->
    1 <= w <= W /\ 1 <= h <= W /\ popcount mask = 4 /\
    in_box mask w h /\ tight mask w h.
Proof.
  apply generated_orientations_are_tetrominoes.
  split; [reflexivity | repeat constructor].
Defined.

(** ** The pool, the occupancy and the placed masks along the branches of a call *)

Lemma placement_testbit m w h x y a b :
  1 <= w <= W -> 1 <= h <= H -> in_box m w h ->
  0 <= x <= W - w -> 0 <= y <= H - h -> 0 <= a < W -> 0 <= b ->
  Z.testbit (u32 (Z.shiftl m (u32 (x + u32 (W * y))))) (a + W * b)
  = (x <=? a) && (y <=? b) && Z.testbit m ((a - x) + W * (b - y)).
Proof.
  intros Hw Hh [Hm Hbox] Hx Hy Ha Hb. unfold W, H in *.
  rewrite (u32_small (4 * y)), (u32_small (x + 4 * y)) by lia.
  rewrite testbit_u32, Z.shiftl_spec by lia.
  replace (a + 4 * b - (x + 4 * y)) with ((a - x) + 4 * (b - y)) by lia.
  destruct (Z.leb_spec x a) as [Hxa|Hxa], (Z.leb_spec y b) as [Hyb|Hyb]; cbn [andb].
  - destruct (Z.ltb_spec (a + 4 * b) 32) as [|Hge]; [reflexivity|]. cbn [andb].
    destruct (Z.testbit m _) eqn:E; [|reflexivity].
    apply (Hbox (a - x) (b - y)) in E; lia.
  - rewrite Z.testbit_neg_r by lia. apply andb_false_r.
  - destruct (Z.ltb_spec (b - y - 1) 0) as [Hneg|Hpos].
    + rewrite Z.testbit_neg_r by lia. apply andb_false_r.
    + replace ((a - x) + 4 * (b - y)) with ((a - x + 4) + 4 * (b - y - 1)) by lia.
      destruct (Z.testbit m _) eqn:E; [|apply andb_false_r].
      apply (Hbox (a - x + 4) (b - y - 1)) in E; lia.
  - rewrite Z.testbit_neg_r by lia. apply andb_false_r.
Qed.

Lemma elem_of_placed_cells k w h x y :
  k ∈ placed_cells w h x y <->
  exists a b, k = a + 4 * b /\ 0 <= a < 4 /\ 0 <= b < 7 /\
              x <= a < x + w /\ y <= b < y + h.
Proof.
  unfold placed_cells. rewrite list_elem_of_filter, elem_of_cell. unfold W. split.
  - intros ([Hm Hd] & a & b & -> & Ha & Hb).
    destruct (cell_div_mod a b Ha) as [Em Ed]. rewrite Em, Ed in *.
    exists a, b. lia.
  - intros (a & b & -> & Ha & Hb & Hw & Hh).
    destruct (cell_div_mod a b Ha) as [Em Ed]. rewrite Em, Ed.
    split; [lia|]. exists a, b. lia.
Qed.

Lemma placement_popcount m w h x y :
  1 <= w <= W -> 1 <= h <= H -> in_box m w h ->
  0 <= x <= W - w -> 0 <= y <= H - h ->
  popcount (u32 (Z.shiftl m (u32 (x + u32 (W * y))))) = popcount m.
Proof.
  intros Hw Hh Hbox Hx Hy. set (pm := u32 _).
  assert (Hpm : forall a b, 0 <= a < 4 -> 0 <= b ->
            Z.testbit pm (a + 4 * b)
            = (x <=? a) && (y <=? b) && Z.testbit m ((a - x) + 4 * (b - y))).
  { intros a b Ha Hb. apply (placement_testbit m w h x y a b); unfold W; (assumption || lia). }
  rewrite (popcount_box _ _ _ Hbox), popcount_sum.
  rewrite (sumZ_filter (bit pm) (fun k => (x <= k mod W < x + w) /\ (y <= k / W < y + h))).
  2:{ intros k Hk Hout. apply elem_of_cell in Hk as (a & b & -> & Ha & Hb).
      unfold bit. rewrite Hpm by lia.
      destruct (Z.leb_spec x a), (Z.leb_spec y b); cbn [andb]; try reflexivity.
      destruct (Z.testbit m _) eqn:E; [|reflexivity].
      destruct Hout. unfold W. destruct (cell_div_mod a b Ha) as [-> ->].
      destruct Hbox as [_ Hbox]. apply (Hbox (a - x) (b - y)) in E; unfold W in *; lia. }
  fold (placed_cells w h x y). unfold W, H in *.
  rewrite <- (sumZ_bijection (bit m) (fun k => k - (x + 4 * y)) (fun k => k + (x + 4 * y))
                (placed_cells w h x y) (box_cells w h)).
  - apply sumZ_ext. intros k Hk.
    apply elem_of_placed_cells in Hk as (a & b & -> & Ha & Hb & Hxa & Hyb).
    unfold bit. rewrite Hpm by lia.
    destruct (Z.leb_spec x a), (Z.leb_spec y b); try lia. cbn [andb].
    do 2 f_equal. lia.
  - apply NoDup_filter, NoDup_seqZ.
  - apply box_cells_NoDup.
  - intros k Hk. apply elem_of_placed_cells in Hk as (a & b & -> & Ha & Hb & Hxa & Hyb).
    split; [|lia]. apply elem_of_box_cells. exists (a - x), (b - y). lia.
  - intros k Hk. apply elem_of_box_cells in Hk as (a & b & -> & Ha & Hb & Hxa & Hyb).
    split; [|lia]. apply elem_of_placed_cells. exists (a + x), (b + y). lia.
Qed.

(** X15. The mask [mask << (x + W * y)] that [recurse] computes for an
    orientation inside its [w] x [h] box and an anchor within the bounds
    [x <= W - w], [y <= H - h] is the orientation moved by [(x, y)]: the
    cell [(a, b)] goes to [(a + x, b + y)], no other bit is set, nothing is
    cut off by the 32-bit width, the number of cells is kept and the mask
    is on the board. *)
Theorem placement_translates_the_cells m w h x y :
  1 <= w <= W -> 1 <= h <= H -> in_box m w h ->
  0 <= x <= W - w -> 0 <= y <= H - h ->
  on_board (u32 (Z.shiftl m (u32 (x + u32 (W * y))))) /\
  popcount (u32 (Z.shiftl m (u32 (x + u32 (W * y))))) = popcount m /\
  (forall a b, 0 <= a < w -> 0 <= b < h ->
     Z.testbit (u32 (Z.shiftl m (u32 (x + u32 (W * y))))) ((a + x) + W * (b + y))
     = Z.testbit m (a + W * b)) /\
  (forall a b, 0 <= a < W -> 0 <= b ->
     Z.testbit (u32 (Z.shiftl m (u32 (x + u32 (W * y))))) (a + W * b) = true ->
     x <= a < x + w /\ y <= b < y + h).
Proof.
  intros Hw Hh Hbox Hx Hy.
  assert (Hin : forall a b, 0 <= a < W -> 0 <= b ->
            Z.testbit (u32 (Z.shiftl m (u32 (x + u32 (W * y))))) (a + W * b) = true ->
            x <= a < x + w /\ y <= b < y + h).
  { intros a b Ha Hb. rewrite (placement_testbit m w h x y a b) by assumption.
    rewrite !andb_true_iff. intros [[A B] E]. apply Z.leb_le in A, B.
    destruct Hbox as [_ Hbox]. apply (Hbox (a - x) (b - y)) in E; lia. }
  split; [|split; [|split]].
  - apply on_board_intro; [apply u32_range|]. intros k Hk.
    destruct (cell_decompose k ltac:(unfold W, H in *; lia)) as (a & b & Ha & Hb & ->).
    destruct (Z.testbit _ _) eqn:E; [|reflexivity].
    apply Hin in E; [|assumption..]. unfold W, H in *. lia.
  - by apply (placement_popcount m w h).
  - intros a b Ha Hb.
    rewrite (placement_testbit m w h x y (a + x) (b + y) Hw Hh Hbox Hx Hy)
      by (unfold W, H in *; lia).
    destruct (Z.leb_spec x (a + x)), (Z.leb_spec y (b + y)); try lia. cbn [andb].
    f_equal. lia.
  - exact Hin.
Qed.

Lemma placement_translates_the_cells_witness :
  on_board (u32 (Z.shiftl 23 (u32 (1 + u32 (W * 5))))) /\
  popcount (u32 (Z.shiftl 23 (u32 (1 + u32 (W * 5))))) = popcount 23 /\
  (forall a b, 0 <= a < 3 -> 0 <= b < 2 ->
     Z.testbit (u32 (Z.shiftl 23 (u32 (1 + u32 (W * 5))))) ((a + 1) + W * (b + 5))
     = Z.testbit 23 (a + W * b)) /\
  (forall a b, 0 <= a < W -> 0 <= b ->
     Z.testbit (u32 (Z.shiftl 23 (u32 (1 + u32 (W * 5))))) (a + W * b) = true ->
     1 <= a < 1 + 3 /\ 5 <= b < 5 + 2).
Proof.
  apply placement_translates_the_cells.
  - unfold W. lia.
  - unfold H. lia.
  - apply in_boxb_spec. vm_compute. reflexivity.
  - unfold W. lia.
  - unfold H. lia.
Defined.

Lemma placement_on_board m w h x y :
  1 <= w <= W -> 1 <= h <= H -> in_box m w h ->
  0 <= x <= W - w -> 0 <= y <= H - h ->
  on_board (u32 (Z.shiftl m (u32 (x + u32 (W * y))))).
Proof.
  intros Hw Hh Hbox Hx Hy.
  apply on_board_intro; [apply u32_range|]. intros k Hk.
  destruct (cell_decompose k ltac:(unfold W, H in *; lia)) as (a & b & Ha & Hb & ->).
  rewrite (placement_testbit m w h x y a b) by assumption.
  destruct (Z.leb_spec x a) as [Hxa|Hxa], (Z.leb_spec y b) as [Hyb|Hyb]; cbn [andb];
    try reflexivity.
  destruct (Z.testbit m _) eqn:E; [|reflexivity].
  destruct Hbox as [_ Hbox]. apply (Hbox (a - x) (b - y)) in E; unfold W, H in *; lia.
Qed.

Lemma in_box_placements m w h :
  1 <= w <= W -> 1 <= h <= H -> in_box m w h -> popcount m = 4 ->
  Forall tetromino (placements_of (m, w, h)).
Proof.
  intros Hw Hh Hbox Hc. apply Forall_forall. intros pm Hpm.
  unfold placements_of in Hpm.
  apply list_elem_of_bind in Hpm as (y & Hpm & Hy).
  apply list_elem_of_bind in Hpm as (x & Hpm & Hx).
  apply list_elem_of_singleton in Hpm as ->.
  apply elem_of_seqZ in Hx, Hy.
  rewrite (u32_small (W - w)) in Hx by (unfold W in *; lia).
  rewrite (u32_small (H - h)) in Hy by (unfold H in *; lia).
  split.
  - apply (placement_on_board m w h); (assumption || lia).
  - rewrite (placement_popcount m w h) by (assumption || lia). exact Hc.
Qed.

(** X16. For any piece definition of four cells in a box of at most 4 x 4,
    and whatever the entry held before, the entry the generator fills is
    well-formed and every mask the loops of [recurse] compute from it -- a
    live orientation at an anchor within the bounds -- has exactly four
    cells, all on the board. *)
Theorem tetromino_definitions_give_fitting_pieces d a :
  po_shape a -> 1 <= pd_w d <= W -> 1 <= pd_h d <= W ->
  popcount (def_mask (pd_def d) (pd_w d) (pd_h d)) = 4 ->
  well_formed (calc_piece d a) /\ piece_fits (calc_piece d a).
Proof.
  intros Ha Hw Hh Hc.
  assert (Hw0 : 0 <= pd_w d <= W) by lia. assert (Hh0 : 0 <= pd_h d <= W) by lia.
  destruct (calc_piece_spec d a Ha Hw0 Hh0) as (Ho & Hn & Hsh & _).
  destruct (fold_note_spec (candidates d) [] (NoDup_nil_2)) as (_ & _ & _ & Hlen).
  change (length (candidates d)) with 8%nat in Hlen.
  assert (Hall : forall m w h, (m, w, h) ∈ orientations (calc_piece d a) ->
            in_box m w h /\ 1 <= w <= W /\ 1 <= h <= W /\ popcount m = 4).
  { intros m w h Hin. apply calc_piece_candidates in Hin; try assumption.
    destruct (candidates_in_box d m w h Hw0 Hh0 Hin) as [Hbox Hdims].
    rewrite (candidates_popcount d m w h Hw0 Hh0 Hin).
    split; [assumption|]. split; [lia|]. split; [lia | assumption]. }
  split.
  - split; [assumption|]. split.
    + change (length (@nil (Z * Z * Z))) with 0%nat in Hlen. rewrite Hn, Ho. lia.
    + intros j Hj.
      assert (Hin : (rd (po_masks (calc_piece d a)) j, rd (po_w (calc_piece d a)) j,
                     rd (po_h (calc_piece d a)) j) ∈ orientations (calc_piece d a)).
      { unfold orientations. apply list_elem_of_fmap. exists j. split; [reflexivity|].
        apply elem_of_seqZ. lia. }
      destruct (Hall _ _ _ Hin) as ([Hm _] & Hwj & Hhj & _). unfold W, H in *. lia.
  - unfold piece_fits, placements. apply Forall_forall. intros pm Hpm.
    apply list_elem_of_bind in Hpm as ([[m w] h] & Hpm & Hin).
    destruct (Hall _ _ _ Hin) as (Hbox & Hwj & Hhj & Hcj).
    revert pm Hpm. apply Forall_forall.
    apply in_box_placements; try assumption. unfold W, H in *. lia.
Qed.

Lemma tetromino_definitions_give_fitting_pieces_witness :
  well_formed (calc_piece (mk_piece_def " # ###" 2 3) zero_po) /\
  piece_fits (calc_piece (mk_piece_def " # ###" 2 3) zero_po).
Proof.
  apply tetromino_definitions_give_fitting_pieces.
  - by repeat split.
  - unfold W. simpl. lia.
  - unfold W. simpl. lia.
  - vm_compute. reflexivity.
Defined.

Lemma pool_ok_rd pa i j :
  pool_ok pa -> 0 <= i < NUM_PIECES -> 0 <= j < po_n (rd pa i) ->
  1 <= rd (po_w (rd pa i)) j <= W /\ 1 <= rd (po_h (rd pa i)) j <= H /\
  0 <= rd (po_masks (rd pa i)) j < 2 ^ 32.
Proof.
  intros [Hl Hwf] Hi Hj.
  assert (Hin : rd pa i ∈ pa) by (apply rd_elem; unfold NUM_PIECES in *; lia).
  apply (Forall_elem _ _ _ Hwf) in Hin. destruct Hin as (_ & _ & Hall). by apply Hall.
Qed.

(** X17. A call [recurse (iter, state, ...)] on a well-formed pool returns
    unless [print_solution] exits; when it returns, the masks recorded at
    the depths below [iter] are as they were, nothing was written to
    [stderr], and the history has grown, the call itself first. *)
Theorem recurse_keeps_shallower_masks fuel iter state s :
  0 <= iter <= NUM_PIECES -> pool_ok (pieces_available s) ->
  Z.of_nat (length (solution s)) = NUM_PIECES ->
  NUM_PIECES - iter <= Z.of_nat fuel ->
  triple (recurse fuel iter state s)
    (fun s' =>
       (forall d, 0 <= d < iter -> rd (solution s') d = rd (solution s) d) /\
       length (solution s') = length (solution s) /\
       err s' = err s /\
       exists evs,
         calls s' = calls s ++ Recurse iter state (pieces_available s) (solution s) :: evs)
    overlap_exit.
Proof.
  intros Hi _ Hlen Hfuel.
  pose proof (recurse_any fuel iter state s Hi Hlen Hfuel) as Hr.
  destruct (recurse fuel iter state s) as [s'|c s'|] eqn:Heq; simpl in *;
    [|assumption..].
  destruct Hr as (_ & Ht & Hl & He & _).
  repeat split; try assumption.
  - intros d Hd. apply (rd_take _ _ _ _ Ht). lia.
  - apply (recurse_records depth_inv overlap_exit depth_inv_range depth_inv_place
             depth_inv_report fuel iter state s s'); try assumption.
Qed.

Lemma recurse_keeps_shallower_masks_witness :
  triple (recurse 1 6 16777215 six_rows_world)
    (fun s' =>
       (forall d, 0 <= d < 6 -> rd (solution s') d = rd (solution six_rows_world) d) /\
       length (solution s') = length (solution six_rows_world) /\
       err s' = err six_rows_world /\
       exists evs,
         calls s' = calls six_rows_world ++
                    Recurse 6 16777215 (pieces_available six_rows_world)
                            (solution six_rows_world) :: evs)
    overlap_exit.
Proof.
  apply recurse_keeps_shallower_masks.
  - unfold NUM_PIECES. lia.
  - apply pool_okb_spec. vm_compute. reflexivity.
  - reflexivity.
  - unfold NUM_PIECES. lia.
Defined.

Lemma pool_inv_range b pa0 iter state pa pre :
  pool_inv b pa0 iter state pa pre -> 0 <= iter <= NUM_PIECES.
Proof. intros (? & ? & _). lia. Qed.

Lemma pool_inv_place b pa0 iter state pa pre i pm :
  pool_inv b pa0 iter state pa pre -> iter <= i < NUM_PIECES ->
  pm ∈ placements (rd pa i) -> Z.land pm state = 0 ->
  pool_inv b pa0 (iter + 1) (Z.lor state pm) (wr pa i (rd pa 0)) (pre ++ [pm]).
Proof.
  intros (Hb & Hi7 & Hl & Hlow & Hall) Hi _ _.
  assert (H0 : rd pa 0 = rd pa0 0).
  { destruct (Hall 0) as [E|E]; [unfold NUM_PIECES; lia|exact E..]. }
  repeat split; try lia.
  - unfold wr. by rewrite length_insert.
  - intros k Hk. rewrite rd_wr_ne by lia. by apply Hlow.
  - intros k Hk. destruct (Z.eq_dec i k) as [->|Hne].
    + right. rewrite rd_wr_eq; [assumption|]. unfold NUM_PIECES in *. lia.
    + rewrite rd_wr_ne by lia. by apply Hall.
Qed.

Lemma recurse_pool fuel iter state s :
  0 <= iter <= NUM_PIECES -> length (pieces_available s) = 7%nat ->
  Z.of_nat (length (solution s)) = NUM_PIECES ->
  NUM_PIECES - iter <= Z.of_nat fuel ->
  triple (recurse fuel iter state s)
         (searched (pool_inv iter (pieces_available s)) iter s) overlap_exit.
Proof.
  intros Hi Hl Hlen Hfuel. apply recurse_spec; try assumption.
  - apply pool_inv_range.
  - apply pool_inv_place.
  - intros state' s1 c s' _. apply found_solution_exit.
  - repeat split; auto; lia.
Qed.

(** X18. In every call of [recurse] made during a call at the depth
    [iter], the slot 0 of the pool and the slots below [iter] hold what
    they held on entry, and every slot holds what it held on entry or what
    the slot 0 held: a slot that was taken holds the piece of the slot
    0. *)
Theorem slots_hold_own_piece_or_piece_0 fuel iter state s :
  0 <= iter <= NUM_PIECES -> pool_ok (pieces_available s) ->
  Z.of_nat (length (solution s)) = NUM_PIECES ->
  NUM_PIECES - iter <= Z.of_nat fuel ->
  triple (recurse fuel iter state s)
    (fun s' => exists evs, calls s' = calls s ++ evs /\
       forall iter' state' pa' sol', Recurse iter' state' pa' sol' ∈ evs ->
         rd pa' 0 = rd (pieces_available s) 0 /\
         (forall k, 0 <= k < iter -> rd pa' k = rd (pieces_available s) k) /\
         (forall k, 0 <= k < NUM_PIECES ->
            rd pa' k = rd (pieces_available s) k \/
            rd pa' k = rd (pieces_available s) 0))
    overlap_exit.
Proof.
  intros Hi [Hl _] Hlen Hfuel.
  eapply triple_post; [by apply recurse_pool|].
  intros s' (_ & _ & _ & _ & evs & Hc & Hev). exists evs. split; [assumption|].
  intros iter' state' pa' sol' Hin. apply (Forall_elem _ _ _ Hev) in Hin.
  destruct Hin as (_ & _ & _ & Hlow & Hall). repeat split; try assumption.
  destruct (Hall 0) as [E|E]; [unfold NUM_PIECES; lia|exact E..].
Qed.

Lemma slots_hold_own_piece_or_piece_0_witness :
  triple (recurse 1 6 16777215 six_rows_world)
    (fun s' => exists evs, calls s' = calls six_rows_world ++ evs /\
       forall iter' state' pa' sol', Recurse iter' state' pa' sol' ∈ evs ->
         rd pa' 0 = rd (pieces_available six_rows_world) 0 /\
         (forall k, 0 <= k < 6 -> rd pa' k = rd (pieces_available six_rows_world) k) /\
         (forall k, 0 <= k < NUM_PIECES ->
            rd pa' k = rd (pieces_available six_rows_world) k \/
            rd pa' k = rd (pieces_available six_rows_world) 0))
    overlap_exit.
Proof.
  apply slots_hold_own_piece_or_piece_0.
  - unfold NUM_PIECES. lia.
  - apply pool_okb_spec. vm_compute. reflexivity.
  - reflexivity.
  - unfold NUM_PIECES. lia.
Defined.

Lemma occupancy_inv_range b st0 iter state pa pre :
  occupancy_inv b st0 iter state pa pre -> 0 <= iter <= NUM_PIECES.
Proof. intros (? & ? & _). lia. Qed.

Lemma occupancy_inv_place b st0 iter state pa pre i pm :
  occupancy_inv b st0 iter state pa pre -> iter <= i < NUM_PIECES ->
  pm ∈ placements (rd pa i) -> Z.land pm state = 0 ->
  occupancy_inv b st0 (iter + 1) (Z.lor state pm) (wr pa i (rd pa 0)) (pre ++ [pm]).
Proof.
  intros (Hb & Hi7 & Hlen & Hst & Hz & Hd) Hi _ Hfit.
  rewrite Hst in Hfit. apply land_lor_zero in Hfit as [Hf0 Hf1].
  assert (Hdrop : drop (Z.to_nat b) (pre ++ [pm]) = drop (Z.to_nat b) pre ++ [pm])
    by (apply drop_app_le; lia).
  repeat split; try lia.
  - rewrite length_app. simpl. lia.
  - rewrite Hdrop, or_masks_snoc, Hst. symmetry. apply Z.lor_assoc.
  - rewrite Hdrop, or_masks_snoc. apply land_lor_zero. split; [assumption|].
    by rewrite Z.land_comm.
  - rewrite Hdrop. by apply pairwise_disjoint_snoc.
Qed.

Lemma occupancy_inv_entry iter state pa (sol : list placement) :
  0 <= iter <= NUM_PIECES -> Z.of_nat (length sol) = NUM_PIECES ->
  occupancy_inv iter state iter state pa (masks (take (Z.to_nat iter) sol)).
Proof.
  intros Hi Hlen.
  assert (Hl : length (masks (take (Z.to_nat iter) sol)) = Z.to_nat iter).
  { unfold masks. rewrite length_fmap, length_take. lia. }
  unfold occupancy_inv. rewrite drop_ge by lia. simpl.
  rewrite Z.lor_0_r, Z.land_0_r.
  repeat split; try lia.
  intros i j mi mj Hi'. by rewrite lookup_nil in Hi'.
Qed.

Lemma recurse_occupancy fuel iter state s :
  0 <= iter <= NUM_PIECES ->
  Z.of_nat (length (solution s)) = NUM_PIECES ->
  NUM_PIECES - iter <= Z.of_nat fuel ->
  triple (recurse fuel iter state s)
         (searched (occupancy_inv iter state) iter s) overlap_exit.
Proof.
  intros Hi Hlen Hfuel. apply recurse_spec; try assumption.
  - apply occupancy_inv_range.
  - apply occupancy_inv_place.
  - intros state' s1 c s' _. apply found_solution_exit.
  - by apply occupancy_inv_entry.
Qed.

(** X19. In every call of [recurse] made during a call entered with the
    occupancy [state], the occupancy is [state] together with the masks
    placed since; these masks are disjoint from [state] and from one
    another, and so are those of every solution reported, whatever the pool
    holds. *)
Theorem occupancy_is_entry_state_and_placed_masks fuel iter state s :
  0 <= iter <= NUM_PIECES -> pool_ok (pieces_available s) ->
  Z.of_nat (length (solution s)) = NUM_PIECES ->
  NUM_PIECES - iter <= Z.of_nat fuel ->
  triple (recurse fuel iter state s)
    (fun s' => exists evs, calls s' = calls s ++ evs /\
       (forall iter' state' pa' sol', Recurse iter' state' pa' sol' ∈ evs ->
          iter <= iter' <= NUM_PIECES /\
          state' = Z.lor state (or_masks (placed_since iter iter' sol')) /\
          Z.land state (or_masks (placed_since iter iter' sol')) = 0 /\
          pairwise_disjoint (placed_since iter iter' sol')) /\
       (forall sol, Found sol ∈ evs ->
          Z.land state (or_masks (placed_since iter NUM_PIECES sol)) = 0 /\
          pairwise_disjoint (placed_since iter NUM_PIECES sol)))
    overlap_exit.
Proof.
  intros Hi _ Hlen Hfuel.
  eapply triple_post; [by apply recurse_occupancy|].
  intros s' (_ & _ & _ & _ & evs & Hc & Hev). exists evs. split; [assumption|]. split.
  - intros iter' state' pa' sol' Hin. apply (Forall_elem _ _ _ Hev) in Hin.
    destruct Hin as (Hb & Hi7 & _ & Hst & Hz & Hd). unfold placed_since.
    repeat split; try assumption; lia.
  - intros sol Hin. apply (Forall_elem _ _ _ Hev) in Hin.
    destruct Hin as (state' & pa' & Hb & Hi7 & Hl & Hst & Hz & Hd).
    unfold placed_since. unfold masks in Hl. rewrite length_fmap in Hl.
    rewrite take_ge by lia. by split.
Qed.

Lemma occupancy_is_entry_state_and_placed_masks_witness :
  triple (recurse 1 6 16777215 six_rows_world)
    (fun s' => exists evs, calls s' = calls six_rows_world ++ evs /\
       (forall iter' state' pa' sol', Recurse iter' state' pa' sol' ∈ evs ->
          6 <= iter' <= NUM_PIECES /\
          state' = Z.lor 16777215 (or_masks (placed_since 6 iter' sol')) /\
          Z.land 16777215 (or_masks (placed_since 6 iter' sol')) = 0 /\
          pairwise_disjoint (placed_since 6 iter' sol')) /\
       (forall sol, Found sol ∈ evs ->
          Z.land 16777215 (or_masks (placed_since 6 NUM_PIECES sol)) = 0 /\
          pairwise_disjoint (placed_since 6 NUM_PIECES sol)))
    overlap_exit.
Proof.
  apply occupancy_is_entry_state_and_placed_masks.
  - unfold NUM_PIECES. lia.
  - apply pool_okb_spec. vm_compute. reflexivity.
  - reflexivity.
  - unfold NUM_PIECES. lia.
Defined.

Lemma source_inv_range b pa0 iter state pa pre :
  source_inv b pa0 iter state pa pre -> 0 <= iter <= NUM_PIECES.
Proof. intros (? & ? & _). lia. Qed.

Lemma source_inv_place b pa0 iter state pa pre i pm :
  source_inv b pa0 iter state pa pre -> iter <= i < NUM_PIECES ->
  pm ∈ placements (rd pa i) -> Z.land pm state = 0 ->
  source_inv b pa0 (iter + 1) (Z.lor state pm) (wr pa i (rd pa 0)) (pre ++ [pm]).
Proof.
  intros (Hb & Hi7 & Hl & Hlen & Hsub & Hpre) Hi Hpm _.
  assert (Hdrop : drop (Z.to_nat b) (pre ++ [pm]) = drop (Z.to_nat b) pre ++ [pm])
    by (apply drop_app_le; lia).
  assert (Hrd : forall k, 0 <= k < NUM_PIECES -> rd pa k ∈ pa0).
  { intros k Hk. apply Hsub, rd_elem. unfold NUM_PIECES in *. lia. }
  repeat split; try lia.
  - unfold wr. by rewrite length_insert.
  - rewrite length_app. simpl. lia.
  - intros p Hp. unfold wr in Hp. apply list_elem_of_lookup_1 in Hp as [k Hk].
    destruct (decide (k = Z.to_nat i)) as [->|Hne].
    + rewrite list_lookup_insert_eq in Hk by (unfold NUM_PIECES in *; lia).
      injection Hk as <-. apply Hrd. unfold NUM_PIECES. lia.
    + rewrite list_lookup_insert_ne in Hk by congruence.
      apply Hsub. by apply list_elem_of_lookup_2 in Hk.
  - rewrite Hdrop. apply Forall_app. split; [assumption|].
    constructor; [|constructor]. exists (rd pa i). split; [|assumption].
    apply Hrd. lia.
Qed.

Lemma recurse_source fuel iter state s :
  0 <= iter <= NUM_PIECES -> length (pieces_available s) = 7%nat ->
  Z.of_nat (length (solution s)) = NUM_PIECES ->
  NUM_PIECES - iter <= Z.of_nat fuel ->
  triple (recurse fuel iter state s)
         (searched (source_inv iter (pieces_available s)) iter s) overlap_exit.
Proof.
  intros Hi Hl Hlen Hfuel. apply recurse_spec; try assumption.
  - apply source_inv_range.
  - apply source_inv_place.
  - intros state' s1 c s' _. apply found_solution_exit.
  - assert (Hl' : length (masks (take (Z.to_nat iter) (solution s))) = Z.to_nat iter).
    { unfold masks. rewrite length_fmap, length_take. lia. }
    unfold source_inv. rewrite drop_ge by lia.
    repeat split; auto; try lia.
Qed.

(** X20. Every mask placed during a call of [recurse], in the nested
    calls and in the solutions reported, is a live orientation of an entry
    the pool held on entry, shifted to an anchor inside the bounds of the
    loops over [x] and [y]. *)
Theorem placed_masks_are_placements_of_the_pool fuel iter state s :
  0 <= iter <= NUM_PIECES -> pool_ok (pieces_available s) ->
  Z.of_nat (length (solution s)) = NUM_PIECES ->
  NUM_PIECES - iter <= Z.of_nat fuel ->
  triple (recurse fuel iter state s)
    (fun s' => exists evs, calls s' = calls s ++ evs /\
       (forall iter' state' pa' sol' m,
          Recurse iter' state' pa' sol' ∈ evs -> m ∈ placed_since iter iter' sol' ->
          exists p, p ∈ pieces_available s /\ m ∈ placements p) /\
       (forall sol m,
          Found sol ∈ evs -> m ∈ placed_since iter NUM_PIECES sol ->
          exists p, p ∈ pieces_available s /\ m ∈ placements p))
    overlap_exit.
Proof.
  intros Hi [Hl _] Hlen Hfuel.
  eapply triple_post; [by apply recurse_source|].
  intros s' (_ & _ & _ & _ & evs & Hc & Hev). exists evs. split; [assumption|]. split.
  - intros iter' state' pa' sol' m Hin Hm. apply (Forall_elem _ _ _ Hev) in Hin.
    destruct Hin as (_ & _ & _ & _ & _ & Hpre).
    apply (Forall_elem _ _ _ Hpre Hm).
  - intros sol m Hin Hm. apply (Forall_elem _ _ _ Hev) in Hin.
    destruct Hin as (state' & pa' & _ & _ & _ & Hl' & _ & Hpre).
    unfold placed_since in Hm. unfold masks in Hl'. rewrite length_fmap in Hl'.
    rewrite take_ge in Hm by lia.
    apply (Forall_elem _ _ _ Hpre Hm).
Qed.

Lemma placed_masks_are_placements_of_the_pool_witness :
  triple (recurse 1 6 16777215 six_rows_world)
    (fun s' => exists evs, calls s' = calls six_rows_world ++ evs /\
       (forall iter' state' pa' sol' m,
          Recurse iter' state' pa' sol' ∈ evs -> m ∈ placed_since 6 iter' sol' ->
          exists p, p ∈ pieces_available six_rows_world /\ m ∈ placements p) /\
       (forall sol m,
          Found sol ∈ evs -> m ∈ placed_since 6 NUM_PIECES sol ->
          exists p, p ∈ pieces_available six_rows_world /\ m ∈ placements p))
    overlap_exit.
Proof.
  apply placed_masks_are_placements_of_the_pool.
  - unfold NUM_PIECES. lia.
  - apply pool_okb_spec. vm_compute. reflexivity.
  - reflexivity.
  - unfold NUM_PIECES. lia.
Defined.

(** X21. The search leaves no placement out: a call at the depth [iter]
    that returns has called [recurse] at the depth [iter + 1] for every
    slot [i >= iter], every live orientation [j] of it and every anchor
    [(x, y)] inside the bounds at which the shifted mask does not meet
    [state], with the mask added to the occupancy and recorded at the depth
    [iter], the slot [i] holding the piece of the slot 0, and the masks
    below [iter] as they were. *)
Theorem every_fitting_placement_is_tried fuel iter state s s' i j x y :
  0 <= iter < NUM_PIECES -> pool_ok (pieces_available s) ->
  Z.of_nat (length (solution s)) = NUM_PIECES ->
  NUM_PIECES - iter <= Z.of_nat (S fuel) ->
  iter <= i < NUM_PIECES ->
  0 <= j < po_n (rd (pieces_available s) i) ->
  0 <= x <= W - rd (po_w (rd (pieces_available s) i)) j ->
  0 <= y <= H - rd (po_h (rd (pieces_available s) i)) j ->
  Z.land (u32 (Z.shiftl (rd (po_masks (rd (pieces_available s) i)) j) (x + W * y)))
         state = 0 ->
  recurse (S fuel) iter state s = Ok s' ->
  exists sol,
    Recurse (iter + 1)
            (Z.lor state
               (u32 (Z.shiftl (rd (po_masks (rd (pieces_available s) i)) j) (x + W * y))))
            (wr (pieces_available s) i (rd (pieces_available s) 0)) sol ∈ calls s' /\
    piece_mask (rd sol iter)
    = u32 (Z.shiftl (rd (po_masks (rd (pieces_available s) i)) j) (x + W * y)) /\
    forall d, 0 <= d < iter -> rd sol d = rd (solution s) d.
Proof.
  intros Hi Hpool Hlen Hfuel Hslot Hj Hx Hy Hfit Hr.
  destruct (pool_ok_rd _ i j Hpool ltac:(lia) Hj) as (Hw & Hh & Hm).
  set (pa := pieces_available s) in *.
  assert (Hsh : u32 (x + u32 (W * y)) = x + W * y).
  { unfold W, H in *. rewrite (u32_small (4 * y)) by lia. apply u32_small. lia. }
  assert (Hxm : u32 (W - rd (po_w (rd pa i)) j) = W - rd (po_w (rd pa i)) j)
    by (apply u32_small; unfold W in *; lia).
  assert (Hym : u32 (H - rd (po_h (rd pa i)) j) = H - rd (po_h (rd pa i)) j)
    by (apply u32_small; unfold H in *; lia).
  destruct (recurse_path depth_inv overlap_exit depth_inv_range depth_inv_place
              depth_inv_report fuel iter state pa i j y x s s' eq_refl)
    as (s1 & s2 & Hp1 & Ht1 & Hl1 & Hrec & evs & Hc); try assumption.
  { unfold depth_inv. lia. }
  { lia. }
  { lia. }
  { by rewrite Hsh. }
  rewrite Hsh in Hrec.
  set (pm := u32 (Z.shiftl _ _)) in *.
  set (s3 := set_solution _ s1) in Hrec.
  assert (Hlen3 : Z.of_nat (length (solution s3)) = NUM_PIECES).
  { simpl. unfold wr. rewrite length_insert, Hl1. exact Hlen. }
  destruct (recurse_records depth_inv overlap_exit depth_inv_range depth_inv_place
              depth_inv_report fuel (iter + 1) (Z.lor state pm) s3 s2) as (evs' & Hc');
    try assumption.
  { unfold depth_inv. lia. }
  { lia. }
  exists (solution s3). repeat split.
  - rewrite Hc, Hc'. simpl. rewrite Hp1.
    rewrite !elem_of_app. left. right. constructor.
  - simpl. rewrite rd_wr_eq; [reflexivity|]. rewrite Hl1. unfold NUM_PIECES in *. lia.
  - intros d Hd. simpl. rewrite rd_wr_ne by lia.
    apply (rd_take _ _ _ _ Ht1). lia.
Qed.

Lemma every_fitting_placement_is_tried_witness :
  exists s',
    recurse 1 6 16777215 six_rows_world = Ok s' /\
    exists sol,
      Recurse (6 + 1)
        (Z.lor 16777215
           (u32 (Z.shiftl (rd (po_masks (rd (pieces_available six_rows_world) 6)) 0)
                          (0 + W * 6))))
        (wr (pieces_available six_rows_world) 6 (rd (pieces_available six_rows_world) 0))
        sol ∈ calls s' /\
      piece_mask (rd sol 6)
      = u32 (Z.shiftl (rd (po_masks (rd (pieces_available six_rows_world) 6)) 0)
                      (0 + W * 6)) /\
      forall d, 0 <= d < 6 -> rd sol d = rd (solution six_rows_world) d.
Proof.
  destruct six_rows_solved as (s' & Hr & _). exists s'. split; [exact Hr|].
  apply (every_fitting_placement_is_tried 0 6 16777215 six_rows_world s' 6 0 0 6).
  - unfold NUM_PIECES. lia.
  - apply pool_okb_spec. vm_compute. reflexivity.
  - reflexivity.
  - unfold NUM_PIECES. lia.
  - unfold NUM_PIECES. lia.
  - vm_compute. split; [discriminate | reflexivity].
  - vm_compute. split; discriminate.
  - vm_compute. split; discriminate.
  - vm_compute. reflexivity.
  - exact Hr.
Defined.

(** X22. On a branch of the search, every call of [recurse] at a depth
    [iter'] is entered with exactly [4 * iter'] cells occupied. *)
Theorem four_cells_per_depth fuel iter state s :
  tiling_inv iter state (pieces_available s)
             (masks (take (Z.to_nat iter) (solution s))) ->
  Z.of_nat (length (solution s)) = NUM_PIECES ->
  NUM_PIECES - iter <= Z.of_nat fuel ->
  exists s' evs,
    recurse fuel iter state s = Ok s' /\ calls s' = calls s ++ evs /\
    forall iter' state' pa' sol', Recurse iter' state' pa' sol' ∈ evs ->
      popcount state' = 4 * iter'.
Proof.
  intros HI Hlen Hfuel.
  destruct (recurse_tiling_events fuel iter state s HI Hlen Hfuel)
    as (s' & evs & Hr & Hc & Hev).
  exists s', evs. repeat split; try assumption.
  intros iter' state' pa' sol' Hin. apply (Forall_elem _ _ _ Hev) in Hin.
  destruct Hin as (_ & _ & _ & Hl & -> & Hd & Ht).
  rewrite (proj2 (disjoint_tetrominoes _ Hd Ht)). lia.
Qed.

Lemma four_cells_per_depth_witness :
  exists s' evs,
    recurse 1 6 16777215 six_rows_world = Ok s' /\
    calls s' = calls six_rows_world ++ evs /\
    forall iter' state' pa' sol', Recurse iter' state' pa' sol' ∈ evs ->
      popcount state' = 4 * iter'.
Proof.
  apply four_cells_per_depth.
  - apply tiling_invb_spec. vm_compute. reflexivity.
  - reflexivity.
  - unfold NUM_PIECES. lia.
Defined.

(** ** What the search prints *)

Lemma reported_refl s : reported s s.
Proof. exists []. split; [by rewrite app_nil_r|]. simpl. by rewrite string_app_nil_r. Qed.

Lemma reported_trans s1 s2 s3 : reported s1 s2 -> reported s2 s3 -> reported s1 s3.
Proof.
  intros (e1 & Hc1 & Ho1) (e2 & Hc2 & Ho2). exists (e1 ++ e2). split.
  - by rewrite Hc2, Hc1, app_assoc.
  - rewrite Ho2, Ho1, reports_app. unfold report_text.
    by rewrite text_app, string_app_assoc.
Qed.

Lemma for_each_reported l (body : Z -> world -> outcome world) s s' :
  (forall i a b, body i a = Ok b -> reported a b) ->
  for_each l body s = Ok s' -> reported s s'.
Proof.
  intros Hb. revert s. induction l as [|i l IH]; intros s Hr; simpl in Hr.
  - injection Hr as <-. apply reported_refl.
  - apply bind_ok in Hr as (t & Hi & Hrest).
    eapply reported_trans; [by eapply Hb | by apply IH].
Qed.

Lemma found_solution_text s :
  ~ overlapping (solution s) NUM_PIECES ->
  found_solution s
  = Ok (print (announcement ++ picture (solution s) NUM_PIECES)
              (record (Found (solution s)) s)).
Proof.
  intros Hov. unfold found_solution. cbn [solution print record].
  rewrite print_solution_text by assumption. by rewrite print_print.
Qed.

Lemma found_solution_returns s s' :
  found_solution s = Ok s' -> ~ overlapping (solution s) NUM_PIECES.
Proof.
  intros Hr. pose proof (found_solution_frame s) as Hf.
  unfold found_solution in Hr.
  set (s0 := print _ (record _ s)) in Hr.
  pose proof (print_solution_spec (solution s0) NUM_PIECES s0) as Hp.
  rewrite Hr in Hp. by destruct Hp as [_ Hov].
Qed.

Lemma found_solution_reported s s' : found_solution s = Ok s' -> reported s s'.
Proof.
  intros Hr. pose proof (found_solution_returns s s' Hr) as Hov.
  rewrite found_solution_text in Hr by assumption. injection Hr as <-.
  exists [Found (solution s)]. split; [reflexivity|].
  simpl. unfold report_text. simpl. by rewrite string_app_nil_r.
Qed.

Lemma try_slot_reported (rec : Z -> Z -> world -> outcome world) iter state i s s' :
  (forall it st a b, rec it st a = Ok b -> reported a b) ->
  try_slot rec iter state i s = Ok s' -> reported s s'.
Proof.
  intros Hrec Hr. unfold try_slot in Hr.
  apply bind_ok in Hr as (t & Hloop & Hrest). injection Hrest as <-.
  assert (Ht : reported (set_pieces_available
                           (wr (pieces_available s) i (rd (pieces_available s) 0)) s) t).
  { revert Hloop. apply for_each_reported. intros j a b. unfold try_orientation.
    apply for_each_reported. intros y a1 b1.
    apply for_each_reported. intros x a2 b2. unfold try_place.
    destruct (negb _); [intros [= <-]; apply reported_refl|].
    intros Hr. apply Hrec in Hr. exact Hr. }
  exact Ht.
Qed.

Lemma recurse_reported fuel : forall iter state s s',
  recurse fuel iter state s = Ok s' -> reported s s'.
Proof.
  induction fuel as [|fuel IH]; intros iter state s s' Hr; simpl in Hr;
    set (s0 := record _ s) in Hr;
    (assert (Hs0 : reported s s0)
       by (eexists [_]; split; [reflexivity | simpl; by rewrite string_app_nil_r]));
    (eapply reported_trans; [exact Hs0|]);
    (destruct (iter =? NUM_PIECES); [by apply found_solution_reported|]);
    revert Hr; apply for_each_reported; intros i a b; apply try_slot_reported.
  - discriminate.
  - exact IH.
Qed.

(** X23. What a call of [recurse] that returns has appended to [stdout]
    is, for each solution it reported and in the order of the reports, the
    announcement and the picture [print_solution] draws of it, 67
    characters in all, and nothing else. *)
Theorem stdout_holds_the_reports fuel iter state s :
  0 <= iter <= NUM_PIECES -> pool_ok (pieces_available s) ->
  Z.of_nat (length (solution s)) = NUM_PIECES ->
  NUM_PIECES - iter <= Z.of_nat fuel ->
  triple (recurse fuel iter state s)
    (fun s' => exists evs,
       calls s' = calls s ++ evs /\
       out s' = (out s ++ report_text (reports evs))%string /\
       String.length (out s')
       = (String.length (out s) + 67 * length (reports evs))%nat)
    overlap_exit.
Proof.
  intros Hi _ Hlen Hfuel.
  pose proof (recurse_any fuel iter state s Hi Hlen Hfuel) as Hr.
  destruct (recurse fuel iter state s) as [s'|c s'|] eqn:Heq; simpl in *;
    [|assumption..].
  destruct (recurse_reported _ _ _ _ _ Heq) as (evs & Hc & Ho).
  exists evs. repeat split; try assumption.
  rewrite Ho, string_length_app. f_equal. unfold report_text.
  rewrite (text_length _ _ 67); [lia|]. intros sol _.
  rewrite string_length_app. unfold picture. rewrite string_length_app.
  unfold grid_text. rewrite grid_length; [reflexivity| |unfold W; lia|unfold H; lia].
  intros x y. apply cell_text_length.
Qed.

Lemma stdout_holds_the_reports_witness :
  triple (recurse 1 6 16777215 six_rows_world)
    (fun s' => exists evs,
       calls s' = calls six_rows_world ++ evs /\
       out s' = (out six_rows_world ++ report_text (reports evs))%string /\
       String.length (out s')
       = (String.length (out six_rows_world) + 67 * length (reports evs))%nat)
    overlap_exit.
Proof.
  apply stdout_holds_the_reports.
  - unfold NUM_PIECES. lia.
  - apply pool_okb_spec. vm_compute. reflexivity.
  - reflexivity.
  - unfold NUM_PIECES. lia.
Defined.

(** X24. Whatever its arrays held before, the run of [main] writes
    nothing at all: [stdout] and [stderr] are empty when it returns 0. *)
Theorem main_prints_nothing avail solution0 :
  avail_shape avail -> length solution0 = 7%nat ->
  exists s, main avail solution0 = Ok (0, s) /\
            out s = ""%string /\ err s = ""%string.
Proof.
  intros Ha Hs. destruct (main_run avail solution0 Ha Hs) as (s & Hmain & Hsr).
  exists s. split; [assumption|].
  pose proof Hmain as Hr. rewrite main_unfold in Hr.
  apply bind_ok in Hr as (s' & Hr & Hs'). injection Hs' as ->.
  destruct (recurse_reported _ _ _ _ _ Hr) as (evs & Hc & Ho).
  destruct Hsr as (_ & _ & _ & He & evs' & Hc' & Hev). simpl in *.
  split; [|assumption].
  rewrite Ho. subst evs.
  destruct (reports (calls s)) as [|sol l] eqn:Hrep; [reflexivity|]. exfalso.
  assert (Hin : sol ∈ reports (calls s)) by (rewrite Hrep; constructor).
  apply reports_elem in Hin. rewrite Hc' in Hin. apply (Forall_elem _ _ _ Hev) in Hin.
  destruct Hin as (state & pa & HI). by eapply parity_inv_leaf.
Qed.

Lemma main_prints_nothing_witness :
  exists s, main ones_avail ones_solution = Ok (0, s) /\
            out s = ""%string /\ err s = ""%string.
Proof.
  apply main_prints_nothing.
  - split; [reflexivity | repeat constructor].
  - reflexivity.
Defined.
